(** * use-timing: a model of packages/core/src/plugins/use-timing.ts

    The plugin brackets the phases of a GraphQL request with clock reads and
    reports the elapsed time to configurable sinks.  This development embeds
    the file function by function: [deltaFrom], [isThenable], [resolveField],
    [wrapResolver] and [useTiming], over a small model of JavaScript values,
    numbers (IEEE 754 doubles), promises and of the effects the code
    performs (clock reads, sink calls, resolver calls, exceptions). *)

From Stdlib Require Import ZArith QArith Qabs List String Bool Lia.
From Stdlib Require Import SpecFloat.
Import ListNotations.

Local Open Scope string_scope.
Local Open Scope list_scope.
Local Open Scope Z_scope.

(* ===================================================================== *)
(** ** JavaScript values *)
(* ===================================================================== *)

(** The eventual state of a native promise.  The model is big-step in time:
    a promise is identified with the way it eventually settles. *)
Inductive settlement (A E : Type) : Type :=
| Pending                      (* never settles *)
| Fulfilled (a : A)
| Rejected (e : E).

Arguments Pending {A E}.
Arguments Fulfilled {A E} a.
Arguments Rejected {A E} e.

#[local] Set Warnings "-register-all".

(** Values.  Objects carry their own properties and an optional prototype;
    a property is a data property or an accessor whose getter either returns
    a value or throws one. *)
Inductive value : Type :=
| VUndefined
| VNull
| VBool (b : bool)
| VNumber (n : Z)
| VString (s : string)
| VSymbol (description : string)
| VBigInt (n : Z)
| VObject (o : object)
| VFunction (o : object)
| VPromise (p : settlement value value)
with object : Type :=
| Obj (own : list (string * property)) (proto : option object)
with property : Type :=
| PData (v : value)
| PGetterReturns (v : value)
| PGetterThrows (e : value).

(** A completion: the normal result of an evaluation, or the value thrown. *)
Inductive completion (A : Type) : Type :=
| Normal (a : A)
| Abrupt (e : value).

Arguments Normal {A} a.
Arguments Abrupt {A} e.

Definition TypeError (message : string) : value :=
  VObject (Obj [("name", PData (VString "TypeError"));
                ("message", PData (VString message))] None).

(** [typeof v]. *)
Definition typeof (v : value) : string :=
  match v with
  | VUndefined => "undefined"
  | VNull => "object"
  | VBool _ => "boolean"
  | VNumber _ => "number"
  | VString _ => "string"
  | VSymbol _ => "symbol"
  | VBigInt _ => "bigint"
  | VObject _ => "object"
  | VFunction _ => "function"
  | VPromise _ => "object"
  end.

(** [!!v]. *)
Definition to_boolean (v : value) : bool :=
  match v with
  | VUndefined | VNull => false
  | VBool b => b
  | VNumber n | VBigInt n => negb (n =? 0)%Z
  | VString s => negb (s =? "")%string
  | VSymbol _ | VObject _ | VFunction _ | VPromise _ => true
  end.

Fixpoint own_property (key : string) (own : list (string * property))
  : option property :=
  match own with
  | [] => None
  | (k, p) :: rest => if (k =? key)%string then Some p else own_property key rest
  end.

(** Property lookup along the prototype chain. *)
Fixpoint find_property (key : string) (o : object) : option property :=
  match o with
  | Obj own proto =>
      match own_property key own with
      | Some p => Some p
      | None =>
          match proto with
          | Some parent => find_property key parent
          | None => None
          end
      end
  end.

(** The function every native promise inherits as its [then] member. *)
Definition promise_then : value := VFunction (Obj [] None).

Definition promise_prototype : object :=
  Obj [("then", PData promise_then)] None.

(** The object a value is, for property access; [None] for primitives. *)
Definition as_object (v : value) : option object :=
  match v with
  | VObject o | VFunction o => Some o
  | VPromise _ => Some promise_prototype
  | _ => None
  end.

(** [key in v]: a TypeError when [v] is not an object. *)
Definition has_property (key : string) (v : value) : completion bool :=
  match as_object v with
  | Some o =>
      Normal (match find_property key o with Some _ => true | None => false end)
  | None =>
      Abrupt (TypeError "Cannot use 'in' operator to search for a key in a primitive")
  end.

(** [v.key] on an object: runs the getter of an accessor property. *)
Definition get_property (key : string) (v : value) : completion value :=
  match as_object v with
  | Some o =>
      match find_property key o with
      | Some (PData x) => Normal x
      | Some (PGetterReturns x) => Normal x
      | Some (PGetterThrows e) => Abrupt e
      | None => Normal VUndefined
      end
  | None =>
      match v with
      | VUndefined | VNull =>
          Abrupt (TypeError "Cannot read properties of undefined or null")
      | _ => Normal VUndefined
      end
  end.

(* ===================================================================== *)
(** ** isThenable (use-timing.ts, lines 60-66) *)
(* ===================================================================== *)

(** [((!!result && typeof result === 'object') || typeof result === 'function')
     && 'then' in result && typeof result.then === 'function'],
    evaluated left to right with short-circuiting. *)
Definition isThenable (result : value) : completion bool :=
  if (to_boolean result && (typeof result =? "object")%string)
     || (typeof result =? "function")%string
  then
    match has_property "then" result with
    | Abrupt e => Abrupt e
    | Normal false => Normal false
    | Normal true =>
        match get_property "then" result with
        | Abrupt e => Abrupt e
        | Normal member => Normal (typeof member =? "function")%string
        end
    end
  else Normal false.

(* ===================================================================== *)
(** ** Effects: clock, request context, trace, exceptions *)
(* ===================================================================== *)

(** The six measurement categories of [TimingPluginOptions]. *)
Inductive category : Type :=
| ContextBuilding | Parsing | Validation | Execution | Subscription | Resolver.

Definition category_eqb (a b : category) : bool :=
  match a, b with
  | ContextBuilding, ContextBuilding | Parsing, Parsing
  | Validation, Validation | Execution, Execution
  | Subscription, Subscription | Resolver, Resolver => true
  | _, _ => false
  end.

(** JavaScript numbers are IEEE 754 binary64 values: 53 bits of precision,
    rounding to nearest with ties to even. *)
Definition prec : Z := 53.
Definition emax : Z := 1024.

(** The number a whole number is as a JavaScript number: itself up to
    [2 ^ 53], the nearest double beyond. *)
Definition of_integer (z : Z) : spec_float :=
  binary_normalize prec emax z 0 false.

(** [ResultTiming]: [ns] is stored, [ms] is the getter [ns / NS_TO_MS]. *)
Record ResultTiming : Type := { ns : spec_float }.

Definition HR_TO_NS : spec_float := of_integer 1000000000.   (* 1e9 *)
Definition NS_TO_MS : spec_float := of_integer 1000000.      (* 1e6 *)

Definition ms (t : ResultTiming) : spec_float :=
  SFdiv prec emax (ns t) NS_TO_MS.

(** What a run leaves behind.  [EvClock c] is a read of the clock by code
    that measures category [c]; [EvMeasurement] is a call of a sink;
    [EvResolverCall] is a call of a field resolver; [EvAfterHook] is a call
    of an after-hook supplied from outside this plugin; [EvUndefinedCall] is
    a call through [options.f!] of a sink that is undefined. *)
Inductive event : Type :=
| EvClock (c : category)
| EvMeasurement (c : category) (sink : string) (subject : string) (t : ResultTiming)
| EvResolverCall (fn : string)
| EvAfterHook (hook : string) (arg : value)
| EvUndefinedCall (c : category).

(** The request-scoped context: only the field keyed by
    [envelopIsIntrospectionSymbol] is modelled. *)
Record Context : Type := { isIntrospection : bool }.

Record world : Type := {
  clock : nat -> Z * Z;     (* the successive readings [sec, nsec] of the clock *)
  ticks : nat;              (* how many readings have been taken *)
  context : Context;        (* the context of the request being served *)
  trace : list event        (* oldest first *)
}.

Definition M (A : Type) : Type := world -> completion A * world.

Definition ret {A} (a : A) : M A := fun w => (Normal a, w).

Definition bind {A B} (m : M A) (k : A -> M B) : M B :=
  fun w =>
    match m w with
    | (Normal a, w') => k a w'
    | (Abrupt e, w') => (Abrupt e, w')
    end.

Definition throw {A} (e : value) : M A := fun w => (Abrupt e, w).

(** [try { m } catch ...]: the completion of [m], as a value. *)
Definition try_ {A} (m : M A) : M (completion A) :=
  fun w => let (r, w') := m w in (Normal r, w').

Definition lift {A} (c : completion A) : M A := fun w => (c, w).

Declare Scope js_scope.
Delimit Scope js_scope with js.
Notation "x <- m ;; k" := (bind m (fun x => k))
  (at level 61, m at next level, right associativity) : js_scope.
Notation "m ;; k" := (bind m (fun _ => k))
  (at level 61, right associativity) : js_scope.
Local Open Scope js_scope.

Definition emit (e : event) : M unit :=
  fun w => (Normal tt, {| clock := clock w; ticks := ticks w;
                          context := context w; trace := trace w ++ [e] |}).

Definition get_context : M Context := fun w => (Normal (context w), w).

(** [Object.assign(context, extension)] for the one modelled field: the
    extension either carries the marker or does not mention it. *)
Definition extendContext (extension : Context) : M unit :=
  fun w => (Normal tt,
            {| clock := clock w; ticks := ticks w;
               context := {| isIntrospection :=
                               isIntrospection extension
                               || isIntrospection (context w) |};
               trace := trace w |}).

(** [process.hrtime()]: the next reading of the clock. *)
Definition hrtime (c : category) : M (Z * Z) :=
  fun w => (Normal (clock w (ticks w)),
            {| clock := clock w; ticks := S (ticks w);
               context := context w; trace := trace w ++ [EvClock c] |}).

(** The nanoseconds Node borrows from a second in [process.hrtime(time)]. *)
Definition NANOSECONDS_PER_SECOND : Z := 1000000000.

(** The difference Node computes for [process.hrtime(time)].  The
    components of a reading are whole numbers. *)
Definition hrtime_diff (now time : Z * Z) : Z * Z :=
  let sec := fst now - fst time in
  let nsec := snd now - snd time in
  if nsec <? 0 then (sec - 1, nsec + NANOSECONDS_PER_SECOND) else (sec, nsec).

(** [process.hrtime(time)]. *)
Definition hrtime_since (c : category) (time : Z * Z) : M (Z * Z) :=
  now <- hrtime c ;; ret (hrtime_diff now time).

(* ===================================================================== *)
(** ** deltaFrom (use-timing.ts, lines 44-54) *)
(* ===================================================================== *)

(** The record built from [delta = process.hrtime(hrtime)]:
    [delta[0] * HR_TO_NS + delta[1]], a product and a sum of doubles. *)
Definition timing_of_delta (delta : Z * Z) : ResultTiming :=
  {| ns := SFadd prec emax
             (SFmul prec emax (of_integer (fst delta)) HR_TO_NS)
             (of_integer (snd delta)) |}.

Definition deltaFrom (c : category) (hrtime : Z * Z) : M ResultTiming :=
  delta <- hrtime_since c hrtime ;;
  ret (timing_of_delta delta).

(* ===================================================================== *)
(** ** Promises, resolvers and resolver hooks *)
(* ===================================================================== *)

(** The state a promise takes when it is resolved with the completion of a
    continuation: a thrown value rejects it and a returned native promise is
    adopted.  Any other returned object has its [then] member read: a getter
    that throws rejects the promise, a member that is no function fulfils it
    with the object.  A member that is a function is foreign code the
    promise follows; as in [call_then] below it is modelled as never calling
    back, which leaves the promise pending. *)
Definition settle (r : completion value) : settlement value value :=
  match r with
  | Abrupt e => Rejected e
  | Normal (VPromise p) => p
  | Normal v =>
      match as_object v with
      | None => Fulfilled v
      | Some _ =>
          match get_property "then" v with
          | Abrupt e => Rejected e
          | Normal member =>
              if (typeof member =? "function")%string then Pending
              else Fulfilled v
          end
      end
  end.

(** [p.then(onFulfilled, onRejected)] on a native promise: the promise
    derived from [p].  The continuation of a promise that settles is run
    where it is registered, so a trace records what eventually happens and
    not the interleaving of jobs. *)
Definition then_ {A} (p : settlement A value)
    (onFulfilled : A -> M value) (onRejected : value -> M value)
  : M (settlement value value) :=
  match p with
  | Pending => ret Pending
  | Fulfilled a => r <- try_ (onFulfilled a) ;; ret (settle r)
  | Rejected e => r <- try_ (onRejected e) ;; ret (settle r)
  end.

(** [result.then(onFulfilled, onRejected)] on a value that passed
    [isThenable].  The [then] of a user-defined thenable is foreign code:
    it is modelled as registering continuations that never run. *)
Definition call_then (result : value)
    (onFulfilled onRejected : value -> M value) : M value :=
  match result with
  | VPromise p => derived <- then_ p onFulfilled onRejected ;; ret (VPromise derived)
  | _ => ret VUndefined
  end.

(** The arguments [(root, args, context, info)] of a field resolver. *)
Record ResolverArgs : Type := {
  root : value;
  args : value;
  resolverContext : Context;
  info : string               (* "ParentType.fieldName" *)
}.

Definition ResolverFn : Type := ResolverArgs -> M value.

(** [AfterResolverHook]: called with [{ result, setResult }].  The hook
    reaches the caller's [result] variable only through [setResult], so it
    is summarised by the last value it passed to [setResult], if any. *)
Definition AfterResolverHook : Type := value -> M (option value).

(** What an [OnResolverCalledHook] returns: nothing, an after-hook, or a
    promise of one of the two. *)
Inductive AfterReturn : Type :=
| AfterVoid
| AfterHook (hook : AfterResolverHook)
| AfterPromise (p : settlement (option AfterResolverHook) value).

(** The JavaScript shape of an [AfterReturn], as far as [!after] and
    [isThenable(after)] look at it. *)
Definition after_shape (after : AfterReturn) : value :=
  match after with
  | AfterVoid => VUndefined
  | AfterHook _ => VFunction (Obj [] None)
  | AfterPromise _ => VPromise Pending
  end.

Record OnResolverCalledPayload : Type := {
  resolverArgs : ResolverArgs;
  resolverFn : ResolverFn
}.

(** [OnResolverCalledHook]: besides its return value the hook may call
    [replaceResolverFn]; the function it last passed, if any, is returned. *)
Definition OnResolverCalledHook : Type :=
  OnResolverCalledPayload -> M (option ResolverFn * AfterReturn).

(** [GraphQLFieldConfig]: the resolver and, standing for everything else the
    spread [...field] copies, the field's type. *)
Record FieldConfig : Type := {
  fieldType : string;
  resolve : option ResolverFn
}.

(** A resolver function with a name: calling it is recorded, and it
    returns or throws as [behaviour] says. *)
Inductive outcome : Type :=
| Returns (v : value)
| Throws (e : value).

Definition resolver (name : string) (behaviour : ResolverArgs -> outcome)
  : ResolverFn :=
  fun a =>
    emit (EvResolverCall name) ;;
    match behaviour a with
    | Returns v => ret v
    | Throws e => throw e
    end.

(** An after-hook supplied by another plugin: called with [result] it may
    pass a value to [setResult] and may throw. *)
Record HookAction : Type := {
  substitute : option value;
  raise : option value
}.

Definition afterHook (name : string) (action : value -> HookAction)
  : AfterResolverHook :=
  fun result =>
    emit (EvAfterHook name result) ;;
    match raise (action result) with
    | Some e => throw e
    | None => ret (substitute (action result))
    end.

(* ===================================================================== *)
(** ** resolveField (use-timing.ts, lines 68-93) *)
(* ===================================================================== *)

(** The body has no [return]: when it does not throw, the call evaluates to
    [undefined].  In the [catch] block [setResult] assigns [result], but the
    block throws [error]. *)
Definition resolveField (resolve : M value) (hook : AfterResolverHook)
  : M value :=
  attempt <- try_ resolve ;;
  match attempt with
  | Abrupt error =>
      _ <- hook error ;;
      throw error
  | Normal result =>
      thenable <- lift (isThenable result) ;;
      (if thenable : bool then
         _ <- call_then result
                (fun resolved =>
                   substituted <- hook resolved ;;
                   ret (match substituted with
                        | Some newResult => newResult
                        | None => resolved
                        end))
                (fun error => _ <- hook error ;; throw error) ;;
         ret tt
       else ret tt) ;;
      ret VUndefined
  end.

(* ===================================================================== *)
(** ** wrapResolver (use-timing.ts, lines 95-130) *)
(* ===================================================================== *)

Section WrapResolver.

(** graphql-js's [defaultFieldResolver]. *)
Variable defaultFieldResolver : ResolverFn.

(** The function installed as [resolve] of the wrapped field. *)
Definition wrapped_resolve (originalResolver : ResolverFn)
    (onResolverCalled : OnResolverCalledHook) : ResolverFn :=
  fun a =>
    called <- onResolverCalled {| resolverArgs := a;
                                  resolverFn := originalResolver |} ;;
    let resolve := match fst called with
                   | Some fn => fn
                   | None => originalResolver
                   end in
    match snd called with
    | AfterVoid =>                       (* !after *)
        resolve a
    | AfterPromise after =>              (* isThenable(after) *)
        derived <- then_ after
                     (fun hook =>
                        match hook with
                        | None => resolve a
                        | Some hook => resolveField (resolve a) hook
                        end)
                     (fun reason => throw reason) ;;
        ret (VPromise derived)
    | AfterHook after =>
        resolveField (resolve a) after
    end.

Definition wrapResolver (field : FieldConfig)
    (onResolverCalled : OnResolverCalledHook) : FieldConfig :=
  let originalResolver := match resolve field with
                          | Some fn => fn
                          | None => defaultFieldResolver
                          end in
  {| fieldType := fieldType field;
     resolve := Some (wrapped_resolve originalResolver onResolverCalled) |}.

End WrapResolver.

(* ===================================================================== *)
(** ** Options (use-timing.ts, lines 19-42) *)
(* ===================================================================== *)

(** A key of an options object: absent ([None]), present with the value
    [undefined] ([Some None]), or present with a value. *)
Definition slot (A : Type) : Type := option (option A).

(** [o.key]: [undefined] when the key is absent. *)
Definition read {A} (s : slot A) : option A :=
  match s with
  | Some v => v
  | None => None
  end.

(** One key of [{ ...base, ...over }]: a key present in [over] wins, even
    when its value is [undefined]. *)
Definition spread_slot {A} (base over : slot A) : slot A :=
  match over with
  | Some v => Some v
  | None => base
  end.

(** A sink callback: its name and, for the arguments it is called with, the
    value it throws, if it throws.  What a sink returns is ignored. *)
Record Sink : Type := {
  sink_name : string;
  sink_raises : string -> ResultTiming -> option value
}.

(** [f(subject, timing)]: the call is recorded, and what the callback throws
    propagates. *)
Definition call_sink (c : category) (f : Sink) (subject : string)
    (timing : ResultTiming) : M unit :=
  emit (EvMeasurement c (sink_name f) subject timing) ;;
  match sink_raises f subject timing with
  | Some e => throw e
  | None => ret tt
  end.

Record TimingPluginOptions : Type := {
  skipIntrospection : slot bool;
  onContextBuildingMeasurement : slot Sink;
  onExecutionMeasurement : slot Sink;
  onSubscriptionMeasurement : slot Sink;
  onParsingMeasurement : slot Sink;
  onValidationMeasurement : slot Sink;
  onResolverMeasurement : slot Sink
}.

(** The default sinks write a line with [console.log], which returns. *)
Definition console_log : Sink :=
  {| sink_name := "console.log"; sink_raises := fun _ _ => None |}.

Definition DEFAULT_OPTIONS : TimingPluginOptions :=
  {| skipIntrospection := None;
     onContextBuildingMeasurement := Some (Some console_log);
     onExecutionMeasurement := Some (Some console_log);
     onSubscriptionMeasurement := Some (Some console_log);
     onParsingMeasurement := Some (Some console_log);
     onValidationMeasurement := Some (Some console_log);
     onResolverMeasurement := Some (Some console_log) |}.

(** The empty object [{}]. *)
Definition no_options : TimingPluginOptions :=
  {| skipIntrospection := None;
     onContextBuildingMeasurement := None;
     onExecutionMeasurement := None;
     onSubscriptionMeasurement := None;
     onParsingMeasurement := None;
     onValidationMeasurement := None;
     onResolverMeasurement := None |}.

(** [{ ...base, ...over }]. *)
Definition spread (base over : TimingPluginOptions) : TimingPluginOptions :=
  {| skipIntrospection :=
       spread_slot (skipIntrospection base) (skipIntrospection over);
     onContextBuildingMeasurement :=
       spread_slot (onContextBuildingMeasurement base)
                   (onContextBuildingMeasurement over);
     onExecutionMeasurement :=
       spread_slot (onExecutionMeasurement base) (onExecutionMeasurement over);
     onSubscriptionMeasurement :=
       spread_slot (onSubscriptionMeasurement base)
                   (onSubscriptionMeasurement over);
     onParsingMeasurement :=
       spread_slot (onParsingMeasurement base) (onParsingMeasurement over);
     onValidationMeasurement :=
       spread_slot (onValidationMeasurement base)
                   (onValidationMeasurement over);
     onResolverMeasurement :=
       spread_slot (onResolverMeasurement base) (onResolverMeasurement over) |}.

(** The sink slot of a category. *)
Definition sink_slot (c : category) (o : TimingPluginOptions) : slot Sink :=
  match c with
  | ContextBuilding => onContextBuildingMeasurement o
  | Parsing => onParsingMeasurement o
  | Validation => onValidationMeasurement o
  | Execution => onExecutionMeasurement o
  | Subscription => onSubscriptionMeasurement o
  | Resolver => onResolverMeasurement o
  end.

(** Truthiness of an optional callback or flag. *)
Definition truthy_sink (s : option Sink) : bool :=
  match s with Some _ => true | None => false end.

Definition truthy_flag (b : option bool) : bool :=
  match b with Some true => true | _ => false end.

(** [sink!(subject, timing)]: the arguments are evaluated by the caller;
    calling [undefined] is a TypeError. *)
Definition call_asserted (c : category) (sink : option Sink)
    (subject : string) (timing : ResultTiming) : M unit :=
  match sink with
  | Some f => call_sink c f subject timing
  | None => emit (EvUndefinedCall c) ;;
            throw (TypeError "options callback is not a function")
  end.

(* ===================================================================== *)
(** ** The plugin object *)
(* ===================================================================== *)

(** A callback a before-hook hands back to be run when the phase ends. *)
Definition AfterPhase : Type := M unit.

Record ParsePayload : Type := {
  source : string;                       (* params.source *)
  extend : Context -> M unit             (* extendContext *)
}.

Record ValidatePayload : Type := {
  documentAST : string;                  (* params.documentAST *)
  validateContext : Context              (* context *)
}.

(** [ExecutionArgs] and [SubscriptionArgs]. *)
Record OperationArgs : Type := {
  operationName : string;
  contextValue : Context
}.

Definition Schema : Type := list (string * FieldConfig).

(** [mapSchema(schema, { [MapperKind.COMPOSITE_FIELD]: mapper })] of
    graphql-tools: the mapper is applied to every field. *)
Definition mapSchema (schema : Schema) (mapper : FieldConfig -> FieldConfig)
  : Schema :=
  map (fun entry => (fst entry, mapper (snd entry))) schema.

Record Plugin : Type := {
  onContextBuilding : option (Context -> M (option AfterPhase));
  onParse : option (ParsePayload -> M (option AfterPhase));
  onValidate : option (ValidatePayload -> M (option AfterPhase));
  onExecute : option (OperationArgs -> M (option AfterPhase));
  onSubscribe : option (OperationArgs -> M (option AfterPhase));
  onSchemaChange : option (Schema -> Schema);  (* the schema given to replaceSchema *)
  onResolverCalled : option OnResolverCalledHook
}.

(** [{}]. *)
Definition empty_plugin : Plugin :=
  {| onContextBuilding := None; onParse := None; onValidate := None;
     onExecute := None; onSubscribe := None; onSchemaChange := None;
     onResolverCalled := None |}.

Definition set_onContextBuilding h (p : Plugin) : Plugin :=
  {| onContextBuilding := Some h; onParse := onParse p;
     onValidate := onValidate p; onExecute := onExecute p;
     onSubscribe := onSubscribe p; onSchemaChange := onSchemaChange p;
     onResolverCalled := onResolverCalled p |}.

Definition set_onParse h (p : Plugin) : Plugin :=
  {| onContextBuilding := onContextBuilding p; onParse := Some h;
     onValidate := onValidate p; onExecute := onExecute p;
     onSubscribe := onSubscribe p; onSchemaChange := onSchemaChange p;
     onResolverCalled := onResolverCalled p |}.

Definition set_onValidate h (p : Plugin) : Plugin :=
  {| onContextBuilding := onContextBuilding p; onParse := onParse p;
     onValidate := Some h; onExecute := onExecute p;
     onSubscribe := onSubscribe p; onSchemaChange := onSchemaChange p;
     onResolverCalled := onResolverCalled p |}.

Definition set_onExecute h (p : Plugin) : Plugin :=
  {| onContextBuilding := onContextBuilding p; onParse := onParse p;
     onValidate := onValidate p; onExecute := Some h;
     onSubscribe := onSubscribe p; onSchemaChange := onSchemaChange p;
     onResolverCalled := onResolverCalled p |}.

Definition set_onSubscribe h (p : Plugin) : Plugin :=
  {| onContextBuilding := onContextBuilding p; onParse := onParse p;
     onValidate := onValidate p; onExecute := onExecute p;
     onSubscribe := Some h; onSchemaChange := onSchemaChange p;
     onResolverCalled := onResolverCalled p |}.

Definition set_onSchemaChange h (p : Plugin) : Plugin :=
  {| onContextBuilding := onContextBuilding p; onParse := onParse p;
     onValidate := onValidate p; onExecute := onExecute p;
     onSubscribe := onSubscribe p; onSchemaChange := Some h;
     onResolverCalled := onResolverCalled p |}.

Definition set_onResolverCalled h (p : Plugin) : Plugin :=
  {| onContextBuilding := onContextBuilding p; onParse := onParse p;
     onValidate := onValidate p; onExecute := onExecute p;
     onSubscribe := onSubscribe p; onSchemaChange := onSchemaChange p;
     onResolverCalled := Some h |}.

(* ===================================================================== *)
(** ** useTiming (use-timing.ts, lines 132-282) *)
(* ===================================================================== *)

(** [options.f && options.f(subject, deltaFrom(start))]. *)
Definition call_guarded (c : category) (sink : option Sink)
    (subject : string) (start : Z * Z) : M unit :=
  match sink with
  | Some f =>
      timing <- deltaFrom c start ;;
      call_sink c f subject timing
  | None => ret tt
  end.

(** [options.f!(subject, deltaFrom(start))]. *)
Definition call_measured (c : category) (sink : option Sink)
    (subject : string) (start : Z * Z) : M unit :=
  timing <- deltaFrom c start ;;
  call_asserted c sink subject timing.

Section UseTiming.

(** graphql-js's [defaultFieldResolver] and [isIntrospectionOperationString]
    of [../utils]. *)
Variable defaultFieldResolver : ResolverFn.
Variable isIntrospectionOperationString : string -> bool.

Section Hooks.

Variable options : TimingPluginOptions.

(** lines 141-151 *)
Definition contextBuildingHook (context : Context) : M (option AfterPhase) :=
  if isIntrospection context then ret None
  else
    contextStartTime <- hrtime ContextBuilding ;;
    ret (Some (call_measured ContextBuilding
                 (read (onContextBuildingMeasurement options))
                 "" contextStartTime)).

(** lines 155-168 *)
Definition parseHook (payload : ParsePayload) : M (option AfterPhase) :=
  if truthy_flag (read (skipIntrospection options))
     && isIntrospectionOperationString (source payload)
  then
    extend payload {| isIntrospection := true |} ;;
    ret None
  else
    parseStartTime <- hrtime Parsing ;;
    ret (Some (call_measured Parsing
                 (read (onParsingMeasurement options))
                 (source payload) parseStartTime)).

(** lines 172-182 *)
Definition validateHook (payload : ValidatePayload) : M (option AfterPhase) :=
  if isIntrospection (validateContext payload) then ret None
  else
    validateStartTime <- hrtime Validation ;;
    ret (Some (call_measured Validation
                 (read (onValidationMeasurement options))
                 (documentAST payload) validateStartTime)).

(** lines 187-199 and 209-221: the returned callback is [onExecuteDone]. *)
Definition executeHook (a : OperationArgs) : M (option AfterPhase) :=
  if isIntrospection (contextValue a) then ret None
  else
    executeStartTime <- hrtime Execution ;;
    ret (Some (call_measured Execution
                 (read (onExecutionMeasurement options))
                 (operationName a) executeStartTime)).

(** lines 227-239 and 265-277: the returned callback is
    [onSubscribeResult]. *)
Definition subscribeHook (a : OperationArgs) : M (option AfterPhase) :=
  if isIntrospection (contextValue a) then ret None
  else
    subscribeStartTime <- hrtime Subscription ;;
    ret (Some (call_guarded Subscription
                 (read (onSubscriptionMeasurement options))
                 (operationName a) subscribeStartTime)).

(** lines 201-207 *)
Definition resolverCalledHook_execution : OnResolverCalledHook :=
  fun payload =>
    resolverStartTime <- hrtime Resolver ;;
    ret (None,
         AfterHook (fun _ =>
           call_measured Resolver (read (onResolverMeasurement options))
             (info (resolverArgs payload)) resolverStartTime ;;
           ret None)).

(** lines 245-251 and 257-263 *)
Definition resolverCalledHook_subscription : OnResolverCalledHook :=
  fun payload =>
    resolverStartTime <- hrtime Resolver ;;
    ret (None,
         AfterHook (fun _ =>
           call_guarded Resolver (read (onResolverMeasurement options))
             (info (resolverArgs payload)) resolverStartTime ;;
           ret None)).

(** lines 241-255 *)
Definition schemaChangeHook (schema : Schema) : Schema :=
  mapSchema schema
    (fun field =>
       wrapResolver defaultFieldResolver field
         resolverCalledHook_subscription).

End Hooks.

(** lines 133-136: [{ ...DEFAULT_OPTIONS, ...(rawOptions || {}) }]. *)
Definition merged (rawOptions : option TimingPluginOptions)
  : TimingPluginOptions :=
  spread DEFAULT_OPTIONS
    (match rawOptions with Some o => o | None => no_options end).

Definition useTiming (rawOptions : option TimingPluginOptions) : Plugin :=
  let options := merged rawOptions in
  let result := empty_plugin in
  let result :=
    if truthy_sink (read (onContextBuildingMeasurement options))
    then set_onContextBuilding (contextBuildingHook options) result
    else result in
  let result :=
    if truthy_sink (read (onParsingMeasurement options))
    then set_onParse (parseHook options) result
    else result in
  let result :=
    if truthy_sink (read (onValidationMeasurement options))
    then set_onValidate (validateHook options) result
    else result in
  let result :=
    if truthy_sink (read (onExecutionMeasurement options))
    then
      if truthy_sink (read (onResolverMeasurement options))
      then set_onResolverCalled (resolverCalledHook_execution options)
             (set_onExecute (executeHook options) result)
      else set_onExecute (executeHook options) result
    else result in
  let result :=
    if truthy_sink (read (onSubscriptionMeasurement options))
    then
      if truthy_sink (read (onResolverMeasurement options))
      then set_onResolverCalled (resolverCalledHook_subscription options)
             (set_onSchemaChange (schemaChangeHook options)
                (set_onSubscribe (subscribeHook options) result))
      else set_onSubscribe (subscribeHook options) result
    else result in
  result.

(* =================================================================== *)
(** ** The pipeline's side of the hook contract *)
(* =================================================================== *)

(** The engine that calls the hooks and resolves the fields, and the schema
    utilities, are not part of use-timing.ts.  The definitions of this
    section state the contract the plugin is written against. *)

(** Modelled from the spec: a field resolution the engine performs during
    execution or subscription (the engine itself is missing). *)
Record FieldCall : Type := {
  call_field : string;          (* the field, by its name in the schema *)
  call_root : value;
  call_args : value
}.

(** Modelled from the spec: the phases of the pipeline (context building,
    parsing, validation, execution, subscription) as the missing engine
    runs them; [native] tells whether the engine offers its own
    per-resolver hook for the operation. *)
Inductive phase : Type :=
| ContextBuildingPhase
| ParsePhase (source : string)
| ValidatePhase (documentAST : string)
| ExecutePhase (operationName : string) (native : bool) (fields : list FieldCall)
| SubscribePhase (operationName : string) (native : bool) (fields : list FieldCall).

(** Modelled from the spec: the missing engine finds a field of the schema
    by its name. *)
Fixpoint lookup_field (name : string) (schema : Schema) : option FieldConfig :=
  match schema with
  | [] => None
  | (n, field) :: rest =>
      if (n =? name)%string then Some field else lookup_field name rest
  end.

(** Modelled from the spec: the missing engine hands the schema to
    [onSchemaChange] once, when it is ready, and continues with the schema
    the hook passed to [replaceSchema]. *)
Definition install (plugin : Plugin) (schema : Schema) : Schema :=
  match onSchemaChange plugin with
  | Some hook => hook schema
  | None => schema
  end.

(** Modelled from the spec: what the missing engine takes a resolver's
    completion to have settled to, if it ever does. *)
Definition settled (r : completion value) : option value :=
  match r with
  | Normal (VPromise Pending) => None
  | Normal (VPromise (Fulfilled v)) => Some v
  | Normal (VPromise (Rejected e)) => Some e
  | Normal v => Some v
  | Abrupt e => Some e
  end.

(** Modelled from the spec: the missing engine's per-resolver hook calls
    the after-hook it obtained once, with the settled result. *)
Definition run_after (after : AfterReturn) (result : value) : M unit :=
  match after with
  | AfterHook hook | AfterPromise (Fulfilled (Some hook)) =>
      _ <- hook result ;; ret tt
  | _ => ret tt
  end.

(** Modelled from the spec: one field resolution by the missing engine.
    The field's [resolve] of the current schema is called; where the engine
    offers its own per-resolver hook, [onResolverCalled] is called before the
    resolver and its after-hook once the result has settled.  Errors of a
    field are collected by the engine and do not abort the phase. *)
Definition run_field (plugin : Plugin) (schema : Schema) (native : bool)
    (call : FieldCall) : M unit :=
  match lookup_field (call_field call) schema with
  | None => ret tt
  | Some field =>
      let fn := match resolve field with
                | Some fn => fn
                | None => defaultFieldResolver
                end in
      _ <- try_ (
        current <- get_context ;;
        let a := {| root := call_root call; args := call_args call;
                    resolverContext := current; info := call_field call |} in
        match (if native then onResolverCalled plugin else None) with
        | None => _ <- try_ (fn a) ;; ret tt
        | Some hook =>
            called <- hook {| resolverArgs := a; resolverFn := fn |} ;;
            let fn := match fst called with Some g => g | None => fn end in
            r <- try_ (fn a) ;;
            match settled r with
            | Some result => run_after (snd called) result
            | None => ret tt
            end
        end) ;;
      ret tt
  end.

(** Modelled from the spec: the field resolutions of one operation, by the
    missing engine. *)
Fixpoint run_fields (plugin : Plugin) (schema : Schema) (native : bool)
    (calls : list FieldCall) : M unit :=
  match calls with
  | [] => ret tt
  | call :: rest =>
      run_field plugin schema native call ;;
      run_fields plugin schema native rest
  end.

(** Modelled from the spec: the missing engine calls the before-hook of a
    phase when the phase starts and the callback the hook returned, if any,
    once when the phase has completed. *)
Definition bracket {P} (hook : option (P -> M (option AfterPhase)))
    (payload : P) (body : M unit) : M unit :=
  match hook with
  | None => body
  | Some before =>
      after <- before payload ;;
      body ;;
      match after with
      | Some done => done
      | None => ret tt
      end
  end.

(** Modelled from the spec: one phase as the missing engine runs it, with
    the payload its hook receives. *)
Definition run_phase (plugin : Plugin) (schema : Schema) (p : phase) : M unit :=
  current <- get_context ;;
  match p with
  | ContextBuildingPhase =>
      bracket (onContextBuilding plugin) current (ret tt)
  | ParsePhase src =>
      bracket (onParse plugin)
        {| source := src; extend := extendContext |} (ret tt)
  | ValidatePhase document =>
      bracket (onValidate plugin)
        {| documentAST := document; validateContext := current |} (ret tt)
  | ExecutePhase name native fields =>
      bracket (onExecute plugin)
        {| operationName := name; contextValue := current |}
        (run_fields plugin schema native fields)
  | SubscribePhase name native fields =>
      bracket (onSubscribe plugin)
        {| operationName := name; contextValue := current |}
        (run_fields plugin schema native fields)
  end.

(** Modelled from the spec: the phases of a request, in the order the
    missing engine runs them. *)
Fixpoint run_phases (plugin : Plugin) (schema : Schema) (ps : list phase)
  : M unit :=
  match ps with
  | [] => ret tt
  | p :: rest => run_phase plugin schema p ;; run_phases plugin schema rest
  end.

(** Modelled from the spec: the world a request starts in; the context is
    request-scoped, so the marker is not set. *)
Definition fresh (clock : nat -> Z * Z) : world :=
  {| clock := clock; ticks := 0;
     context := {| isIntrospection := false |}; trace := [] |}.

(** Modelled from the spec: a request, as the missing engine serves it:
    its phases, run against the installed schema from a fresh context. *)
Definition run_request (plugin : Plugin) (schema : Schema)
    (clock : nat -> Z * Z) (ps : list phase) : completion unit * world :=
  run_phases plugin (install plugin schema) ps (fresh clock).

End UseTiming.

(* ===================================================================== *)
(** ** Observations on values and traces *)
(* ===================================================================== *)

(** The property a lookup of ["then"] finds on a value, if any. *)
Definition then_member (v : value) : option property :=
  match as_object v with
  | Some o => find_property "then" o
  | None => None
  end.

(** Reading the ["then"] member runs a getter that throws. *)
Definition then_probe_throws (v : value) : bool :=
  match then_member v with
  | Some (PGetterThrows _) => true
  | _ => false
  end.

Definition is_object_or_function (v : value) : bool :=
  match v with
  | VObject _ | VFunction _ | VPromise _ => true
  | _ => false
  end.

(** The classification in the words of the specification: an object or a
    function whose ["then"] member is a function. *)
Definition deferred (v : value) : bool :=
  is_object_or_function v
  && match then_member v with
     | Some (PData (VFunction _)) | Some (PGetterReturns (VFunction _)) => true
     | _ => false
     end.

(** The names of the resolver functions called, in order. *)
Fixpoint resolver_calls (tr : list event) : list string :=
  match tr with
  | [] => []
  | EvResolverCall fn :: rest => fn :: resolver_calls rest
  | _ :: rest => resolver_calls rest
  end.

(** The measurements a category's sink received, in order. *)
Fixpoint measurements (c : category) (tr : list event) : list ResultTiming :=
  match tr with
  | [] => []
  | EvMeasurement c' _ _ t :: rest =>
      if category_eqb c c' then t :: measurements c rest
      else measurements c rest
  | _ :: rest => measurements c rest
  end.

(** The event is a clock read, a sink call or a call of an undefined sink
    on behalf of category [c]. *)
Definition concerns (c : category) (e : event) : bool :=
  match e with
  | EvClock c' | EvMeasurement c' _ _ _ | EvUndefinedCall c' => category_eqb c c'
  | _ => false
  end.

Definition is_undefined_call (e : event) : bool :=
  match e with
  | EvUndefinedCall _ => true
  | _ => false
  end.

(** The hooks a plugin object registers on behalf of a category. *)
Definition is_some {A} (o : option A) : bool :=
  match o with Some _ => true | None => false end.

Definition registers (c : category) (p : Plugin) : bool :=
  match c with
  | ContextBuilding => is_some (onContextBuilding p)
  | Parsing => is_some (onParse p)
  | Validation => is_some (onValidate p)
  | Execution => is_some (onExecute p)
  | Subscription => is_some (onSubscribe p) || is_some (onSchemaChange p)
  | Resolver => is_some (onResolverCalled p) || is_some (onSchemaChange p)
  end.

(** Calling a field: its [resolve], or the default resolver. *)
Definition invoke (defaultFieldResolver : ResolverFn) (field : FieldConfig)
  : ResolverFn :=
  match resolve field with
  | Some fn => fn
  | None => defaultFieldResolver
  end.

(** The ways an [OnResolverCalledHook] can end without throwing and with
    its promise, if any, fulfilled: no after-hook or an after-hook, at once
    or through a promise; and it may have replaced the resolver. *)
Inductive AfterCase : Type :=
| NothingReturned
| HookReturned (name : string) (action : value -> HookAction)
| NothingDeferred
| HookDeferred (name : string) (action : value -> HookAction).

Definition after_of (c : AfterCase) : AfterReturn :=
  match c with
  | NothingReturned => AfterVoid
  | HookReturned name action => AfterHook (afterHook name action)
  | NothingDeferred => AfterPromise (Fulfilled None)
  | HookDeferred name action =>
      AfterPromise (Fulfilled (Some (afterHook name action)))
  end.

Record CalledAction : Type := {
  replaces : option (string * (ResolverArgs -> outcome));
  returns : AfterCase
}.

Definition onResolverCalledFrom (f : OnResolverCalledPayload -> CalledAction)
  : OnResolverCalledHook :=
  fun payload =>
    ret (match replaces (f payload) with
         | Some (name, behaviour) => Some (resolver name behaviour)
         | None => None
         end,
         after_of (returns (f payload))).

(** [m] calls exactly the resolver functions [names], in that order. *)
Definition calls {A} (names : list string) (m : M A) : Prop :=
  forall w,
    resolver_calls (trace (snd (m w))) = resolver_calls (trace w) ++ names.

(** [m] never throws. *)
Definition total {A} (m : M A) : Prop :=
  forall w, exists a w', m w = (Normal a, w').

(** A schema given by the names and behaviours of its resolvers. *)
Record FieldDescription : Type := {
  field_name : string;
  field_type : string;
  field_resolver : option (string * (ResolverArgs -> outcome))
}.

Definition field_of (d : FieldDescription) : string * FieldConfig :=
  (field_name d,
   {| fieldType := field_type d;
      resolve := match field_resolver d with
                 | Some (name, behaviour) => Some (resolver name behaviour)
                 | None => None
                 end |}).

Definition schema_of (ds : list FieldDescription) : Schema := map field_of ds.

(** A default resolver given by its behaviour. *)
Definition default_resolver (behaviour : ResolverArgs -> outcome) : ResolverFn :=
  resolver "defaultFieldResolver" behaviour.

(** The options with another [skipIntrospection]. *)
Definition with_skipIntrospection (flag : slot bool) (o : TimingPluginOptions)
  : TimingPluginOptions :=
  {| skipIntrospection := flag;
     onContextBuildingMeasurement := onContextBuildingMeasurement o;
     onExecutionMeasurement := onExecutionMeasurement o;
     onSubscriptionMeasurement := onSubscriptionMeasurement o;
     onParsingMeasurement := onParsingMeasurement o;
     onValidationMeasurement := onValidationMeasurement o;
     onResolverMeasurement := onResolverMeasurement o |}.

(** An event that is no business of category [c] and no call of an
    undefined sink. *)
Definition harmless (c : category) (e : event) : bool :=
  negb (concerns c e) && negb (is_undefined_call e).

(** The category a phase is measured under. *)
Definition phase_category (p : phase) : category :=
  match p with
  | ContextBuildingPhase => ContextBuilding
  | ParsePhase _ => Parsing
  | ValidatePhase _ => Validation
  | ExecutePhase _ _ _ => Execution
  | SubscribePhase _ _ _ => Subscription
  end.

(** The parse hook takes the operation for an introspection query and
    skips it. *)
Definition skipped (isIntrospectionOperationString : string -> bool)
    (options : TimingPluginOptions) (p : phase) : bool :=
  match p with
  | ParsePhase src =>
      truthy_flag (read (skipIntrospection options))
      && isIntrospectionOperationString src
  | _ => false
  end.

(** ** Invariants of a run

    [respects R Q m]: running [m] takes a world to one related to it by [R],
    and a normal result satisfies [Q]. *)
Definition respects (R : world -> world -> Prop) {A} (Q : A -> Prop)
    (m : M A) : Prop :=
  forall w,
    R w (snd (m w))
    /\ match fst (m w) with
       | Normal a => Q a
       | Abrupt _ => True
       end.

Definition any {A} : A -> Prop := fun _ => True.

Definition good_after (R : world -> world -> Prop) (o : option AfterPhase)
  : Prop :=
  match o with
  | Some done => respects R any done
  | None => True
  end.

Definition good_hook (R : world -> world -> Prop) (h : AfterResolverHook)
  : Prop :=
  forall v, respects R any (h v).

Definition good_resolver (R : world -> world -> Prop) (g : ResolverFn) : Prop :=
  forall a, respects R any (g a).

Definition good_return (R : world -> world -> Prop) (after : AfterReturn)
  : Prop :=
  match after with
  | AfterHook h | AfterPromise (Fulfilled (Some h)) => good_hook R h
  | _ => True
  end.

Definition good_called (R : world -> world -> Prop)
    (r : option ResolverFn * AfterReturn) : Prop :=
  match fst r with
  | Some g => good_resolver R g
  | None => True
  end
  /\ good_return R (snd r).

Definition good_onResolverCalled (R : world -> world -> Prop)
    (h : OnResolverCalledHook) : Prop :=
  forall payload,
    good_resolver R (resolverFn payload) ->
    respects R (good_called R) (h payload).

Definition good_field (R : world -> world -> Prop) (field : FieldConfig)
  : Prop :=
  match resolve field with
  | Some g => good_resolver R g
  | None => True
  end.

Definition good_schema (R : world -> world -> Prop) (schema : Schema) : Prop :=
  Forall (fun entry => good_field R (snd entry)) schema.

Record good_plugin (R : world -> world -> Prop)
    (defaultFieldResolver : ResolverFn) (p : Plugin) : Prop := {
  good_onContextBuilding :
    forall h, onContextBuilding p = Some h ->
    forall c, respects R (good_after R) (h c);
  good_onParse :
    forall h, onParse p = Some h ->
    forall payload, (forall x, respects R any (extend payload x)) ->
    respects R (good_after R) (h payload);
  good_onValidate :
    forall h, onValidate p = Some h ->
    forall payload, respects R (good_after R) (h payload);
  good_onExecute :
    forall h, onExecute p = Some h ->
    forall a, respects R (good_after R) (h a);
  good_onSubscribe :
    forall h, onSubscribe p = Some h ->
    forall a, respects R (good_after R) (h a);
  good_onSchemaChange :
    forall h, onSchemaChange p = Some h ->
    forall schema, good_resolver R defaultFieldResolver ->
    good_schema R schema -> good_schema R (h schema);
  good_onResolverCalledHook :
    forall h, onResolverCalled p = Some h -> good_onResolverCalled R h
}.

(** The events a category gives rise to are acceptable to [okev]. *)
Definition ok_category (okev : event -> Prop) (c : category) : Prop :=
  okev (EvClock c)
  /\ forall sink subject timing, okev (EvMeasurement c sink subject timing).

(** The trace grows by events that satisfy [P]. *)
Definition grows_by (P : event -> bool) (w w' : world) : Prop :=
  exists evs, trace w' = trace w ++ evs /\ forallb P evs = true.

(** The request context is left as it is. *)
Definition same_context (w w' : world) : Prop := context w' = context w.

(** ** Further observations *)

(** A clock reading [sec, nsec] as nanoseconds. *)
Definition absolute (t : Z * Z) : Z :=
  fst t * NANOSECONDS_PER_SECOND + snd t.

(** The arguments the after-hooks supplied from outside were called with,
    in order. *)
Fixpoint hook_calls (tr : list event) : list value :=
  match tr with
  | [] => []
  | EvAfterHook _ arg :: rest => arg :: hook_calls rest
  | _ :: rest => hook_calls rest
  end.

(** The resolver returns a thenable that is not a native promise: an
    object or function whose [then] member is a function of its own.  What
    such a [then] does with the continuations it is given is foreign code. *)
Definition foreign_thenable (o : outcome) : bool :=
  match o with
  | Throws _ | Returns (VPromise _) => false
  | Returns v => deferred v
  end.

(** What a call evaluates to when it is handed a value that is no native
    promise and no foreign thenable and classifies it with [isThenable]:
    what the getter of [then] throws, if it throws, and [undefined]. *)
Definition immediate_result (v : value) : completion value :=
  match then_member v with
  | Some (PGetterThrows e) => Abrupt e
  | _ => Normal VUndefined
  end.

(** What [resolveField] hands to the after-hook: the error thrown, or what
    the returned promise settles to; nothing for a value that is no promise
    and for a promise that never settles. *)
Definition hook_arguments (o : outcome) : list value :=
  match o with
  | Throws e => [e]
  | Returns (VPromise (Fulfilled v)) => [v]
  | Returns (VPromise (Rejected e)) => [e]
  | Returns _ => []
  end.

(** The category has a sink in the options. *)
Definition enabled (c : category) (options : TimingPluginOptions) : bool :=
  truthy_sink (read (sink_slot c options)).

(** A marker that is set stays set. *)
Definition marker_kept (w w' : world) : Prop :=
  isIntrospection (context w) = true -> isIntrospection (context w') = true.

(** ** Observations on numbers *)

(** [0 <= f], as JavaScript compares numbers: false of [NaN]. *)
Definition nonnegative (f : spec_float) : bool := SFleb (S754_zero false) f.

(** A number that is neither negative nor infinite nor [NaN]. *)
Definition finite_nonnegative (f : spec_float) : bool :=
  match f with
  | S754_zero _ | S754_finite false _ _ => true
  | _ => false
  end.

(** The rational number a finite double stands for. *)
Definition number_value (f : spec_float) : option Q :=
  match f with
  | S754_zero _ => Some 0%Q
  | S754_finite s m e =>
      Some match e with
           | Zneg p => Qmake (cond_Zopp s (Zpos m)) (2 ^ p)
           | _ => inject_Z (cond_Zopp s (Zpos m) * 2 ^ e)
           end
  | _ => None
  end.

(** [n * 2 ^ k] on positive numbers, for [k >= 0]. *)
Definition pshift (n : positive) (k : Z) : positive :=
  match k with
  | Zpos d => Pos.iter xO n d
  | _ => n
  end.

(** The number of binary digits of [n]. *)
Definition digits (n : positive) : Z := Zpos (digits2_pos n).

(** The double with the value [n * 2 ^ e], for [n] of at most 53 digits:
    the mantissa is [n] shifted to 53 digits. *)
Definition normal (s : bool) (n : positive) (e : Z) : spec_float :=
  S754_finite s (pshift n (53 - digits n)) (e - (53 - digits n)).

(** The sink returns, whatever it is called with. *)
Definition quiet (f : Sink) : Prop :=
  forall subject timing, sink_raises f subject timing = None.

(** A sink that always returns, and one that always throws [e]. *)
Definition returning_sink (name : string) : Sink :=
  {| sink_name := name; sink_raises := fun _ _ => None |}.

Definition throwing_sink (name : string) (e : value) : Sink :=
  {| sink_name := name; sink_raises := fun _ _ => Some e |}.

(* ===================================================================== *)
(** * Properties *)
(* ===================================================================== *)

(** ** isThenable *)

Lemma isThenable_primitive (v : value) :
  as_object v = None -> isThenable v = Normal false.
Proof.
  destruct v; intros H; try discriminate H;
    unfold isThenable; simpl; rewrite ?andb_false_r; reflexivity.
Qed.

Lemma isThenable_object (v : value) (o : object) :
  as_object v = Some o ->
  isThenable v =
    match find_property "then" o with
    | None => Normal false
    | Some (PData x) | Some (PGetterReturns x) =>
        Normal (typeof x =? "function")%string
    | Some (PGetterThrows e) => Abrupt e
    end.
Proof.
  intros H.
  assert (G : (to_boolean v && (typeof v =? "object")%string
               || (typeof v =? "function")%string) = true)
    by (destruct v; simpl in H; try discriminate; reflexivity).
  unfold isThenable, has_property, get_property.
  rewrite G, H.
  destruct (find_property "then" o) as [[x | x | e] |]; reflexivity.
Qed.

Lemma typeof_function (x : value) :
  (typeof x =? "function")%string = true <-> exists o, x = VFunction o.
Proof.
  split.
  - destruct x; simpl; intros H; try discriminate. eauto.
  - intros [o ->]. reflexivity.
Qed.

(** C7, as the code has it.  For every value whose ["then"] member can be
    read without a getter throwing, [isThenable] returns normally, and its
    answer is [true] exactly when the value is an object or a function whose
    ["then"] member is a function; [null], [undefined] and the primitives
    are classified as not deferred. *)
Theorem isThenable_classifies (v : value) :
  then_probe_throws v = false ->
  isThenable v = Normal (deferred v)
  /\ (as_object v = None -> isThenable v = Normal false).
Proof.
  intros Hprobe. split; [| apply isThenable_primitive].
  unfold deferred, then_probe_throws, then_member in *.
  destruct (as_object v) as [o |] eqn:Ho.
  - rewrite (isThenable_object v o Ho).
    assert (Hobj : is_object_or_function v = true)
      by (destruct v; simpl in Ho; try discriminate; reflexivity).
    rewrite Hobj. simpl.
    destruct (find_property "then" o) as [[x | x | e] |];
      try discriminate; try reflexivity; destruct x; reflexivity.
  - rewrite (isThenable_primitive v Ho).
    rewrite andb_false_r. reflexivity.
Qed.

Lemma isThenable_classifies_witness :
  then_probe_throws (VPromise Pending) = false
  /\ isThenable (VPromise Pending) = Normal (deferred (VPromise Pending))
  /\ (as_object (VPromise Pending) = None ->
      isThenable (VPromise Pending) = Normal false).
Proof.
  split; [reflexivity |].
  apply (isThenable_classifies (VPromise Pending)). reflexivity.
Defined.

(** C7, as stated, fails: on an object whose ["then"] is an accessor with a
    throwing getter, [isThenable] throws what the getter throws. *)
Lemma isThenable_throws_on_throwing_getter :
  let probe := VObject (Obj [("then", PGetterThrows (VString "probe"))] None) in
  isThenable probe = Abrupt (VString "probe")
  /\ ~ (exists b, isThenable probe = Normal b).
Proof.
  simpl. split; [reflexivity |].
  intros [b H]. discriminate H.
Qed.

(** When reading the ["then"] member runs a throwing getter, the
    classification throws. *)
Lemma isThenable_probe_throws (v : value) :
  then_probe_throws v = true -> exists e, isThenable v = Abrupt e.
Proof.
  unfold then_probe_throws, then_member.
  destruct (as_object v) as [o |] eqn:Ho; [| discriminate].
  rewrite (isThenable_object v o Ho).
  destruct (find_property "then" o) as [[x | x | e] |]; try discriminate.
  intros _. eauto.
Qed.

(** The tests [!after] and [isThenable(after)] of [wrapResolver] tell the
    three forms of an [AfterReturn] apart. *)
Lemma after_shape_tests (after : AfterReturn) :
  (to_boolean (after_shape after) = false <-> after = AfterVoid)
  /\ (isThenable (after_shape after) = Normal true
      <-> exists p, after = AfterPromise p).
Proof.
  destruct after as [| hook | p]; simpl; repeat split;
    try discriminate; try reflexivity; eauto;
    intros [q H]; discriminate H.
Qed.

(** ** Numbers *)

Lemma digits_pos (n : positive) : 1 <= digits n.
Proof. unfold digits. lia. Qed.

Lemma digits2_iter (n d : positive) :
  digits2_pos (Pos.iter xO n d) = (digits2_pos n + d)%positive.
Proof.
  induction d as [| d IH] using Pos.peano_ind.
  - simpl. lia.
  - rewrite Pos.iter_succ. simpl. rewrite IH. lia.
Qed.

Lemma digits_pshift (n : positive) (k : Z) :
  0 <= k -> digits (pshift n k) = digits n + k.
Proof.
  intros H. unfold digits, pshift. destruct k as [| d | d]; try lia.
  rewrite digits2_iter. lia.
Qed.

Lemma pshift_pshift (n : positive) (a b : Z) :
  0 <= a -> 0 <= b -> pshift (pshift n a) b = pshift n (a + b).
Proof.
  intros Ha Hb. destruct a as [| a | a], b as [| b | b]; simpl; try lia;
    try reflexivity.
  rewrite Pos.add_comm. symmetry. apply Pos.iter_add.
Qed.

Lemma pshift_value (n : positive) (k : Z) :
  0 <= k -> Zpos (pshift n k) = Zpos n * 2 ^ k.
Proof.
  intros H. destruct k as [| d | d]; simpl pshift; try lia.
  change (Pos.iter xO n d) with (shift_pos d n).
  rewrite shift_pos_correct, Z.pow_pos_fold. lia.
Qed.

Lemma digits_lower (n : positive) : 2 ^ (digits n - 1) <= Zpos n.
Proof.
  unfold digits. induction n as [n IH | n IH |]; simpl digits2_pos.
  - rewrite Pos2Z.inj_succ.
    replace (Z.succ (Zpos (digits2_pos n)) - 1) with
      (Z.succ (Zpos (digits2_pos n) - 1)) by lia.
    rewrite Z.pow_succ_r by lia. lia.
  - rewrite Pos2Z.inj_succ.
    replace (Z.succ (Zpos (digits2_pos n)) - 1) with
      (Z.succ (Zpos (digits2_pos n) - 1)) by lia.
    rewrite Z.pow_succ_r by lia. lia.
  - reflexivity.
Qed.

Lemma digits_strict (n : positive) : Zpos n < 2 ^ digits n.
Proof.
  unfold digits. induction n as [n IH | n IH |]; simpl digits2_pos.
  - rewrite Pos2Z.inj_succ, Z.pow_succ_r by lia. lia.
  - rewrite Pos2Z.inj_succ, Z.pow_succ_r by lia. lia.
  - reflexivity.
Qed.

Lemma digits_upper (n : positive) (k : Z) :
  0 <= k -> Zpos n < 2 ^ k -> digits n <= k.
Proof.
  intros Hk H. pose proof (digits_lower n) as Hl.
  destruct (Z_lt_le_dec k (digits n)) as [Hlt |]; [| assumption].
  assert (2 ^ k <= 2 ^ (digits n - 1)) by (apply Z.pow_le_mono_r; lia).
  lia.
Qed.

Lemma digits_ge (n : positive) (k : Z) :
  0 <= k -> 2 ^ k <= Zpos n -> k + 1 <= digits n.
Proof.
  intros Hk H. pose proof (digits_strict n) as Hs.
  destruct (Z_lt_le_dec (digits n) (k + 1)) as [Hlt |]; [| assumption].
  assert (2 ^ digits n <= 2 ^ k)
    by (apply Z.pow_le_mono_r; [lia | pose proof (digits_pos n); lia]).
  lia.
Qed.

(** Shifting right. *)

Lemma iter_pos_iter {A} (f : A -> A) (n : positive) (x : A) :
  iter_pos f n x = Pos.iter f x n.
Proof.
  revert x. induction n as [n IH | n IH |]; intros x; simpl.
  - rewrite !IH, !Pos.iter_swap. reflexivity.
  - rewrite !IH. reflexivity.
  - reflexivity.
Qed.

Lemma shr_exact (q k : positive) :
  iter_pos shr_1 k
    {| shr_m := Zpos (Pos.iter xO q k); shr_r := false; shr_s := false |}
  = {| shr_m := Zpos q; shr_r := false; shr_s := false |}.
Proof.
  rewrite iter_pos_iter.
  induction k as [| k IH] using Pos.peano_ind.
  - reflexivity.
  - rewrite Pos.iter_succ_r, (Pos.iter_succ k). exact IH.
Qed.

Lemma fexp_normal (x : Z) : -1021 <= x -> fexp prec emax x = x - 53.
Proof. unfold fexp, SpecFloat.emin, prec, emax. lia. Qed.

Lemma shr_fexp_exact (n : positive) (j e : Z) :
  digits n <= 53 -> 53 - digits n <= j ->
  -1021 <= digits n + j + e ->
  shr_fexp prec emax (Zpos (pshift n j)) e loc_Exact
  = ({| shr_m := Zpos (pshift n (53 - digits n));
        shr_r := false; shr_s := false |},
     e + j - (53 - digits n)).
Proof.
  intros Hn Hd He. pose proof (digits_pos n) as Hpos.
  assert (Hj : 0 <= j) by lia.
  unfold shr_fexp, shr_record_of_loc, Zdigits2.
  change (Zpos (digits2_pos (pshift n j))) with (digits (pshift n j)).
  rewrite (digits_pshift n j Hj), fexp_normal by lia.
  replace (digits n + j + e - 53 - e) with (j - (53 - digits n)) by lia.
  destruct (j - (53 - digits n)) as [| k | k] eqn:Ek; unfold shr.
  - replace j with (53 - digits n) by lia.
    f_equal. lia.
  - assert (Hsplit : pshift n j = Pos.iter xO (pshift n (53 - digits n)) k).
    { change (Pos.iter xO (pshift n (53 - digits n)) k)
        with (pshift (pshift n (53 - digits n)) (Zpos k)).
      rewrite pshift_pshift by lia. f_equal. lia. }
    rewrite Hsplit, shr_exact. f_equal. lia.
  - lia.
Qed.

Lemma pshift_zero (n : positive) : pshift n 0 = n.
Proof. reflexivity. Qed.

Lemma pshift_neg (n : positive) (k : Z) : k <= 0 -> pshift n k = n.
Proof. destruct k; try reflexivity. lia. Qed.

Lemma round_aux_exact (s : bool) (n : positive) (j e : Z) :
  digits n <= 53 -> 53 - digits n <= j ->
  -1021 <= digits n + j + e ->
  e + j - (53 - digits n) <= 971 ->
  binary_round_aux prec emax s (Zpos (pshift n j)) e loc_Exact
  = S754_finite s (pshift n (53 - digits n)) (e + j - (53 - digits n)).
Proof.
  intros Hn Hj Hlow Hhigh. pose proof (digits_pos n) as Hpos.
  unfold binary_round_aux.
  rewrite shr_fexp_exact by assumption.
  cbn [shr_m loc_of_shr_record round_nearest_even].
  set (m := pshift n (53 - digits n)).
  assert (Hm : digits m = 53)
    by (unfold m; rewrite digits_pshift by lia; lia).
  rewrite <- (pshift_zero m) at 1.
  rewrite shr_fexp_exact by (rewrite Hm; lia).
  rewrite Hm. cbn [shr_m]. change (pshift m (53 - 53)) with m.
  replace (e + j - (53 - digits n) + 0 - (53 - 53))
    with (e + j - (53 - digits n)) by lia.
  destruct (Z.leb_spec (e + j - (53 - digits n)) (emax - prec)) as [_ | Hgt].
  - reflexivity.
  - unfold emax, prec in Hgt. lia.
Qed.

Lemma binary_round_exact (s : bool) (n : positive) (j e : Z) :
  0 <= j -> digits n <= 53 ->
  -1021 <= digits n + j + e ->
  e + j - (53 - digits n) <= 971 ->
  binary_round prec emax s (pshift n j) e
  = S754_finite s (pshift n (53 - digits n)) (e + j - (53 - digits n)).
Proof.
  intros Hj Hn Hlow Hhigh. pose proof (digits_pos n) as Hpos.
  unfold binary_round, shl_align.
  change (Zpos (digits2_pos (pshift n j))) with (digits (pshift n j)).
  rewrite digits_pshift, fexp_normal by lia.
  destruct (digits n + j + e - 53 - e) as [| d | d] eqn:Ed.
  - apply round_aux_exact; lia.
  - apply round_aux_exact; lia.
  - change (Pos.iter xO (pshift n j) d) with (pshift (pshift n j) (Zpos d)).
    rewrite pshift_pshift by lia.
    replace (digits n + j + e - 53) with (e - Zpos d) by lia.
    rewrite round_aux_exact by lia.
    f_equal. lia.
Qed.

Lemma of_integer_zero : of_integer 0 = S754_zero false.
Proof. reflexivity. Qed.

Lemma of_integer_pos (n : positive) :
  Zpos n < 2 ^ 53 -> of_integer (Zpos n) = normal false n 0.
Proof.
  intros Hn. unfold of_integer, binary_normalize, normal.
  pose proof (digits_pos n) as Hpos.
  assert (Hd : digits n <= 53) by (apply digits_upper; [lia | assumption]).
  rewrite <- (pshift_zero n) at 1.
  rewrite binary_round_exact by lia.
  f_equal; lia.
Qed.

Lemma pshift_mul (a b : positive) (j k : Z) :
  0 <= j -> 0 <= k ->
  (pshift a j * pshift b k)%positive = pshift (a * b) (j + k).
Proof.
  intros Hj Hk. apply Pos2Z.inj.
  rewrite Pos2Z.inj_mul, !pshift_value, Pos2Z.inj_mul, Z.pow_add_r by lia.
  ring.
Qed.

Lemma digits_small (n : positive) : Zpos n < 2 ^ 53 -> digits n <= 53.
Proof. intros H. apply digits_upper; [lia | assumption]. Qed.

Lemma normal_mul (a b : positive) :
  Zpos a < 2 ^ 53 -> Zpos b < 2 ^ 53 -> Zpos (a * b) < 2 ^ 53 ->
  SFmul prec emax (normal false a 0) (normal false b 0)
  = normal false (a * b) 0.
Proof.
  intros Ha Hb Hab.
  pose proof (digits_small a Ha). pose proof (digits_small b Hb).
  pose proof (digits_small _ Hab).
  pose proof (digits_pos a). pose proof (digits_pos b).
  pose proof (digits_pos (a * b)).
  unfold normal at 1 2. cbn [SFmul xorb].
  rewrite pshift_mul by lia.
  assert (Hprod : digits a + digits b - 1 <= digits (a * b)).
  { pose proof (digits_lower a). pose proof (digits_lower b).
    enough (digits a - 1 + (digits b - 1) + 1 <= digits (a * b)) by lia.
    apply digits_ge; [lia |].
    rewrite Z.pow_add_r, Pos2Z.inj_mul by lia.
    apply Z.mul_le_mono_nonneg; try assumption;
      apply Z.pow_nonneg; lia. }
  rewrite round_aux_exact by lia.
  unfold normal. f_equal. lia.
Qed.

Lemma of_integer_mul (a b : Z) :
  0 <= a < 2 ^ 53 -> 0 <= b < 2 ^ 53 -> a * b < 2 ^ 53 ->
  SFmul prec emax (of_integer a) (of_integer b) = of_integer (a * b).
Proof.
  intros Ha Hb Hab.
  destruct a as [| a | a]; [| | lia]; destruct b as [| b | b]; try lia.
  - reflexivity.
  - rewrite (of_integer_pos b) by lia. reflexivity.
  - rewrite (of_integer_pos a) by lia. reflexivity.
  - change (Zpos a * Zpos b) with (Zpos (a * b)) in *.
    rewrite !of_integer_pos by lia. apply normal_mul; lia.
Qed.

Lemma shl_align_down (n : positive) (j e e' : Z) :
  0 <= j -> e' <= e ->
  fst (shl_align (pshift n j) e e') = pshift n (j + (e - e')).
Proof.
  intros Hj He. unfold shl_align.
  destruct (e' - e) as [| d | d] eqn:Ed; cbn [fst].
  - f_equal. lia.
  - lia.
  - change (Pos.iter xO (pshift n j) d) with (pshift (pshift n j) (Zpos d)).
    rewrite pshift_pshift by lia. f_equal. lia.
Qed.

Lemma pshift_add (a b : positive) (k : Z) :
  0 <= k -> (pshift a k + pshift b k)%positive = pshift (a + b) k.
Proof.
  intros Hk. apply Pos2Z.inj.
  rewrite Pos2Z.inj_add, !pshift_value, Pos2Z.inj_add by lia. ring.
Qed.

Lemma normal_add (a b : positive) :
  Zpos a < 2 ^ 53 -> Zpos b < 2 ^ 53 -> Zpos (a + b) < 2 ^ 53 ->
  SFadd prec emax (normal false a 0) (normal false b 0)
  = normal false (a + b) 0.
Proof.
  intros Ha Hb Hab.
  pose proof (digits_small a Ha). pose proof (digits_small b Hb).
  pose proof (digits_small _ Hab).
  pose proof (digits_pos a). pose proof (digits_pos b).
  pose proof (digits_pos (a + b)).
  unfold normal at 1 2. cbn [SFadd cond_Zopp].
  set (ez := Z.min (0 - (53 - digits a)) (0 - (53 - digits b))).
  rewrite !shl_align_down by lia.
  replace (53 - digits a + (0 - (53 - digits a) - ez)) with (- ez) by lia.
  replace (53 - digits b + (0 - (53 - digits b) - ez)) with (- ez) by lia.
  change (Zpos (pshift a (- ez)) + Zpos (pshift b (- ez)))
    with (Zpos (pshift a (- ez) + pshift b (- ez))).
  rewrite pshift_add by lia.
  unfold binary_normalize.
  assert (Hsum : digits a <= digits (a + b) /\ digits b <= digits (a + b)).
  { pose proof (digits_lower a). pose proof (digits_lower b).
    split.
    - pose proof (digits_ge (a + b) (digits a - 1)). lia.
    - pose proof (digits_ge (a + b) (digits b - 1)). lia. }
  rewrite binary_round_exact by lia.
  unfold normal. f_equal. lia.
Qed.

Lemma of_integer_add (a b : Z) :
  0 <= a -> 0 <= b -> a + b < 2 ^ 53 ->
  SFadd prec emax (of_integer a) (of_integer b) = of_integer (a + b).
Proof.
  intros Ha Hb Hab.
  destruct a as [| a | a]; [| | lia]; destruct b as [| b | b]; try lia.
  - reflexivity.
  - cbn [Z.add] in *. rewrite (of_integer_pos b) by lia. reflexivity.
  - cbn [Z.add] in *. rewrite (of_integer_pos a) by lia. reflexivity.
  - change (Zpos a + Zpos b) with (Zpos (a + b)) in *.
    rewrite !of_integer_pos by lia. apply normal_add; lia.
Qed.

Lemma nonnegative_unsigned (f : spec_float) :
  match f with
  | S754_zero _ => True
  | S754_infinity s | S754_finite s _ _ => s = false
  | S754_nan => False
  end -> nonnegative f = true.
Proof.
  destruct f as [s | s | | s m e]; simpl; try tauto;
    intros ->; reflexivity.
Qed.

Lemma shr_1_nonneg (mrs : shr_record) :
  0 <= shr_m mrs -> 0 <= shr_m (shr_1 mrs).
Proof.
  destruct mrs as [m r s]. simpl.
  destruct m as [| [p | p |] | [p | p |]]; simpl; lia.
Qed.

Lemma iter_shr_1_nonneg (k : positive) (mrs : shr_record) :
  0 <= shr_m mrs -> 0 <= shr_m (iter_pos shr_1 k mrs).
Proof.
  rewrite iter_pos_iter. revert mrs.
  induction k as [| k IH] using Pos.peano_ind; intros mrs H.
  - apply shr_1_nonneg, H.
  - rewrite Pos.iter_succ. apply shr_1_nonneg, IH, H.
Qed.

Lemma shr_fexp_nonneg (m e : Z) (l : location) :
  0 <= m -> 0 <= shr_m (fst (shr_fexp prec emax m e l)).
Proof.
  intros H. unfold shr_fexp, shr.
  assert (H0 : 0 <= shr_m (shr_record_of_loc m l))
    by (destruct l as [| []]; exact H).
  destruct (fexp prec emax (Zdigits2 m + e) - e); cbn [fst];
    try exact H0.
  apply iter_shr_1_nonneg, H0.
Qed.

Lemma round_nearest_even_nonneg (m : Z) (l : location) :
  0 <= m -> 0 <= round_nearest_even m l.
Proof.
  intros H. destruct l as [| []]; simpl; try lia.
  destruct (Z.even m); lia.
Qed.

Lemma round_aux_nonneg (m e : Z) (l : location) :
  0 <= m -> nonnegative (binary_round_aux prec emax false m e l) = true.
Proof.
  intros H. unfold binary_round_aux.
  pose proof (shr_fexp_nonneg m e l H) as H1.
  destruct (shr_fexp prec emax m e l) as [mrs' e'].
  cbn [fst] in H1.
  pose proof (shr_fexp_nonneg _ e' loc_Exact
                (round_nearest_even_nonneg _ (loc_of_shr_record mrs') H1)) as H2.
  destruct (shr_fexp prec emax _ e' loc_Exact) as [mrs'' e''].
  cbn [fst] in H2.
  destruct (shr_m mrs'') as [| p | p]; try lia.
  - reflexivity.
  - destruct (e'' <=? emax - prec); reflexivity.
Qed.

Lemma binary_round_nonneg (m : positive) (e : Z) :
  nonnegative (binary_round prec emax false m e) = true.
Proof.
  unfold binary_round.
  destruct (shl_align m e _) as [mz ez].
  apply round_aux_nonneg. lia.
Qed.

Lemma of_integer_nonneg (z : Z) : 0 <= z -> nonnegative (of_integer z) = true.
Proof.
  intros H. destruct z as [| p | p]; try lia.
  - reflexivity.
  - apply binary_round_nonneg.
Qed.

Lemma nonnegative_inv (f : spec_float) :
  nonnegative f = true ->
  match f with
  | S754_zero _ => True
  | S754_infinity s | S754_finite s _ _ => s = false
  | S754_nan => False
  end.
Proof.
  destruct f as [s | [] | | [] m e]; simpl; try tauto; try discriminate;
    reflexivity.
Qed.

Lemma SFmul_nonneg (x y : spec_float) :
  nonnegative x = true -> finite_nonnegative y = true ->
  match y with S754_finite _ _ _ => True | _ => False end ->
  nonnegative (SFmul prec emax x y) = true.
Proof.
  intros Hx Hy Hfin. apply nonnegative_inv in Hx.
  destruct y as [sy | sy | | sy my ey]; try contradiction.
  destruct sy; [discriminate |].
  destruct x as [sx | sx | | sx mx ex]; try contradiction.
  - destruct sx; reflexivity.
  - subst sx. reflexivity.
  - subst sx. cbn [SFmul xorb]. apply round_aux_nonneg. lia.
Qed.

Lemma SFadd_nonneg (x y : spec_float) :
  nonnegative x = true -> nonnegative y = true ->
  nonnegative (SFadd prec emax x y) = true.
Proof.
  intros Hx Hy.
  pose proof (nonnegative_inv x Hx) as Ix.
  pose proof (nonnegative_inv y Hy) as Iy.
  destruct x as [sx | sx | | sx mx ex]; try contradiction;
    destruct y as [sy | sy | | sy my ey]; try contradiction;
    subst; cbn [SFadd]; try assumption.
  - destruct sx, sy; reflexivity.
  - cbn [cond_Zopp].
    match goal with
    | |- context [Z.pos ?a + Z.pos ?b] =>
        change (Z.pos a + Z.pos b) with (Z.pos (a + b))
    end.
    apply binary_round_nonneg.
Qed.

Lemma div_core_nonneg (m1 m2 : positive) (e1 e2 : Z) :
  0 <= fst (fst (SFdiv_core_binary prec emax (Zpos m1) e1 (Zpos m2) e2)).
Proof.
  unfold SFdiv_core_binary.
  set (e' := Z.min _ _). set (s := e1 - e2 - e').
  set (m' := match s with
             | 0 => Z.pos m1
             | Z.pos _ => Z.shiftl (Z.pos m1) s
             | Z.neg _ => 0
             end).
  assert (Hm : 0 <= m').
  { unfold m'. destruct s; try lia. apply Z.shiftl_nonneg. lia. }
  pose proof (Z_div_mod m' (Zpos m2) eq_refl) as Hdiv.
  destruct (Z.div_eucl m' (Z.pos m2)) as [q r]. cbn [fst].
  nia.
Qed.

Lemma SFdiv_nonneg (x y : spec_float) :
  nonnegative x = true -> finite_nonnegative y = true ->
  match y with S754_finite _ _ _ => True | _ => False end ->
  nonnegative (SFdiv prec emax x y) = true.
Proof.
  intros Hx Hy Hfin. apply nonnegative_inv in Hx.
  destruct y as [sy | sy | | sy my ey]; try contradiction.
  destruct sy; [discriminate |].
  destruct x as [sx | sx | | sx mx ex]; try contradiction.
  - destruct sx; reflexivity.
  - subst sx. reflexivity.
  - subst sx. cbn [SFdiv xorb].
    pose proof (div_core_nonneg mx my ex ey) as Hq.
    destruct (SFdiv_core_binary prec emax (Z.pos mx) ex (Z.pos my) ey)
      as [[q e'] l].
    apply round_aux_nonneg. exact Hq.
Qed.

(** Rounding a quotient. *)

Lemma new_location_spec (d r : Z) :
  0 < d -> 0 <= r < d ->
  new_location d r
  = if r =? 0 then loc_Exact else loc_Inexact (2 * r ?= d).
Proof.
  intros Hd Hr. unfold new_location, new_location_even, new_location_odd.
  destruct (Z.even d) eqn:E; destruct (r =? 0); try reflexivity.
  f_equal.
  assert (Hodd : Z.odd d = true) by (rewrite <- Z.negb_even, E; reflexivity).
  apply Z.odd_spec in Hodd. destruct Hodd as [c Hc].
  destruct (Z.compare_spec (2 * r + 1) d), (Z.compare_spec (2 * r) d);
    try reflexivity; lia.
Qed.

Lemma digits_53_54 (p : positive) :
  2 ^ 52 <= Zpos p < 2 ^ 54 -> digits p = 53 \/ digits p = 54.
Proof.
  intros [Hl Hu].
  pose proof (digits_ge p 52 ltac:(lia) Hl).
  pose proof (digits_upper p 54 ltac:(lia) Hu). lia.
Qed.

Lemma first_pass (p : positive) (e d r : Z) :
  2 ^ 52 <= Zpos p < 2 ^ 54 -> 0 < d -> 0 <= r < d -> -1074 <= e ->
  exists (k m1 : Z) (mrs : shr_record),
    shr_fexp prec emax (Zpos p) e (new_location d r) = (mrs, e + k)
    /\ m1 = round_nearest_even (shr_m mrs) (loc_of_shr_record mrs)
    /\ 0 <= k <= 1
    /\ 2 ^ 52 <= m1 <= 2 ^ 53
    /\ 2 * Z.abs (m1 * 2 ^ k * d - (Zpos p * d + r)) <= 2 ^ k * d
    /\ 2 ^ (52 + k) <= Zpos p.
Proof.
  intros Hp Hd Hr He.
  rewrite new_location_spec by assumption.
  unfold shr_fexp, Zdigits2.
  change (Zpos (digits2_pos p)) with (digits p).
  destruct (digits_53_54 p Hp) as [D | D]; rewrite D, fexp_normal by lia.
  - (* 53 digits: nothing is shifted out *)
    assert (Hlt : Zpos p < 2 ^ 53).
    { pose proof (digits_strict p) as Hs. rewrite D in Hs. exact Hs. }
    replace (53 + e - 53 - e) with 0 by lia. cbn [shr].
    exists 0. eexists. eexists. split; [f_equal; lia |].
    split; [reflexivity |].
    destruct (Z.eqb_spec r 0) as [-> | Hr0].
    + cbn [shr_record_of_loc shr_m loc_of_shr_record round_nearest_even].
      change (2 ^ 0) with 1. change (2 ^ (52 + 0)) with (2 ^ 52). lia.
    + destruct (Z.compare_spec (2 * r) d) as [Heq | Hlt2 | Hgt];
        cbn [shr_record_of_loc shr_m loc_of_shr_record round_nearest_even];
        change (2 ^ 0) with 1; change (2 ^ (52 + 0)) with (2 ^ 52);
        try destruct (Z.even (Zpos p)); lia.
  - (* 54 digits: the last bit is shifted out *)
    assert (Hge : 2 ^ 53 <= Zpos p).
    { pose proof (digits_lower p) as Hs. rewrite D in Hs. exact Hs. }
    replace (54 + e - 53 - e) with 1 by lia. cbn [shr iter_pos].
    exists 1. eexists. eexists. split; [reflexivity |].
    split; [reflexivity |].
    change (2 ^ 1) with 2. change (2 ^ (52 + 1)) with (2 ^ 53).
    change (2 ^ 53) with (2 * 2 ^ 52) in *.
    change (2 ^ 54) with (2 * (2 * 2 ^ 52)) in *.
    destruct (Z.eqb_spec r 0) as [-> | Hr0].
    + destruct p as [p' | p' |];
        cbn [shr_record_of_loc shr_1 orb shr_m loc_of_shr_record
             round_nearest_even];
        try destruct (Z.even (Zpos p')); lia.
    + destruct (Z.compare_spec (2 * r) d) as [Heq | Hlt2 | Hgt];
        destruct p as [p' | p' |];
        cbn [shr_record_of_loc shr_1 orb shr_m loc_of_shr_record
             round_nearest_even];
        try destruct (Z.even (Zpos p')); lia.
Qed.

Lemma second_pass (m1 e1 : Z) :
  2 ^ 52 <= m1 <= 2 ^ 53 -> -1074 <= e1 ->
  exists (m : positive) (k : Z),
    shr_fexp prec emax m1 e1 loc_Exact
    = ({| shr_m := Zpos m; shr_r := false; shr_s := false |}, e1 + k)
    /\ 0 <= k <= 1 /\ Zpos m * 2 ^ k = m1.
Proof.
  intros Hm He.
  destruct (Z.eq_dec m1 (2 ^ 53)) as [-> | Hne].
  - exists (pshift 1 52), 1.
    change (2 ^ 53) with (Zpos (pshift 1 53)) at 1.
    rewrite shr_fexp_exact by (change (digits 1) with 1; lia).
    change (digits 1) with 1.
    split; [| split; [lia | reflexivity]].
    f_equal. lia.
  - destruct m1 as [| p | p]; try lia.
    exists p, 0.
    assert (Hd : digits p = 53).
    { pose proof (digits_ge p 52 ltac:(lia) ltac:(lia)).
      pose proof (digits_upper p 53 ltac:(lia) ltac:(lia)). lia. }
    rewrite <- (pshift_zero p) at 1.
    rewrite shr_fexp_exact by (rewrite ?Hd; lia).
    rewrite Hd. split; [| split; [lia | lia]].
    f_equal. lia.
Qed.

(** The double the quotient [(q * d + r) / d * 2 ^ e] is rounded to lies
    within a relative distance of [2 ^ -53] of it. *)
Lemma round_aux_near (q e d r : Z) :
  2 ^ 52 <= q < 2 ^ 54 -> 0 < d -> 0 <= r < d ->
  -1074 <= e -> e <= 969 ->
  exists (m : positive) (k : Z),
    binary_round_aux prec emax false q e (new_location d r)
    = S754_finite false m (e + k)
    /\ 0 <= k <= 2
    /\ 2 ^ 53 * Z.abs (Zpos m * 2 ^ k * d - (q * d + r)) <= q * d + r.
Proof.
  intros Hq Hd Hr He He'.
  destruct q as [| p | p]; try lia.
  destruct (first_pass p e d r Hq Hd Hr He)
    as (k1 & m1 & mrs & E1 & Em1 & Hk1 & Hm1 & Herr & Hlow).
  unfold binary_round_aux. rewrite E1, <- Em1.
  destruct (second_pass m1 (e + k1) Hm1 ltac:(lia))
    as (m & k2 & E2 & Hk2 & Hm).
  rewrite E2. cbn [shr_m].
  exists m, (k1 + k2).
  destruct (Z.leb_spec (e + k1 + k2) (emax - prec)) as [_ | Hgt];
    [| unfold emax, prec in Hgt; lia].
  split; [f_equal; lia |]. split; [lia |].
  rewrite Z.pow_add_r by lia.
  replace (Zpos m * (2 ^ k1 * 2 ^ k2)) with (m1 * 2 ^ k1) by (rewrite <- Hm; ring).
  assert (Hscale : 2 ^ 52 * (2 ^ k1 * d) <= Zpos p * d).
  { rewrite Z.pow_add_r in Hlow by lia.
    replace (2 ^ 52 * (2 ^ k1 * d)) with (2 ^ 52 * 2 ^ k1 * d) by ring.
    apply Z.mul_le_mono_nonneg_r; lia. }
  change (2 ^ 53) with (2 ^ 52 * 2).
  lia.
Qed.

(** Division. *)

Lemma div_eucl_div_mod (a b : Z) : Z.div_eucl a b = (a / b, a mod b).
Proof. unfold Z.div, Z.modulo. destruct (Z.div_eucl a b). reflexivity. Qed.

Lemma div_core_normal (mx my : positive) (ex ey : Z) :
  digits mx = 53 -> digits my = 53 -> -1021 <= ex - ey ->
  SFdiv_core_binary prec emax (Zpos mx) ex (Zpos my) ey
  = (Zpos mx * 2 ^ 53 / Zpos my, ex - ey - 53,
     new_location (Zpos my) ((Zpos mx * 2 ^ 53) mod Zpos my)).
Proof.
  intros Dx Dy He. unfold SFdiv_core_binary, Zdigits2.
  change (Zpos (digits2_pos mx)) with (digits mx).
  change (Zpos (digits2_pos my)) with (digits my).
  rewrite Dx, Dy, fexp_normal by lia.
  replace (Z.min (53 + ex - (53 + ey) - 53) (ex - ey)) with (ex - ey - 53)
    by lia.
  replace (ex - ey - (ex - ey - 53)) with 53 by lia.
  rewrite Z.shiftl_mul_pow2 by lia.
  rewrite div_eucl_div_mod. reflexivity.
Qed.

Lemma quotient_bounds (mx my : positive) :
  digits mx = 53 -> digits my = 53 ->
  2 ^ 52 <= Zpos mx * 2 ^ 53 / Zpos my < 2 ^ 54.
Proof.
  intros Dx Dy.
  pose proof (digits_lower mx) as Lx. pose proof (digits_strict mx) as Ux.
  pose proof (digits_lower my) as Ly. pose proof (digits_strict my) as Uy.
  rewrite Dx in Lx, Ux. rewrite Dy in Ly, Uy.
  change (53 - 1) with 52 in *.
  split.
  - apply Z.div_le_lower_bound; [lia |].
    apply Z.le_trans with (2 ^ 53 * 2 ^ 52).
    + apply Z.mul_le_mono_nonneg_r; lia.
    + rewrite (Z.mul_comm (Zpos mx)). apply Z.mul_le_mono_nonneg_l; lia.
  - apply Z.div_lt_upper_bound; [lia |].
    apply Z.lt_le_trans with (2 ^ 53 * 2 ^ 53).
    + apply Z.mul_lt_mono_pos_r; lia.
    + change (2 ^ 53 * 2 ^ 53) with (2 ^ 52 * 2 ^ 54).
      apply Z.mul_le_mono_nonneg_r; lia.
Qed.

Lemma million_normal :
  of_integer 1000000 = S754_finite false (pshift 1000000 33) (-33).
Proof. reflexivity. Qed.

Lemma div_million_near (n : positive) :
  Zpos n < 2 ^ 53 ->
  exists (m p : positive),
    SFdiv prec emax (of_integer (Zpos n)) (of_integer 1000000)
    = S754_finite false m (Zneg p)
    /\ 2 ^ 53 * Z.abs (Zpos m * 1000000 - Zpos n * 2 ^ Zpos p)
       <= Zpos n * 2 ^ Zpos p.
Proof.
  intros Hn. pose proof (digits_small n Hn) as Dn.
  pose proof (digits_pos n) as Dp.
  rewrite (of_integer_pos n Hn), million_normal. unfold normal.
  set (j := 53 - digits n). assert (Hj : 0 <= j <= 52) by (unfold j; lia).
  cbn [SFdiv xorb].
  assert (Dx : digits (pshift n j) = 53)
    by (rewrite digits_pshift by lia; unfold j; lia).
  assert (Dy : digits (pshift 1000000 33) = 53) by reflexivity.
  rewrite div_core_normal by (try assumption; lia).
  pose proof (quotient_bounds _ _ Dx Dy) as Hq.
  set (X := Zpos (pshift n j) * 2 ^ 53) in *.
  set (d := Zpos (pshift 1000000 33)) in *.
  assert (Hd : 0 < d) by (unfold d; lia).
  pose proof (Z.mod_pos_bound X d Hd) as Hr.
  destruct (round_aux_near (X / d) (0 - j - -33 - 53) d (X mod d)
              Hq Hd Hr ltac:(lia) ltac:(lia))
    as (m & k & E & Hk & Hnear).
  rewrite E.
  replace (X / d * d + X mod d) with X in Hnear
    by (rewrite (Z.div_mod X d) at 1 by lia; ring).
  destruct (0 - j - -33 - 53 + k) as [| p | p] eqn:Ep; try lia.
  exists m, p. split; [reflexivity |].
  assert (Hp : Zpos p = 20 + j - k) by lia.
  set (T := 2 ^ (33 + k)).
  assert (HT : 0 < T) by (apply Z.pow_pos_nonneg; lia).
  assert (EX : X = Zpos n * 2 ^ Zpos p * T).
  { unfold X, T. rewrite pshift_value, Hp by lia.
    rewrite <- !Z.mul_assoc, <- !Z.pow_add_r by lia.
    do 2 f_equal. lia. }
  assert (Ed : Zpos m * 2 ^ k * d = Zpos m * 1000000 * T).
  { unfold d, T. rewrite pshift_value, Z.pow_add_r by lia. ring. }
  rewrite Ed, EX in Hnear.
  replace (Zpos m * 1000000 * T - Zpos n * 2 ^ Zpos p * T)
    with ((Zpos m * 1000000 - Zpos n * 2 ^ Zpos p) * T) in Hnear by ring.
  rewrite Z.abs_mul, (Z.abs_eq T), Z.mul_assoc in Hnear by lia.
  apply Z.mul_le_mono_pos_r in Hnear; assumption.
Qed.

Lemma div_million_exact (c : positive) :
  Zpos c * 1000000 < 2 ^ 53 ->
  SFdiv prec emax (of_integer (Zpos c * 1000000)) (of_integer 1000000)
  = of_integer (Zpos c).
Proof.
  intros Hn.
  change (Zpos c * 1000000) with (Zpos (c * 1000000)) in *.
  assert (Hc : Zpos c < 2 ^ 53) by lia.
  pose proof (digits_small _ Hn) as Dn. pose proof (digits_small _ Hc) as Dc.
  pose proof (digits_pos c) as Dp.
  rewrite (of_integer_pos _ Hn), (of_integer_pos _ Hc), million_normal.
  unfold normal.
  set (n := (c * 1000000)%positive) in *.
  set (j := 53 - digits n).
  assert (Hj : 0 <= j <= 52) by (pose proof (digits_pos n); unfold j; lia).
  cbn [SFdiv xorb].
  assert (Dx : digits (pshift n j) = 53)
    by (rewrite digits_pshift by lia; unfold j; lia).
  assert (Dy : digits (pshift 1000000 33) = 53) by reflexivity.
  rewrite div_core_normal by (try assumption; lia).
  assert (EX : Zpos (pshift n j) * 2 ^ 53
               = Zpos (pshift c (j + 20)) * Zpos (pshift 1000000 33)).
  { rewrite !pshift_value by lia. unfold n.
    rewrite Pos2Z.inj_mul, Z.pow_add_r by lia.
    change (2 ^ 53) with (2 ^ 20 * 2 ^ 33). ring. }
  rewrite EX, Z.div_mul, Z.mod_mul by lia.
  change (new_location _ 0) with loc_Exact.
  assert (Dn20 : digits n <= digits c + 20).
  { apply digits_upper; [lia |]. unfold n.
    rewrite Pos2Z.inj_mul, Z.pow_add_r by lia.
    pose proof (digits_strict c).
    apply Z.mul_lt_mono_nonneg; lia. }
  rewrite round_aux_exact by (unfold j; lia).
  f_equal. unfold j. lia.
Qed.

Lemma number_value_of_integer (z : Z) :
  0 <= z < 2 ^ 53 ->
  exists q, number_value (of_integer z) = Some q /\ (q == inject_Z z)%Q.
Proof.
  intros Hz. destruct z as [| n | n]; try lia.
  - exists 0%Q. split; reflexivity.
  - rewrite of_integer_pos by lia. unfold normal.
    pose proof (digits_small n ltac:(lia)) as Dn.
    set (j := 53 - digits n) in *. assert (Hj : 0 <= j) by lia.
    cbn [number_value cond_Zopp].
    eexists. split; [reflexivity |].
    destruct (0 - j) as [| p | p] eqn:Ep; try lia.
    + replace j with 0 by lia. rewrite pshift_zero.
      change (2 ^ 0) with 1. rewrite Z.mul_1_r. reflexivity.
    + unfold Qeq. cbn [Qnum Qden inject_Z].
      rewrite pshift_value, Pos2Z.inj_pow by lia.
      replace j with (Zpos p) by lia. ring.
Qed.

Lemma div_million_value (n : Z) :
  0 <= n < 2 ^ 53 ->
  exists v,
    number_value (SFdiv prec emax (of_integer n) (of_integer 1000000)) = Some v
    /\ (Qabs (v * inject_Z 1000000 - inject_Z n) * inject_Z (2 ^ 53)
        <= inject_Z n)%Q.
Proof.
  intros Hn. destruct n as [| n | n]; try lia.
  - exists 0%Q. split; [reflexivity |]. discriminate.
  - destruct (div_million_near n ltac:(lia)) as (m & p & E & Hnear).
    rewrite E. cbn [number_value cond_Zopp].
    eexists. split; [reflexivity |].
    unfold Qle, Qmult, Qminus, Qplus, Qopp, Qabs, inject_Z.
    cbn [Qnum Qden].
    rewrite !Pos.mul_1_r, !Z.mul_1_r, Pos2Z.inj_pow.
    change (Zpos 2) with 2.
    replace (Zpos m * 1000000 + - Zpos n * 2 ^ Zpos p)
      with (Zpos m * 1000000 - Zpos n * 2 ^ Zpos p) by ring.
    rewrite (Z.mul_comm (Z.abs _)). exact Hnear.
Qed.

(** ** deltaFrom *)

(** On a clock that does not run backwards, with nanoseconds kept below a
    second, the components of the difference are not negative. *)
Lemma hrtime_diff_nonneg (now time : Z * Z) :
  0 <= snd time < NANOSECONDS_PER_SECOND ->
  0 <= snd now < NANOSECONDS_PER_SECOND ->
  fst time < fst now \/ (fst time = fst now /\ snd time <= snd now) ->
  0 <= fst (hrtime_diff now time)
  /\ 0 <= snd (hrtime_diff now time) < NANOSECONDS_PER_SECOND.
Proof.
  unfold hrtime_diff, NANOSECONDS_PER_SECOND. intros Ht Hn Hle.
  destruct (snd now - snd time <? 0) eqn:E; simpl.
  - apply Z.ltb_lt in E. lia.
  - apply Z.ltb_ge in E. lia.
Qed.

(** Five million nanoseconds are five milliseconds. *)
Example five_milliseconds :
  let t := timing_of_delta (hrtime_diff (7, 5000100) (7, 100)) in
  ns t = of_integer 5000000 /\ ms t = of_integer 5.
Proof. split; vm_compute; reflexivity. Qed.

(** Beyond [2 ^ 53] the sum of the nanoseconds is rounded to a double. *)
Example rounded_nanoseconds :
  ns (timing_of_delta (9007199, 254740993)) = of_integer 9007199254740992.
Proof. vm_compute. reflexivity. Qed.

Lemma deltaFrom_run (c : category) (marker : Z * Z) (w : world) :
  deltaFrom c marker w =
    (Normal (timing_of_delta (hrtime_diff (clock w (ticks w)) marker)),
     {| clock := clock w; ticks := S (ticks w); context := context w;
        trace := trace w ++ [EvClock c] |}).
Proof. reflexivity. Qed.

Lemma HR_TO_NS_finite :
  finite_nonnegative HR_TO_NS = true
  /\ match HR_TO_NS with S754_finite _ _ _ => True | _ => False end.
Proof. split; [reflexivity | exact I]. Qed.

Lemma NS_TO_MS_finite :
  finite_nonnegative NS_TO_MS = true
  /\ match NS_TO_MS with S754_finite _ _ _ => True | _ => False end.
Proof. split; [reflexivity | exact I]. Qed.

(** Below [2 ^ 53] nanoseconds the product and the sum are exact. *)
Lemma timing_of_delta_exact (delta : Z * Z) :
  0 <= fst delta -> 0 <= snd delta ->
  fst delta * 1000000000 + snd delta < 2 ^ 53 ->
  ns (timing_of_delta delta)
  = of_integer (fst delta * 1000000000 + snd delta).
Proof.
  intros Hs Hn Hsum. unfold timing_of_delta, HR_TO_NS. cbn [ns].
  rewrite of_integer_mul by lia.
  apply of_integer_add; lia.
Qed.

Lemma timing_of_delta_nonneg (delta : Z * Z) :
  0 <= fst delta -> 0 <= snd delta ->
  nonnegative (ns (timing_of_delta delta)) = true
  /\ nonnegative (ms (timing_of_delta delta)) = true.
Proof.
  intros Hs Hn.
  assert (H : nonnegative (ns (timing_of_delta delta)) = true).
  { unfold timing_of_delta. cbn [ns].
    apply SFadd_nonneg; [| apply of_integer_nonneg, Hn].
    apply SFmul_nonneg; [apply of_integer_nonneg, Hs | |];
      apply HR_TO_NS_finite. }
  split; [exact H |].
  unfold ms. apply SFdiv_nonneg; [exact H | |]; apply NS_TO_MS_finite.
Qed.

(** C8, as the code has it.  A measurement computed from a start marker,
    when the components of the clock's difference are not negative, has
    [ns >= 0] and [ms >= 0].  When the elapsed nanoseconds stay below
    [2 ^ 53], [ns] is exactly their number, and [ms] is the double nearest
    to [ns / 1,000,000]: it lies within [2 ^ -53] of the quotient,
    relatively, and it is the quotient itself when [ns] is a whole number
    of milliseconds. *)
Theorem deltaFrom_measurement (c : category) (marker : Z * Z) (w : world) :
  let delta := hrtime_diff (clock w (ticks w)) marker in
  let elapsed := fst delta * 1000000000 + snd delta in
  0 <= fst delta -> 0 <= snd delta ->
  exists t w',
    deltaFrom c marker w = (Normal t, w')
    /\ nonnegative (ns t) = true
    /\ nonnegative (ms t) = true
    /\ (elapsed < 2 ^ 53 ->
        ns t = of_integer elapsed
        /\ (exists n, number_value (ns t) = Some n
                      /\ (n == inject_Z elapsed)%Q)
        /\ (exists v, number_value (ms t) = Some v
                      /\ (Qabs (v * inject_Z 1000000 - inject_Z elapsed)
                          * inject_Z (2 ^ 53) <= inject_Z elapsed)%Q)
        /\ (forall k, elapsed = k * 1000000 -> ms t = of_integer k)).
Proof.
  intros delta elapsed Hs Hn. rewrite deltaFrom_run. fold delta.
  eexists. eexists. split; [reflexivity |].
  destruct (timing_of_delta_nonneg delta Hs Hn) as [Hns Hms].
  split; [exact Hns |]. split; [exact Hms |].
  intros Hsmall.
  assert (Helapsed : 0 <= elapsed < 2 ^ 53) by (unfold elapsed in *; lia).
  assert (E : ns (timing_of_delta delta) = of_integer elapsed)
    by (apply timing_of_delta_exact; assumption).
  split; [exact E |]. unfold ms. rewrite E.
  split; [apply number_value_of_integer, Helapsed |].
  split; [apply div_million_value, Helapsed |].
  intros k Hk. unfold NS_TO_MS.
  destruct k as [| k | k]; try lia.
  - rewrite Hk. reflexivity.
  - rewrite Hk. apply div_million_exact. lia.
Qed.

Lemma deltaFrom_measurement_witness :
  let w := {| clock := fun n => (0, Z.of_nat n * 5000000); ticks := 1;
              context := {| isIntrospection := false |}; trace := [] |} in
  exists t w',
    deltaFrom Resolver (0, 0) w = (Normal t, w')
    /\ nonnegative (ns t) = true
    /\ nonnegative (ms t) = true
    /\ (5000000 < 2 ^ 53 ->
        ns t = of_integer 5000000
        /\ (exists n, number_value (ns t) = Some n
                      /\ (n == inject_Z 5000000)%Q)
        /\ (exists v, number_value (ms t) = Some v
                      /\ (Qabs (v * inject_Z 1000000 - inject_Z 5000000)
                          * inject_Z (2 ^ 53) <= inject_Z 5000000)%Q)
        /\ (forall k, 5000000 = k * 1000000 -> ms t = of_integer k)).
Proof.
  apply (deltaFrom_measurement Resolver (0, 0)
           {| clock := fun n => (0, Z.of_nat n * 5000000); ticks := 1;
              context := {| isIntrospection := false |}; trace := [] |});
    simpl; lia.
Defined.

(** C8, as stated, fails: the milliseconds of 123 nanoseconds are the
    double nearest to [123 / 1,000,000], which is not that quotient. *)
Lemma milliseconds_are_rounded :
  let w := {| clock := fun _ => (0, 123); ticks := 0;
              context := {| isIntrospection := false |}; trace := [] |} in
  exists t w' n v,
    deltaFrom Resolver (0, 0) w = (Normal t, w')
    /\ number_value (ns t) = Some n
    /\ number_value (ms t) = Some v
    /\ (n == inject_Z 123)%Q
    /\ ~ (v == n / inject_Z 1000000)%Q
    /\ ~ (v * inject_Z 1000000 == n)%Q.
Proof.
  cbv zeta. eexists. eexists. eexists. eexists.
  split; [reflexivity |].
  split; [vm_compute; reflexivity |].
  split; [vm_compute; reflexivity |].
  split; [reflexivity |].
  split; intros H; vm_compute in H; discriminate H.
Qed.

(** ** The resolver is called once *)

Lemma resolver_calls_app (l1 l2 : list event) :
  resolver_calls (l1 ++ l2) = resolver_calls l1 ++ resolver_calls l2.
Proof.
  induction l1 as [| e l1 IH]; simpl; [reflexivity |].
  destruct e; simpl; rewrite IH; reflexivity.
Qed.

Section Calls.

Context {A B : Type}.

Lemma calls_ret (a : A) : calls [] (ret a).
Proof. intros w. simpl. rewrite app_nil_r. reflexivity. Qed.

Lemma calls_throw (e : value) : calls [] (@throw A e).
Proof. intros w. simpl. rewrite app_nil_r. reflexivity. Qed.

Lemma calls_lift (c : completion A) : calls [] (lift c).
Proof. intros w. simpl. rewrite app_nil_r. reflexivity. Qed.

(** A continuation that calls no resolver may be skipped by a throw. *)
Lemma calls_bind_quiet (l : list string) (m : M A) (k : A -> M B) :
  calls l m -> (forall a, calls [] (k a)) -> calls l (bind m k).
Proof.
  intros Hm Hk w. unfold bind.
  specialize (Hm w). destruct (m w) as [[a | e] w1]; simpl in *.
  - rewrite Hk, Hm, app_nil_r. reflexivity.
  - exact Hm.
Qed.

Lemma calls_bind (l1 l2 : list string) (m : M A) (k : A -> M B) :
  total m -> calls l1 m -> (forall a, calls l2 (k a)) ->
  calls (l1 ++ l2) (bind m k).
Proof.
  intros Ht Hm Hk w. unfold bind.
  specialize (Hm w). destruct (Ht w) as (a & w1 & E).
  rewrite E in *. simpl in *.
  rewrite Hk, Hm, app_assoc. reflexivity.
Qed.

Lemma calls_try (l : list string) (m : M A) :
  calls l m -> calls l (try_ m).
Proof.
  intros Hm w. unfold try_. specialize (Hm w).
  destruct (m w) as [r w1]. exact Hm.
Qed.

Lemma total_try (m : M A) : total (try_ m).
Proof.
  intros w. unfold try_. destruct (m w) as [r w1]. eauto.
Qed.

End Calls.

Lemma calls_emit (e : event) : calls (resolver_calls [e]) (emit e).
Proof. intros w. simpl. apply resolver_calls_app. Qed.

Lemma total_emit (e : event) : total (emit e).
Proof. intros w. unfold emit. eauto. Qed.

Lemma total_ret {A} (a : A) : total (ret a).
Proof. intros w. unfold ret. eauto. Qed.

Lemma calls_resolver (name : string) (behaviour : ResolverArgs -> outcome)
    (a : ResolverArgs) :
  calls [name] (resolver name behaviour a).
Proof.
  unfold resolver.
  apply (calls_bind [name] []).
  - apply total_emit.
  - apply (calls_emit (EvResolverCall name)).
  - intros _. destruct (behaviour a); [apply calls_ret | apply calls_throw].
Qed.

Lemma calls_afterHook (name : string) (action : value -> HookAction)
    (result : value) :
  calls [] (afterHook name action result).
Proof.
  unfold afterHook.
  apply (calls_bind_quiet []).
  - apply (calls_emit (EvAfterHook name result)).
  - intros _. destruct (raise (action result)); [apply calls_throw | apply calls_ret].
Qed.

Lemma calls_then_quiet {A} (p : settlement A value)
    (onFulfilled : A -> M value) (onRejected : value -> M value) :
  (forall a, calls [] (onFulfilled a)) ->
  (forall e, calls [] (onRejected e)) ->
  calls [] (then_ p onFulfilled onRejected).
Proof.
  intros Hf Hr. destruct p as [| a | e]; simpl.
  - apply calls_ret.
  - apply calls_bind_quiet; [apply calls_try, Hf | intros r; apply calls_ret].
  - apply calls_bind_quiet; [apply calls_try, Hr | intros r; apply calls_ret].
Qed.

Lemma calls_then_fulfilled {A} (l : list string) (a : A)
    (onFulfilled : A -> M value) (onRejected : value -> M value) :
  calls l (onFulfilled a) ->
  calls l (then_ (Fulfilled a) onFulfilled onRejected).
Proof.
  intros Hf. simpl.
  apply calls_bind_quiet; [apply calls_try, Hf | intros r; apply calls_ret].
Qed.

Lemma calls_call_then (result : value)
    (onFulfilled onRejected : value -> M value) :
  (forall v, calls [] (onFulfilled v)) ->
  (forall e, calls [] (onRejected e)) ->
  calls [] (call_then result onFulfilled onRejected).
Proof.
  intros Hf Hr. destruct result; simpl; try apply calls_ret.
  apply calls_bind_quiet; [apply calls_then_quiet; assumption |].
  intros d. apply calls_ret.
Qed.

(** [resolveField] calls what [resolve] calls, whatever the hook does. *)
Lemma calls_resolveField (l : list string) (resolve : M value)
    (hook : AfterResolverHook) :
  calls l resolve ->
  (forall v, calls [] (hook v)) ->
  calls l (resolveField resolve hook).
Proof.
  intros Hres Hhook. unfold resolveField.
  apply calls_bind_quiet; [apply calls_try, Hres |].
  intros [result | error].
  - apply calls_bind_quiet; [apply calls_lift |].
    intros thenable.
    apply calls_bind_quiet; [| intros _; apply calls_ret].
    destruct thenable; [| apply calls_ret].
    apply calls_bind_quiet; [| intros _; apply calls_ret].
    apply calls_call_then.
    + intros v. apply calls_bind_quiet; [apply Hhook | intros s; apply calls_ret].
    + intros e. apply calls_bind_quiet; [apply Hhook | intros _; apply calls_throw].
  - apply calls_bind_quiet; [apply Hhook | intros _; apply calls_throw].
Qed.

Lemma calls_ret_bind {A B} (l : list string) (a : A) (k : A -> M B) :
  calls l (k a) -> calls l (bind (ret a) k).
Proof. intros H w. exact (H w). Qed.

(** Whatever way [onResolverCalled] ends in, the wrapped resolver calls
    what the resolver in use calls. *)
Lemma calls_wrapped_resolve (l : list string)
    (originalResolver : ResolverFn) (replaced : option ResolverFn)
    (c : AfterCase) (a : ResolverArgs) :
  calls l (match replaced with
           | Some fn => fn
           | None => originalResolver
           end a) ->
  calls l (wrapped_resolve originalResolver
             (fun _ => ret (replaced, after_of c)) a).
Proof.
  intros H. unfold wrapped_resolve. apply calls_ret_bind.
  destruct c as [| hookName action | | hookName action]; simpl.
  - exact H.
  - apply calls_resolveField; [exact H | intros v; apply calls_afterHook].
  - apply calls_bind_quiet; [| intros d; apply calls_ret].
    apply calls_bind_quiet; [apply calls_try, H | intros r; apply calls_ret].
  - apply calls_bind_quiet; [| intros d; apply calls_ret].
    apply calls_bind_quiet; [| intros r; apply calls_ret].
    apply calls_try, calls_resolveField;
      [exact H | intros v; apply calls_afterHook].
Qed.

(** C3.  One invocation of a wrapped field calls the resolver function
    exactly once: the original one or, when [onResolverCalled] replaced it,
    the replacement and not the original.  This holds when no after-hook is
    obtained (at once or from a promise) and when one is obtained (at once
    or from a promise), whether the resolver returns a plain value, throws,
    or returns a promise that resolves, rejects or stays pending, and
    whatever the after-hook does. *)
Theorem wrapped_resolver_called_once
    (defaultFieldResolver : ResolverFn) (type name : string)
    (behaviour : ResolverArgs -> outcome)
    (f : OnResolverCalledPayload -> CalledAction)
    (a : ResolverArgs) (w : world) :
  let field := {| fieldType := type;
                  resolve := Some (resolver name behaviour) |} in
  let payload := {| resolverArgs := a;
                    resolverFn := resolver name behaviour |} in
  let wrapped := wrapResolver defaultFieldResolver field
                   (onResolverCalledFrom f) in
  resolver_calls (trace (snd (invoke defaultFieldResolver wrapped a w)))
  = resolver_calls (trace w)
    ++ [match replaces (f payload) with
        | Some (replacement, _) => replacement
        | None => name
        end].
Proof.
  intros field payload wrapped. revert w.
  apply (calls_wrapped_resolve _ (resolver name behaviour)
           (match replaces (f payload) with
            | Some (n, b) => Some (resolver n b)
            | None => None
            end)
           (returns (f payload)) a).
  destruct (replaces (f payload)) as [[n b] |]; apply calls_resolver.
Qed.

(** ** What the wrapped resolver gives back *)

(** C1, at the input of the specification's scenario.  A resolver returns
    the number 42 at once; [onResolverCalled] returns an after-hook.  The
    wrapped resolver returns [undefined], not 42, and the after-hook is not
    run: the world only records the call of the resolver.  With the plugin's
    own resolver hook in the place of [onResolverCalled], no measurement
    reaches the resolver sink.  A resolver that returns a promise fulfilled
    with 42 fares no better: the wrapped resolver returns [undefined] at
    once instead of a promise. *)
Theorem wrapped_value_is_lost
    (defaultFieldResolver : ResolverFn) (hook : AfterResolverHook)
    (a : ResolverArgs) (w : world) :
  let answer := {| fieldType := "Int";
                   resolve := Some (resolver "answer"
                                      (fun _ => Returns (VNumber 42))) |} in
  let later := {| fieldType := "Int";
                  resolve := Some (resolver "answer"
                                     (fun _ => Returns
                                        (VPromise (Fulfilled (VNumber 42))))) |} in
  invoke defaultFieldResolver
    (wrapResolver defaultFieldResolver answer
       (fun _ => ret (None, AfterHook hook))) a w
  = (Normal VUndefined, snd (emit (EvResolverCall "answer") w))
  /\ (let r := invoke defaultFieldResolver
                 (wrapResolver defaultFieldResolver answer
                    (resolverCalledHook_subscription DEFAULT_OPTIONS)) a w in
      fst r = Normal VUndefined
      /\ trace (snd r) = trace w ++ [EvClock Resolver; EvResolverCall "answer"])
  /\ fst (invoke defaultFieldResolver
            (wrapResolver defaultFieldResolver later
               (resolverCalledHook_subscription DEFAULT_OPTIONS)) a w)
     = Normal VUndefined.
Proof.
  simpl. repeat split.
  rewrite <- app_assoc. reflexivity.
Qed.

(** C2, at the input of the specification's scenario.  A resolver returns
    a promise that rejects with ["boom"]; [onResolverCalled] returns an
    after-hook.  The hook is called with ["boom"], but the wrapped resolver
    returns [undefined]: neither a throw nor a rejected promise reaches the
    caller. *)
Theorem wrapped_rejection_is_lost
    (defaultFieldResolver : ResolverFn) (hookName : string)
    (action : value -> HookAction) (a : ResolverArgs) (w : world) :
  let field := {| fieldType := "Int";
                  resolve := Some (resolver "failing"
                                     (fun _ => Returns
                                        (VPromise (Rejected (VString "boom"))))) |} in
  let r := invoke defaultFieldResolver
             (wrapResolver defaultFieldResolver field
                (fun _ => ret (None, AfterHook (afterHook hookName action)))) a w in
  fst r = Normal VUndefined
  /\ trace (snd r) = trace w ++ [EvResolverCall "failing";
                               EvAfterHook hookName (VString "boom")].
Proof.
  unfold invoke, wrapResolver, wrapped_resolve, resolveField, resolver,
    afterHook, call_then, then_, bind, try_, emit, lift, throw, ret.
  simpl.
  destruct (raise (action (VString "boom"))); simpl;
    rewrite <- app_assoc; split; reflexivity.
Qed.

(** In the [catch] block the assignment [setResult] makes is not used: the
    resolver throws [error], the after-hook is called with [error] and
    passes [replacement] to [setResult], and [resolveField] throws [error]. *)
Lemma catch_block_throws_error
    (name hookName : string) (error replacement : value)
    (a : ResolverArgs) (w : world) :
  let substituting :=
    afterHook hookName
      (fun _ => {| substitute := Some replacement; raise := None |}) in
  let r := resolveField (resolver name (fun _ => Throws error) a)
             substituting w in
  fst r = Abrupt error
  /\ trace (snd r) = trace w ++ [EvResolverCall name;
                               EvAfterHook hookName error].
Proof.
  simpl. rewrite <- app_assoc. split; reflexivity.
Qed.

(** ** Invariants of a run *)

Section Respects.

Variable R : world -> world -> Prop.
Hypothesis R_refl : forall w, R w w.
Hypothesis R_trans : forall w1 w2 w3, R w1 w2 -> R w2 w3 -> R w1 w3.

Lemma respects_ret {A} (Q : A -> Prop) (a : A) :
  Q a -> respects R Q (ret a).
Proof. intros H w. simpl. auto. Qed.

Lemma respects_throw {A} (Q : A -> Prop) (e : value) :
  respects R Q (throw e).
Proof. intros w. simpl. auto. Qed.

Lemma respects_lift {A} (c : completion A) :
  respects R any (lift c).
Proof. intros w. simpl. split; [apply R_refl | destruct c; exact I]. Qed.

Lemma respects_get_context : respects R any get_context.
Proof. intros w. simpl. split; [apply R_refl | exact I]. Qed.

Lemma respects_bind {A B} (Q : A -> Prop) (Q' : B -> Prop)
    (m : M A) (k : A -> M B) :
  respects R Q m ->
  (forall a, Q a -> respects R Q' (k a)) ->
  respects R Q' (bind m k).
Proof.
  intros Hm Hk w. unfold bind.
  destruct (Hm w) as [HR HQ].
  destruct (m w) as [[a | e] w1]; simpl in *.
  - destruct (Hk a HQ w1) as [HR' HQ'].
    split; [eapply R_trans; eassumption | exact HQ'].
  - split; [exact HR | exact I].
Qed.

Lemma respects_weaken {A} (Q Q' : A -> Prop) (m : M A) :
  (forall a, Q a -> Q' a) -> respects R Q m -> respects R Q' m.
Proof.
  intros HQ Hm w. destruct (Hm w) as [HR H]. split; [exact HR |].
  destruct (fst (m w)); auto.
Qed.

Lemma respects_any {A} (Q : A -> Prop) (m : M A) :
  respects R Q m -> respects R any m.
Proof. apply respects_weaken. intros a _. exact I. Qed.

Lemma respects_try {A} (Q : A -> Prop) (m : M A) :
  respects R Q m ->
  respects R (fun r => match r with Normal a => Q a | Abrupt _ => True end)
    (try_ m).
Proof.
  intros Hm w. unfold try_. destruct (Hm w) as [HR HQ].
  destruct (m w) as [r w1]. simpl in *. auto.
Qed.

Lemma respects_try_any {A} (m : M A) :
  respects R any m -> respects R any (try_ m).
Proof.
  intros Hm. eapply respects_any. apply respects_try. exact Hm.
Qed.

(** A step that is always followed by a quiet continuation. *)
Lemma respects_seq {A B} (m : M A) (k : A -> M B) :
  respects R any m -> (forall a, respects R any (k a)) ->
  respects R any (bind m k).
Proof.
  intros Hm Hk. apply (respects_bind any); [exact Hm | intros a _; apply Hk].
Qed.

Lemma respects_then {A} (Q : A -> Prop) (p : settlement A value)
    (onFulfilled : A -> M value) (onRejected : value -> M value) :
  (forall a, Q a -> respects R any (onFulfilled a)) ->
  (forall e, respects R any (onRejected e)) ->
  match p with Fulfilled a => Q a | _ => True end ->
  respects R any (then_ p onFulfilled onRejected).
Proof.
  intros Hf Hr Hp. destruct p as [| a | e]; simpl.
  - apply respects_ret. exact I.
  - apply respects_seq; [apply respects_try_any, Hf, Hp |].
    intros r. apply respects_ret. exact I.
  - apply respects_seq; [apply respects_try_any, Hr |].
    intros r. apply respects_ret. exact I.
Qed.

Lemma respects_call_then (result : value)
    (onFulfilled onRejected : value -> M value) :
  (forall v, respects R any (onFulfilled v)) ->
  (forall e, respects R any (onRejected e)) ->
  respects R any (call_then result onFulfilled onRejected).
Proof.
  intros Hf Hr. destruct result; simpl; try (apply respects_ret; exact I).
  apply respects_seq.
  - apply (respects_then any); [intros v _; apply Hf | exact Hr |].
    destruct p; exact I.
  - intros d. apply respects_ret. exact I.
Qed.

Lemma respects_resolveField (resolve : M value) (hook : AfterResolverHook) :
  respects R any resolve -> good_hook R hook ->
  respects R any (resolveField resolve hook).
Proof.
  intros Hres Hhook. unfold resolveField.
  apply respects_seq; [apply respects_try_any, Hres |].
  intros [result | error].
  - apply respects_seq; [apply respects_lift |]. intros thenable.
    apply respects_seq; [| intros _; apply respects_ret; exact I].
    destruct thenable; [| apply respects_ret; exact I].
    apply respects_seq; [| intros _; apply respects_ret; exact I].
    apply respects_call_then.
    + intros v. apply respects_seq; [apply Hhook |].
      intros s. apply respects_ret. exact I.
    + intros e. apply respects_seq; [apply Hhook |].
      intros _. apply respects_throw.
  - apply respects_seq; [apply Hhook | intros _; apply respects_throw].
Qed.

Lemma good_wrapped_resolve (originalResolver : ResolverFn)
    (onResolverCalled : OnResolverCalledHook) :
  good_resolver R originalResolver ->
  good_onResolverCalled R onResolverCalled ->
  good_resolver R (wrapped_resolve originalResolver onResolverCalled).
Proof.
  intros Horig Hcalled a. unfold wrapped_resolve.
  eapply respects_bind; [apply Hcalled; exact Horig |].
  intros [replaced after] [Hrep Hafter]. simpl in *.
  assert (Hres : good_resolver R (match replaced with
                                  | Some fn => fn
                                  | None => originalResolver
                                  end))
    by (destruct replaced; assumption).
  destruct after as [| hook | p]; simpl in Hafter.
  - apply Hres.
  - apply respects_resolveField; [apply Hres | exact Hafter].
  - apply respects_seq; [| intros d; apply respects_ret; exact I].
    apply (respects_then (fun hook => match hook with
                                      | Some h => good_hook R h
                                      | None => True
                                      end)).
    + intros [h |] Hh; [| apply Hres].
      apply respects_resolveField; [apply Hres | exact Hh].
    + intros e. apply respects_throw.
    + destruct p as [| [h |] | e]; simpl; auto.
Qed.

Lemma good_wrapResolver (defaultFieldResolver : ResolverFn)
    (field : FieldConfig) (onResolverCalled : OnResolverCalledHook) :
  good_resolver R defaultFieldResolver ->
  good_field R field ->
  good_onResolverCalled R onResolverCalled ->
  good_field R (wrapResolver defaultFieldResolver field onResolverCalled).
Proof.
  intros Hd Hf Hc. unfold good_field, wrapResolver. simpl.
  apply good_wrapped_resolve; [| exact Hc].
  unfold good_field in Hf. destruct (resolve field); assumption.
Qed.

End Respects.

Section RespectsFields.

Variable R : world -> world -> Prop.
Hypothesis R_refl : forall w, R w w.
Hypothesis R_trans : forall w1 w2 w3, R w1 w2 -> R w2 w3 -> R w1 w3.

Variable defaultFieldResolver : ResolverFn.
Hypothesis good_default : good_resolver R defaultFieldResolver.

Variable plugin : Plugin.
Hypothesis good_native :
  forall h, onResolverCalled plugin = Some h -> good_onResolverCalled R h.

Lemma ret_any {A} (a : A) : respects R any (ret a).
Proof. apply (respects_ret R R_refl). exact I. Qed.

Lemma lookup_field_good (schema : Schema) (name : string)
    (field : FieldConfig) :
  good_schema R schema ->
  lookup_field name schema = Some field ->
  good_field R field.
Proof.
  intros Hs. induction Hs as [| [n f] rest Hf Hrest IH]; simpl.
  - discriminate.
  - destruct (n =? name)%string.
    + intros E. injection E as <-. exact Hf.
    + exact IH.
Qed.

Lemma respects_run_after (after : AfterReturn) (result : value) :
  good_return R after -> respects R any (run_after after result).
Proof.
  intros H. destruct after as [| h | [| [h |] | e]]; simpl in *;
    try apply ret_any;
    (apply (respects_seq R R_trans); [apply H | intros s; apply ret_any]).
Qed.

Lemma respects_run_field (schema : Schema) (native : bool)
    (call : FieldCall) :
  good_schema R schema ->
  respects R any (run_field defaultFieldResolver plugin schema native call).
Proof.
  intros Hs. unfold run_field.
  destruct (lookup_field (call_field call) schema) as [field |] eqn:E;
    [| apply ret_any].
  pose proof (lookup_field_good _ _ _ Hs E) as Hf. unfold good_field in Hf.
  assert (Hfn : good_resolver R (match resolve field with
                                 | Some fn => fn
                                 | None => defaultFieldResolver
                                 end))
    by (destruct (resolve field); assumption).
  apply (respects_seq R R_trans); [| intros _; apply ret_any].
  apply (respects_try_any R).
  apply (respects_seq R R_trans); [apply (respects_get_context R R_refl) |].
  intros current.
  destruct (if native then onResolverCalled plugin else None)
    as [hook |] eqn:Eh.
  - assert (Hh : good_onResolverCalled R hook).
    { destruct native; [| discriminate].
      apply good_native. exact Eh. }
    eapply (respects_bind R R_trans); [apply Hh; exact Hfn |].
    intros [replaced after] [Hrep Hafter]. simpl in *.
    apply (respects_seq R R_trans).
    + apply (respects_try_any R). destruct replaced; [apply Hrep | apply Hfn].
    + intros r. destruct (settled r); [| apply ret_any].
      apply respects_run_after. exact Hafter.
  - apply (respects_seq R R_trans);
      [apply (respects_try_any R), Hfn | intros _; apply ret_any].
Qed.

Lemma respects_run_fields (schema : Schema) (native : bool)
    (calls : list FieldCall) :
  good_schema R schema ->
  respects R any (run_fields defaultFieldResolver plugin schema native calls).
Proof.
  intros Hs. induction calls as [| call rest IH]; simpl.
  - apply ret_any.
  - apply (respects_seq R R_trans);
      [apply respects_run_field, Hs | intros _; exact IH].
Qed.

End RespectsFields.

Section RespectsPipeline.

Variable R : world -> world -> Prop.
Hypothesis R_refl : forall w, R w w.
Hypothesis R_trans : forall w1 w2 w3, R w1 w2 -> R w2 w3 -> R w1 w3.

Variable defaultFieldResolver : ResolverFn.
Hypothesis good_default : good_resolver R defaultFieldResolver.

Variable plugin : Plugin.
Hypothesis good : good_plugin R defaultFieldResolver plugin.
Hypothesis good_extend :
  is_some (onParse plugin) = true ->
  forall x, respects R any (extendContext x).

#[local] Abbreviation fields_ok :=
  (respects_run_fields R R_refl R_trans defaultFieldResolver good_default
     plugin (good_onResolverCalledHook _ _ _ good)).

Lemma respects_bracket {P} (hook : option (P -> M (option AfterPhase)))
    (payload : P) (body : M unit) :
  (forall h, hook = Some h -> respects R (good_after R) (h payload)) ->
  respects R any body ->
  respects R any (bracket hook payload body).
Proof.
  intros Hh Hb. unfold bracket. destruct hook as [before |]; [| exact Hb].
  eapply (respects_bind R R_trans); [apply Hh; reflexivity |].
  intros after Hafter.
  apply (respects_seq R R_trans); [exact Hb |].
  intros _. destruct after as [done |]; [exact Hafter | apply (ret_any R R_refl)].
Qed.

Lemma respects_run_phase (schema : Schema) (p : phase) :
  good_schema R schema ->
  respects R any (run_phase defaultFieldResolver plugin schema p).
Proof.
  intros Hs. unfold run_phase.
  apply (respects_seq R R_trans); [apply (respects_get_context R R_refl) |].
  intros current. destruct p as [| src | document | name native fields
                                  | name native fields].
  - apply respects_bracket; [| apply (ret_any R R_refl)].
    intros h E. apply (good_onContextBuilding _ _ _ good _ E).
  - apply respects_bracket; [| apply (ret_any R R_refl)].
    intros h E. apply (good_onParse _ _ _ good _ E). simpl.
    apply good_extend. rewrite E. reflexivity.
  - apply respects_bracket; [| apply (ret_any R R_refl)].
    intros h E. apply (good_onValidate _ _ _ good _ E).
  - apply respects_bracket; [| apply fields_ok, Hs].
    intros h E. apply (good_onExecute _ _ _ good _ E).
  - apply respects_bracket; [| apply fields_ok, Hs].
    intros h E. apply (good_onSubscribe _ _ _ good _ E).
Qed.

Lemma respects_run_phases (schema : Schema) (ps : list phase) :
  good_schema R schema ->
  respects R any (run_phases defaultFieldResolver plugin schema ps).
Proof.
  intros Hs. induction ps as [| p rest IH]; simpl.
  - apply (ret_any R R_refl).
  - apply (respects_seq R R_trans);
      [apply respects_run_phase, Hs | intros _; exact IH].
Qed.

Lemma good_install (schema : Schema) :
  good_schema R schema -> good_schema R (install plugin schema).
Proof.
  intros Hs. unfold install.
  destruct (onSchemaChange plugin) as [h |] eqn:E; [| exact Hs].
  apply (good_onSchemaChange _ _ _ good _ E); assumption.
Qed.

(** Every request keeps the invariant from its fresh world on. *)
Lemma respects_run_request (schema : Schema) (clock : nat -> Z * Z)
    (ps : list phase) :
  good_schema R schema ->
  R (fresh clock)
    (snd (run_request defaultFieldResolver plugin schema clock ps)).
Proof.
  intros Hs. unfold run_request.
  apply (respects_run_phases (install plugin schema) ps (good_install _ Hs)).
Qed.

End RespectsPipeline.

(** ** The hooks useTiming registers *)

Ltac registered_cases :=
  cbv beta iota zeta delta [useTiming sink_slot];
  repeat match goal with
         | |- context [truthy_sink ?s] => destruct (truthy_sink s)
         end;
  reflexivity.

Section Registered.

Variable defaultFieldResolver : ResolverFn.
Variable isIntrospectionOperationString : string -> bool.
Variable rawOptions : option TimingPluginOptions.

#[local] Abbreviation options := (merged rawOptions).
#[local] Abbreviation plugin :=
  (useTiming defaultFieldResolver isIntrospectionOperationString rawOptions).
#[local] Abbreviation enabled c :=
  (truthy_sink (read (sink_slot c (merged rawOptions)))).

Lemma useTiming_onContextBuilding :
  onContextBuilding plugin =
    if enabled ContextBuilding then Some (contextBuildingHook options)
    else None.
Proof.
  registered_cases.
Qed.

Lemma useTiming_onParse :
  onParse plugin =
    if enabled Parsing
    then Some (parseHook isIntrospectionOperationString options)
    else None.
Proof.
  registered_cases.
Qed.

Lemma useTiming_onValidate :
  onValidate plugin =
    if enabled Validation then Some (validateHook options) else None.
Proof.
  registered_cases.
Qed.

Lemma useTiming_onExecute :
  onExecute plugin =
    if enabled Execution then Some (executeHook options) else None.
Proof.
  registered_cases.
Qed.

Lemma useTiming_onSubscribe :
  onSubscribe plugin =
    if enabled Subscription then Some (subscribeHook options) else None.
Proof.
  registered_cases.
Qed.

Lemma useTiming_onSchemaChange :
  onSchemaChange plugin =
    if enabled Subscription && enabled Resolver
    then Some (schemaChangeHook defaultFieldResolver options)
    else None.
Proof.
  registered_cases.
Qed.

(** The subscription branch assigns [onResolverCalled] last. *)
Lemma useTiming_onResolverCalled :
  onResolverCalled plugin =
    if enabled Subscription && enabled Resolver
    then Some (resolverCalledHook_subscription options)
    else if enabled Execution && enabled Resolver
         then Some (resolverCalledHook_execution options)
         else None.
Proof.
  registered_cases.
Qed.

End Registered.


Section RespectsHooks.

Variable R : world -> world -> Prop.
Hypothesis R_refl : forall w, R w w.
Hypothesis R_trans : forall w1 w2 w3, R w1 w2 -> R w2 w3 -> R w1 w3.

Variable okev : event -> Prop.
Hypothesis R_emit : forall e w, okev e -> R w (snd (emit e w)).
Hypothesis R_hrtime : forall c w, okev (EvClock c) -> R w (snd (hrtime c w)).

Variable defaultFieldResolver : ResolverFn.
Variable isIntrospectionOperationString : string -> bool.
Variable options : TimingPluginOptions.

Lemma respects_emit (e : event) : okev e -> respects R any (emit e).
Proof. intros H w. split; [apply R_emit, H | exact I]. Qed.

Lemma respects_hrtime (c : category) :
  okev (EvClock c) -> respects R any (hrtime c).
Proof. intros H w. split; [apply R_hrtime, H | exact I]. Qed.

Lemma respects_deltaFrom (c : category) (start : Z * Z) :
  okev (EvClock c) -> respects R any (deltaFrom c start).
Proof.
  intros H. unfold deltaFrom, hrtime_since.
  apply (respects_seq R R_trans).
  - apply (respects_seq R R_trans); [apply respects_hrtime, H |].
    intros now. apply (respects_ret R R_refl). exact I.
  - intros delta. apply (respects_ret R R_refl). exact I.
Qed.

Lemma respects_call_sink (c : category) (f : Sink) (subject : string)
    (timing : ResultTiming) :
  ok_category okev c ->
  respects R any (call_sink c f subject timing).
Proof.
  intros [Hc Hm]. unfold call_sink.
  apply (respects_seq R R_trans); [apply respects_emit, Hm |].
  intros _. destruct (sink_raises f subject timing) as [e |].
  - apply (respects_throw R R_refl).
  - apply (respects_ret R R_refl). exact I.
Qed.

Lemma respects_call_measured (c : category) (f : Sink) (subject : string)
    (start : Z * Z) :
  ok_category okev c ->
  respects R any (call_measured c (Some f) subject start).
Proof.
  intros Hok. unfold call_measured, call_asserted.
  apply (respects_seq R R_trans); [apply respects_deltaFrom, Hok |].
  intros timing. apply respects_call_sink, Hok.
Qed.

Lemma respects_call_guarded (c : category) (sink : option Sink)
    (subject : string) (start : Z * Z) :
  ok_category okev c ->
  respects R any (call_guarded c sink subject start).
Proof.
  intros Hok. unfold call_guarded.
  destruct sink as [f |]; [| apply (respects_ret R R_refl); exact I].
  apply (respects_seq R R_trans); [apply respects_deltaFrom, Hok |].
  intros timing. apply respects_call_sink, Hok.
Qed.

(** A before-hook that reads the clock and hands back a measuring callback. *)
Lemma respects_start (c : category) (done : Z * Z -> AfterPhase) :
  okev (EvClock c) ->
  (forall start, respects R any (done start)) ->
  respects R (good_after R)
    (bind (hrtime c) (fun start => ret (Some (done start)))).
Proof.
  intros Hc Hdone.
  apply (respects_bind R R_trans any); [apply respects_hrtime, Hc |].
  intros start _. apply (respects_ret R R_refl). simpl. apply Hdone.
Qed.

Lemma good_contextBuildingHook (f : Sink) (current : Context) :
  ok_category okev ContextBuilding ->
  read (onContextBuildingMeasurement options) = Some f ->
  respects R (good_after R) (contextBuildingHook options current).
Proof.
  intros Hc Hf. unfold contextBuildingHook. rewrite Hf.
  destruct (isIntrospection current).
  - apply (respects_ret R R_refl). exact I.
  - apply respects_start; [apply Hc |].
    intros start. apply respects_call_measured, Hc.
Qed.

Lemma good_parseHook (f : Sink) (payload : ParsePayload) :
  ok_category okev Parsing ->
  read (onParsingMeasurement options) = Some f ->
  (forall x, respects R any (extend payload x)) ->
  respects R (good_after R)
    (parseHook isIntrospectionOperationString options payload).
Proof.
  intros Hc Hf Hext. unfold parseHook. rewrite Hf.
  destruct (truthy_flag (read (skipIntrospection options))
            && isIntrospectionOperationString (source payload)).
  - apply (respects_bind R R_trans any); [apply Hext |].
    intros _ _. apply (respects_ret R R_refl). exact I.
  - apply respects_start; [apply Hc |].
    intros start. apply respects_call_measured, Hc.
Qed.

Lemma good_validateHook (f : Sink) (payload : ValidatePayload) :
  ok_category okev Validation ->
  read (onValidationMeasurement options) = Some f ->
  respects R (good_after R) (validateHook options payload).
Proof.
  intros Hc Hf. unfold validateHook. rewrite Hf.
  destruct (isIntrospection (validateContext payload)).
  - apply (respects_ret R R_refl). exact I.
  - apply respects_start; [apply Hc |].
    intros start. apply respects_call_measured, Hc.
Qed.

Lemma good_executeHook (f : Sink) (a : OperationArgs) :
  ok_category okev Execution ->
  read (onExecutionMeasurement options) = Some f ->
  respects R (good_after R) (executeHook options a).
Proof.
  intros Hc Hf. unfold executeHook. rewrite Hf.
  destruct (isIntrospection (contextValue a)).
  - apply (respects_ret R R_refl). exact I.
  - apply respects_start; [apply Hc |].
    intros start. apply respects_call_measured, Hc.
Qed.

Lemma good_subscribeHook (a : OperationArgs) :
  ok_category okev Subscription ->
  respects R (good_after R) (subscribeHook options a).
Proof.
  intros Hc. unfold subscribeHook.
  destruct (isIntrospection (contextValue a)).
  - apply (respects_ret R R_refl). exact I.
  - apply respects_start; [apply Hc |].
    intros start. apply respects_call_guarded, Hc.
Qed.

Lemma good_resolverCalledHook_execution (f : Sink) :
  ok_category okev Resolver ->
  read (onResolverMeasurement options) = Some f ->
  good_onResolverCalled R (resolverCalledHook_execution options).
Proof.
  intros Hc Hf payload _. unfold resolverCalledHook_execution. rewrite Hf.
  apply (respects_bind R R_trans any); [apply respects_hrtime, Hc |].
  intros start _. apply (respects_ret R R_refl).
  split; [exact I |]. intros v.
  apply (respects_seq R R_trans); [apply respects_call_measured, Hc |].
  intros _. apply (respects_ret R R_refl). exact I.
Qed.

Lemma good_resolverCalledHook_subscription :
  ok_category okev Resolver ->
  good_onResolverCalled R (resolverCalledHook_subscription options).
Proof.
  intros Hc payload _. unfold resolverCalledHook_subscription.
  apply (respects_bind R R_trans any); [apply respects_hrtime, Hc |].
  intros start _. apply (respects_ret R R_refl).
  split; [exact I |]. intros v.
  apply (respects_seq R R_trans); [apply respects_call_guarded, Hc |].
  intros _. apply (respects_ret R R_refl). exact I.
Qed.

Lemma good_schemaChangeHook (schema : Schema) :
  ok_category okev Resolver ->
  good_resolver R defaultFieldResolver ->
  good_schema R schema ->
  good_schema R (schemaChangeHook defaultFieldResolver options schema).
Proof.
  intros Hc Hd Hs. unfold schemaChangeHook, mapSchema, good_schema.
  rewrite Forall_map. simpl.
  eapply Forall_impl; [| exact Hs].
  intros [n field] Hf. simpl in *.
  apply (good_wrapResolver R R_refl R_trans); try assumption.
  apply good_resolverCalledHook_subscription, Hc.
Qed.

End RespectsHooks.

Section RespectsPlugin.

Variable R : world -> world -> Prop.
Hypothesis R_refl : forall w, R w w.
Hypothesis R_trans : forall w1 w2 w3, R w1 w2 -> R w2 w3 -> R w1 w3.

Variable okev : event -> Prop.
Hypothesis R_emit : forall e w, okev e -> R w (snd (emit e w)).
Hypothesis R_hrtime : forall c w, okev (EvClock c) -> R w (snd (hrtime c w)).

Variable defaultFieldResolver : ResolverFn.
Variable isIntrospectionOperationString : string -> bool.
Variable rawOptions : option TimingPluginOptions.

Hypothesis enabled_ok :
  forall c, truthy_sink (read (sink_slot c (merged rawOptions))) = true ->
  ok_category okev c.

Lemma truthy_sink_read (s : option Sink) :
  truthy_sink s = true -> exists f, s = Some f.
Proof. destruct s as [f |]; [eauto | discriminate]. Qed.

Ltac registered E lemma c :=
  rewrite lemma in E;
  let En := fresh "En" in
  destruct (truthy_sink (read (sink_slot c (merged rawOptions)))) eqn:En;
  [ injection E as <- | discriminate E ].

(** Every hook [useTiming] registers keeps an invariant that tolerates the
    events of the enabled categories. *)
Lemma good_useTiming :
  good_plugin R defaultFieldResolver
    (useTiming defaultFieldResolver isIntrospectionOperationString rawOptions).
Proof.
  constructor.
  - intros h E current. registered E useTiming_onContextBuilding ContextBuilding.
    destruct (truthy_sink_read _ En) as [f Hf].
    eapply good_contextBuildingHook; eauto.
  - intros h E payload Hext. registered E useTiming_onParse Parsing.
    destruct (truthy_sink_read _ En) as [f Hf].
    eapply good_parseHook; eauto.
  - intros h E payload. registered E useTiming_onValidate Validation.
    destruct (truthy_sink_read _ En) as [f Hf].
    eapply good_validateHook; eauto.
  - intros h E a. registered E useTiming_onExecute Execution.
    destruct (truthy_sink_read _ En) as [f Hf].
    eapply good_executeHook; eauto.
  - intros h E a. registered E useTiming_onSubscribe Subscription.
    eapply good_subscribeHook; eauto.
  - intros h E schema Hd Hs. rewrite useTiming_onSchemaChange in E.
    destruct (truthy_sink (read (sink_slot Subscription (merged rawOptions))));
      [| discriminate E].
    destruct (truthy_sink (read (sink_slot Resolver (merged rawOptions))))
      eqn:En; [| discriminate E].
    injection E as <-. eapply good_schemaChangeHook; eauto.
  - intros h E. rewrite useTiming_onResolverCalled in E.
    destruct (truthy_sink (read (sink_slot Resolver (merged rawOptions))))
      eqn:En.
    + destruct (truthy_sink_read _ En) as [f Hf].
      destruct (truthy_sink (read (sink_slot Subscription (merged rawOptions))));
        [| destruct (truthy_sink
                       (read (sink_slot Execution (merged rawOptions))))];
        simpl in E; try discriminate E; injection E as <-.
      * eapply good_resolverCalledHook_subscription; eauto.
      * eapply good_resolverCalledHook_execution; eauto.
    + rewrite !andb_false_r in E. discriminate E.
Qed.

End RespectsPlugin.

(** ** Schemas given by description *)

Section RespectsDescribed.

Variable R : world -> world -> Prop.
Hypothesis R_refl : forall w, R w w.
Hypothesis R_trans : forall w1 w2 w3, R w1 w2 -> R w2 w3 -> R w1 w3.

Variable okev : event -> Prop.
Hypothesis R_emit : forall e w, okev e -> R w (snd (emit e w)).
Hypothesis calls_ok : forall name, okev (EvResolverCall name).

Lemma good_named_resolver (name : string)
    (behaviour : ResolverArgs -> outcome) :
  good_resolver R (resolver name behaviour).
Proof.
  intros a. unfold resolver.
  apply (respects_seq R R_trans).
  - intros w. split; [apply R_emit, calls_ok | exact I].
  - intros _. destruct (behaviour a).
    + apply (respects_ret R R_refl). exact I.
    + apply respects_throw. exact R_refl.
Qed.

Lemma good_schema_of (ds : list FieldDescription) :
  good_schema R (schema_of ds).
Proof.
  unfold good_schema, schema_of. rewrite Forall_map.
  apply Forall_forall. intros d _. unfold good_field, field_of. simpl.
  destruct (field_resolver d) as [[name behaviour] |]; [| exact I].
  apply good_named_resolver.
Qed.

End RespectsDescribed.

(** ** Two invariants: what a trace may gain, and an untouched context *)

Lemma grows_by_refl (P : event -> bool) (w : world) : grows_by P w w.
Proof. exists []. rewrite app_nil_r. split; reflexivity. Qed.

Lemma grows_by_trans (P : event -> bool) (w1 w2 w3 : world) :
  grows_by P w1 w2 -> grows_by P w2 w3 -> grows_by P w1 w3.
Proof.
  intros (e1 & T1 & F1) (e2 & T2 & F2). exists (e1 ++ e2). split.
  - rewrite T2, T1, app_assoc. reflexivity.
  - rewrite forallb_app, F1, F2. reflexivity.
Qed.

Lemma grows_by_emit (P : event -> bool) (e : event) (w : world) :
  P e = true -> grows_by P w (snd (emit e w)).
Proof.
  intros H. exists [e]. simpl. rewrite H. split; reflexivity.
Qed.

Lemma grows_by_hrtime (P : event -> bool) (c : category) (w : world) :
  P (EvClock c) = true -> grows_by P w (snd (hrtime c w)).
Proof.
  intros H. exists [EvClock c]. simpl. rewrite H. split; reflexivity.
Qed.

Lemma grows_by_extendContext (P : event -> bool) (x : Context) :
  respects (grows_by P) any (extendContext x).
Proof.
  intros w. split; [| exact I]. exists []. simpl.
  rewrite app_nil_r. split; reflexivity.
Qed.

(** Whatever the phases of a request are, its trace gains only events of the
    enabled categories and calls of resolvers. *)
Lemma run_phases_grows_by (P : event -> bool)
    (isIntrospectionOperationString : string -> bool)
    (behaviour : ResolverArgs -> outcome)
    (rawOptions : option TimingPluginOptions)
    (fields : list FieldDescription) (ps : list phase) (w : world) :
  (forall c, truthy_sink (read (sink_slot c (merged rawOptions))) = true ->
             ok_category (fun e => P e = true) c) ->
  (forall name, P (EvResolverCall name) = true) ->
  let plugin := useTiming (default_resolver behaviour)
                  isIntrospectionOperationString rawOptions in
  grows_by P w
    (snd (run_phases (default_resolver behaviour) plugin
            (install plugin (schema_of fields)) ps w)).
Proof.
  intros Hen Hcalls plugin.
  pose proof (grows_by_refl P) as Hrefl.
  pose proof (grows_by_trans P) as Htrans.
  assert (Hd : good_resolver (grows_by P) (default_resolver behaviour)).
  { apply (good_named_resolver _ Hrefl Htrans (fun e => P e = true)).
    - intros e w0. apply grows_by_emit.
    - exact Hcalls. }
  assert (Hp : good_plugin (grows_by P) (default_resolver behaviour) plugin).
  { apply (good_useTiming _ Hrefl Htrans (fun e => P e = true)).
    - intros e w0. apply grows_by_emit.
    - intros c w0. apply grows_by_hrtime.
    - exact Hen. }
  apply (respects_run_phases _ Hrefl Htrans _ Hd plugin Hp).
  - intros _ x. apply grows_by_extendContext.
  - apply (good_install _ _ Hd plugin Hp).
    apply (good_schema_of _ Hrefl Htrans (fun e => P e = true)).
    + intros e w0. apply grows_by_emit.
    + exact Hcalls.
Qed.

Lemma same_context_trans (w1 w2 w3 : world) :
  same_context w1 w2 -> same_context w2 w3 -> same_context w1 w3.
Proof. unfold same_context. intros H1 H2. rewrite H2. exact H1. Qed.

(** Without a parse hook no phase writes to the request context. *)
Lemma run_phases_same_context
    (isIntrospectionOperationString : string -> bool)
    (behaviour : ResolverArgs -> outcome)
    (rawOptions : option TimingPluginOptions)
    (fields : list FieldDescription) (ps : list phase) (w : world) :
  let plugin := useTiming (default_resolver behaviour)
                  isIntrospectionOperationString rawOptions in
  onParse plugin = None ->
  context (snd (run_phases (default_resolver behaviour) plugin
                  (install plugin (schema_of fields)) ps w))
  = context w.
Proof.
  intros plugin Hparse.
  assert (Hrefl : forall w0, same_context w0 w0) by reflexivity.
  pose proof same_context_trans as Htrans.
  assert (Hemit : forall e w0, True -> same_context w0 (snd (emit e w0)))
    by reflexivity.
  assert (Hclock : forall c w0, True -> same_context w0 (snd (hrtime c w0)))
    by reflexivity.
  assert (Hd : good_resolver same_context (default_resolver behaviour)).
  { apply (good_named_resolver _ Hrefl Htrans (fun _ => True) Hemit).
    intros _. exact I. }
  assert (Hp : good_plugin same_context (default_resolver behaviour) plugin).
  { apply (good_useTiming _ Hrefl Htrans (fun _ => True) Hemit Hclock).
    intros c _. split; [exact I | intros; exact I]. }
  apply (respects_run_phases _ Hrefl Htrans _ Hd plugin Hp).
  - rewrite Hparse. discriminate.
  - apply (good_install _ _ Hd plugin Hp).
    apply (good_schema_of _ Hrefl Htrans (fun _ => True) Hemit).
    intros _. exact I.
Qed.

(** ** Disabled categories *)

Lemma category_eqb_eq (a b : category) : category_eqb a b = true -> a = b.
Proof. destruct a, b; simpl; intros H; try discriminate H; reflexivity. Qed.

Lemma merged_explicit_undefined (raw : TimingPluginOptions) (c : category) :
  sink_slot c raw = Some None ->
  read (sink_slot c (merged (Some raw))) = None.
Proof.
  intros H. destruct c; simpl in *; rewrite H; reflexivity.
Qed.

Lemma disabled_registers_nothing
    (defaultFieldResolver : ResolverFn)
    (isIntrospectionOperationString : string -> bool)
    (rawOptions : option TimingPluginOptions) (c : category) :
  read (sink_slot c (merged rawOptions)) = None ->
  registers c (useTiming defaultFieldResolver isIntrospectionOperationString
                 rawOptions) = false.
Proof.
  intros H. destruct c; unfold registers;
    rewrite ?useTiming_onContextBuilding, ?useTiming_onParse,
      ?useTiming_onValidate, ?useTiming_onExecute, ?useTiming_onSubscribe,
      ?useTiming_onSchemaChange, ?useTiming_onResolverCalled;
    rewrite H; simpl; rewrite ?andb_false_r; reflexivity.
Qed.

Lemma harmless_enabled (rawOptions : option TimingPluginOptions)
    (c c' : category) :
  read (sink_slot c (merged rawOptions)) = None ->
  truthy_sink (read (sink_slot c' (merged rawOptions))) = true ->
  ok_category (fun e => harmless c e = true) c'.
Proof.
  intros Hc Hc'.
  assert (Hne : category_eqb c c' = false).
  { destruct (category_eqb c c') eqn:E; [| reflexivity].
    apply category_eqb_eq in E. subst c'. rewrite Hc in Hc'. discriminate Hc'. }
  split; [| intros sink subject timing]; unfold harmless; simpl;
    rewrite Hne; reflexivity.
Qed.

(** C9.  When the caller's options carry a category's sink with the value
    [undefined], the merged options have no sink for the category, the
    plugin object has no hook for it, and in every run, from any world and
    through any phases, the trace gains no clock read and no sink call of
    that category and no call of an undefined sink. *)
Theorem disabled_category_has_no_hook
    (isIntrospectionOperationString : string -> bool)
    (behaviour : ResolverArgs -> outcome)
    (raw : TimingPluginOptions) (c : category) :
  sink_slot c raw = Some None ->
  let plugin := useTiming (default_resolver behaviour)
                  isIntrospectionOperationString (Some raw) in
  read (sink_slot c (merged (Some raw))) = None
  /\ registers c plugin = false
  /\ forall fields ps w,
       grows_by (harmless c) w
         (snd (run_phases (default_resolver behaviour) plugin
                 (install plugin (schema_of fields)) ps w)).
Proof.
  intros H plugin.
  pose proof (merged_explicit_undefined raw c H) as Hm.
  split; [exact Hm |]. split.
  - apply disabled_registers_nothing. exact Hm.
  - intros fields ps w. apply run_phases_grows_by.
    + intros c' Hc'. apply (harmless_enabled (Some raw) c c' Hm Hc').
    + intros name. reflexivity.
Qed.

Lemma disabled_category_has_no_hook_witness :
  let raw := {| skipIntrospection := Some (Some true);
                onContextBuildingMeasurement := None;
                onExecutionMeasurement := None;
                onSubscriptionMeasurement := None;
                onParsingMeasurement := Some None;
                onValidationMeasurement := None;
                onResolverMeasurement := None |} in
  let behaviour := fun _ : ResolverArgs => Returns VUndefined in
  let plugin := useTiming (default_resolver behaviour) (fun _ => true)
                  (Some raw) in
  sink_slot Parsing raw = Some None
  /\ read (sink_slot Parsing (merged (Some raw))) = None
  /\ registers Parsing plugin = false
  /\ forall fields ps w,
       grows_by (harmless Parsing) w
         (snd (run_phases (default_resolver behaviour) plugin
                 (install plugin (schema_of fields)) ps w)).
Proof.
  split; [reflexivity |].
  apply (disabled_category_has_no_hook (fun _ => true)
           (fun _ => Returns VUndefined)
           {| skipIntrospection := Some (Some true);
              onContextBuildingMeasurement := None;
              onExecutionMeasurement := None;
              onSubscriptionMeasurement := None;
              onParsingMeasurement := Some None;
              onValidationMeasurement := None;
              onResolverMeasurement := None |}
           Parsing).
  reflexivity.
Defined.

(** ** The marker and the parse hook *)

Lemma skipIntrospection_is_read_by_parse_only
    (defaultFieldResolver : ResolverFn)
    (isIntrospectionOperationString : string -> bool)
    (raw : TimingPluginOptions) (flag : slot bool) :
  onParsingMeasurement raw = Some None ->
  useTiming defaultFieldResolver isIntrospectionOperationString
    (Some (with_skipIntrospection flag raw))
  = useTiming defaultFieldResolver isIntrospectionOperationString (Some raw).
Proof.
  intros H. destruct raw as [skip cb ex su pa va re]. simpl in H. subst pa.
  unfold useTiming, merged, with_skipIntrospection, spread. simpl.
  repeat match goal with
         | |- context [truthy_sink ?s] => destruct (truthy_sink s)
         end; reflexivity.
Qed.

(** ** Every phase of an enabled category is measured once *)

Lemma measurements_app (c : category) (l1 l2 : list event) :
  measurements c (l1 ++ l2) = measurements c l1 ++ measurements c l2.
Proof.
  induction l1 as [| e l1 IH]; simpl; [reflexivity |].
  destruct e; simpl; try exact IH.
  destruct (category_eqb c c0); simpl; rewrite IH; reflexivity.
Qed.

Lemma measurements_unconcerned (c : category) (evs : list event) :
  forallb (fun e => negb (concerns c e)) evs = true ->
  measurements c evs = [].
Proof.
  induction evs as [| e evs IH]; simpl; [reflexivity |].
  intros H. apply andb_prop in H. destruct H as [He Hrest].
  destruct e; simpl in *; try (apply IH; exact Hrest).
  destruct (category_eqb c c0); [discriminate He | apply IH; exact Hrest].
Qed.

Lemma run_fields_normal (defaultFieldResolver : ResolverFn) (plugin : Plugin)
    (schema : Schema) (native : bool) (calls : list FieldCall) (w : world) :
  fst (run_fields defaultFieldResolver plugin schema native calls w)
  = Normal tt.
Proof.
  revert w. induction calls as [| call rest IH]; intros w; simpl.
  - reflexivity.
  - unfold bind at 1.
    assert (H : fst (run_field defaultFieldResolver plugin schema native call w)
                = Normal tt).
    { unfold run_field.
      destruct (lookup_field (call_field call) schema); [| reflexivity].
      unfold bind at 1, try_ at 1.
      match goal with |- context [let (r, w') := ?m w in _] => destruct (m w) end.
      reflexivity. }
    destruct (run_field defaultFieldResolver plugin schema native call w)
      as [r w1].
    simpl in H. subst r. apply IH.
Qed.

(** Resolving fields leaves the measurements of the phase categories alone. *)
Lemma run_fields_unconcerned
    (isIntrospectionOperationString : string -> bool)
    (behaviour : ResolverArgs -> outcome)
    (rawOptions : option TimingPluginOptions)
    (fields : list FieldDescription) (c : category)
    (native : bool) (calls : list FieldCall) (w : world) :
  c <> Resolver ->
  let plugin := useTiming (default_resolver behaviour)
                  isIntrospectionOperationString rawOptions in
  grows_by (fun e => negb (concerns c e)) w
    (snd (run_fields (default_resolver behaviour) plugin
            (install plugin (schema_of fields)) native calls w)).
Proof.
  intros Hc plugin.
  set (P := fun e => negb (concerns c e)).
  pose proof (grows_by_refl P) as Hrefl.
  pose proof (grows_by_trans P) as Htrans.
  assert (Hemit : forall e w0, P e = true -> grows_by P w0 (snd (emit e w0)))
    by (intros e w0; apply grows_by_emit).
  assert (Hclock : forall k w0, P (EvClock k) = true ->
                                grows_by P w0 (snd (hrtime k w0)))
    by (intros k w0; apply grows_by_hrtime).
  assert (Hres : ok_category (fun e => P e = true) Resolver).
  { assert (Hne : category_eqb c Resolver = false).
    { destruct (category_eqb c Resolver) eqn:E; [| reflexivity].
      apply category_eqb_eq in E. contradiction. }
    split; [| intros sink subject timing]; unfold P; simpl;
      rewrite Hne; reflexivity. }
  assert (Hd : good_resolver (grows_by P) (default_resolver behaviour)).
  { apply (good_named_resolver _ Hrefl Htrans (fun e => P e = true) Hemit).
    intros name. reflexivity. }
  assert (Hs : good_schema (grows_by P) (schema_of fields)).
  { apply (good_schema_of _ Hrefl Htrans (fun e => P e = true) Hemit).
    intros name. reflexivity. }
  apply (respects_run_fields _ Hrefl Htrans _ Hd plugin).
  - intros h E. unfold plugin in E. rewrite useTiming_onResolverCalled in E.
    destruct (truthy_sink (read (sink_slot Resolver (merged rawOptions))))
      eqn:En; [| rewrite !andb_false_r in E; discriminate E].
    destruct (truthy_sink_read _ En) as [f Hf].
    destruct (truthy_sink (read (sink_slot Subscription (merged rawOptions))));
      [| destruct (truthy_sink
                     (read (sink_slot Execution (merged rawOptions))))];
      simpl in E; try discriminate E; injection E as <-.
    + apply (good_resolverCalledHook_subscription _ Hrefl Htrans
               (fun e => P e = true) Hemit Hclock). exact Hres.
    + apply (good_resolverCalledHook_execution _ Hrefl Htrans
               (fun e => P e = true) Hemit Hclock _ f); [exact Hres | exact Hf].
  - unfold install, plugin. rewrite useTiming_onSchemaChange.
    destruct (truthy_sink (read (sink_slot Subscription (merged rawOptions)))
              && truthy_sink (read (sink_slot Resolver (merged rawOptions))));
      [| exact Hs].
    apply (good_schemaChangeHook _ Hrefl Htrans (fun e => P e = true)
             Hemit Hclock); assumption.
Qed.

(** A call of a sink leaves one measurement, whether or not the sink
    throws. *)
Lemma call_sink_world (c : category) (f : Sink) (subject : string)
    (timing : ResultTiming) (w : world) :
  snd (call_sink c f subject timing w)
  = {| clock := clock w; ticks := ticks w; context := context w;
       trace := trace w ++ [EvMeasurement c (sink_name f) subject timing] |}.
Proof.
  unfold call_sink, bind, emit.
  destruct (sink_raises f subject timing); reflexivity.
Qed.

Lemma call_sink_result (c : category) (f : Sink) (subject : string)
    (timing : ResultTiming) (w : world) :
  fst (call_sink c f subject timing w)
  = match sink_raises f subject timing with
    | Some e => Abrupt e
    | None => Normal tt
    end.
Proof.
  unfold call_sink, bind, emit.
  destruct (sink_raises f subject timing); reflexivity.
Qed.

Lemma call_measured_world (c : category) (f : Sink) (subject : string)
    (start : Z * Z) (w : world) :
  let timing := timing_of_delta (hrtime_diff (clock w (ticks w)) start) in
  snd (call_measured c (Some f) subject start w)
  = {| clock := clock w; ticks := S (ticks w); context := context w;
       trace := trace w ++ [EvClock c;
                            EvMeasurement c (sink_name f) subject timing] |}.
Proof.
  intros timing. unfold call_measured, call_asserted, bind at 1.
  rewrite deltaFrom_run, call_sink_world. cbn [clock ticks context trace].
  rewrite <- app_assoc. reflexivity.
Qed.

Lemma call_measured_reports (c : category) (f : Sink) (subject : string)
    (start : Z * Z) (w : world) :
  exists t,
    measurements c (trace (snd (call_measured c (Some f) subject start w)))
    = measurements c (trace w) ++ [t].
Proof.
  eexists. rewrite call_measured_world. cbn [trace].
  rewrite !measurements_app. simpl.
  assert (E : category_eqb c c = true) by (destruct c; reflexivity).
  rewrite E. reflexivity.
Qed.

Lemma call_guarded_reports (c : category) (f : Sink) (subject : string)
    (start : Z * Z) (w : world) :
  exists t,
    measurements c (trace (snd (call_guarded c (Some f) subject start w)))
    = measurements c (trace w) ++ [t].
Proof. apply call_measured_reports. Qed.

(** A phase whose before-hook reads the clock and whose callback reports:
    whatever happens in between, if it leaves the category alone. *)
Lemma measured_bracket (c : category) (done : Z * Z -> AfterPhase)
    (body : M unit) (w : world) :
  (forall w1, fst (body w1) = Normal tt) ->
  (forall w1, grows_by (fun e => negb (concerns c e)) w1 (snd (body w1))) ->
  (forall start w2, exists t,
      measurements c (trace (snd (done start w2)))
      = measurements c (trace w2) ++ [t]) ->
  exists t,
    measurements c
      (trace (snd (bind (bind (hrtime c) (fun start => ret (Some (done start))))
                     (fun after =>
                        bind body
                          (fun _ => match after with
                                    | Some callback => callback
                                    | None => ret tt
                                    end)) w)))
    = measurements c (trace w) ++ [t].
Proof.
  intros Hnormal Hbody Hdone.
  unfold bind, hrtime, ret. cbv beta iota.
  match goal with
  | |- context [body ?w1] =>
      specialize (Hnormal w1); specialize (Hbody w1);
      destruct (body w1) as [r w2]
  end.
  simpl in Hnormal. subst r.
  destruct Hbody as (evs & Htrace & Hevs). simpl in Htrace.
  match goal with
  | |- context [done ?start w2] => destruct (Hdone start w2) as [t Ht]
  end.
  exists t. rewrite Ht, Htrace. simpl.
  rewrite !measurements_app, (measurements_unconcerned c evs Hevs). simpl.
  rewrite !app_nil_r. reflexivity.
Qed.

(** With its sink enabled and the marker not set, a phase hands exactly one
    measurement to the sink of its category. *)
Lemma phase_measured_once
    (isIntrospectionOperationString : string -> bool)
    (behaviour : ResolverArgs -> outcome)
    (rawOptions : option TimingPluginOptions)
    (fields : list FieldDescription) (p : phase) (w : world) :
  let plugin := useTiming (default_resolver behaviour)
                  isIntrospectionOperationString rawOptions in
  let c := phase_category p in
  truthy_sink (read (sink_slot c (merged rawOptions))) = true ->
  isIntrospection (context w) = false ->
  skipped isIntrospectionOperationString (merged rawOptions) p = false ->
  exists t,
    measurements c
      (trace (snd (run_phase (default_resolver behaviour) plugin
                     (install plugin (schema_of fields)) p w)))
    = measurements c (trace w) ++ [t].
Proof.
  intros plugin c Hen Hctx Hskip.
  destruct (truthy_sink_read _ Hen) as [f Hf].
  assert (Hret : forall w1, grows_by (fun e => negb (concerns c e)) w1
                              (snd (ret tt w1)))
    by (intros w1; apply grows_by_refl).
  unfold run_phase, bind at 1, get_context.
  destruct p as [| src | document | name native calls | name native calls];
    unfold c in *; cbv beta iota delta [sink_slot phase_category skipped] in *;
    unfold plugin at 1.
  - rewrite useTiming_onContextBuilding. cbv beta iota delta [sink_slot].
    rewrite Hen. unfold bracket, contextBuildingHook. rewrite Hctx, Hf.
    apply measured_bracket; [reflexivity | exact Hret |].
    intros start w2. apply call_measured_reports.
  - rewrite useTiming_onParse. cbv beta iota delta [sink_slot].
    rewrite Hen. unfold bracket, parseHook. cbv beta iota delta [source].
    rewrite Hskip, Hf.
    apply measured_bracket; [reflexivity | exact Hret |].
    intros start w2. apply call_measured_reports.
  - rewrite useTiming_onValidate. cbv beta iota delta [sink_slot].
    rewrite Hen. unfold bracket, validateHook.
    cbv beta iota delta [validateContext]. rewrite Hctx, Hf.
    apply measured_bracket; [reflexivity | exact Hret |].
    intros start w2. apply call_measured_reports.
  - rewrite useTiming_onExecute. cbv beta iota delta [sink_slot].
    rewrite Hen. unfold bracket, executeHook.
    cbv beta iota delta [contextValue]. rewrite Hctx, Hf.
    apply measured_bracket.
    + intros w1. apply run_fields_normal.
    + intros w1. apply run_fields_unconcerned. discriminate.
    + intros start w2. apply call_measured_reports.
  - rewrite useTiming_onSubscribe. cbv beta iota delta [sink_slot].
    rewrite Hen. unfold bracket, subscribeHook.
    cbv beta iota delta [contextValue]. rewrite Hctx, Hf.
    apply measured_bracket.
    + intros w1. apply run_fields_normal.
    + intros w1. apply run_fields_unconcerned. discriminate.
    + intros start w2. apply call_guarded_reports.
Qed.

(** C10.  When the caller's options carry the parsing sink with the value
    [undefined], the plugin has no parse hook; no phase of any request
    writes to the request context, so a request that starts without the
    marker ends without it; [skipIntrospection] makes no difference to the
    plugin; and after any phases, every phase of an enabled category is
    measured once, whatever the operation text is classified as. *)
Theorem marker_needs_the_parse_hook
    (isIntrospectionOperationString : string -> bool)
    (behaviour : ResolverArgs -> outcome)
    (raw : TimingPluginOptions) :
  onParsingMeasurement raw = Some None ->
  let plugin := useTiming (default_resolver behaviour)
                  isIntrospectionOperationString (Some raw) in
  let run fields ps w :=
    snd (run_phases (default_resolver behaviour) plugin
           (install plugin (schema_of fields)) ps w) in
  onParse plugin = None
  /\ (forall fields ps w, context (run fields ps w) = context w)
  /\ (forall fields clock ps,
        isIntrospection
          (context (snd (run_request (default_resolver behaviour) plugin
                           (schema_of fields) clock ps))) = false)
  /\ (forall flag,
        useTiming (default_resolver behaviour) isIntrospectionOperationString
          (Some (with_skipIntrospection flag raw)) = plugin)
  /\ (forall fields ps p w,
        truthy_sink (read (sink_slot (phase_category p) (merged (Some raw))))
        = true ->
        isIntrospection (context w) = false ->
        exists t,
          measurements (phase_category p)
            (trace (snd (run_phase (default_resolver behaviour) plugin
                           (install plugin (schema_of fields)) p
                           (run fields ps w))))
          = measurements (phase_category p) (trace (run fields ps w)) ++ [t]).
Proof.
  intros H plugin run.
  pose proof (merged_explicit_undefined raw Parsing H) as Hm.
  assert (Hparse : onParse plugin = None).
  { unfold plugin. rewrite useTiming_onParse, Hm. reflexivity. }
  assert (Hsame : forall fields ps w, context (run fields ps w) = context w).
  { intros fields ps w. apply run_phases_same_context. exact Hparse. }
  split; [exact Hparse |]. split; [exact Hsame |]. split; [| split].
  - intros fields clock ps. unfold run_request.
    change (isIntrospection (context (run fields ps (fresh clock))) = false).
    rewrite Hsame. reflexivity.
  - intros flag. apply skipIntrospection_is_read_by_parse_only. exact H.
  - intros fields ps p w Hen Hctx.
    apply phase_measured_once.
    + exact Hen.
    + rewrite Hsame. exact Hctx.
    + destruct p; try reflexivity.
      cbv beta iota delta [phase_category] in Hen.
      rewrite Hm in Hen. discriminate Hen.
Qed.

Lemma marker_needs_the_parse_hook_witness :
  let raw := {| skipIntrospection := Some (Some true);
                onContextBuildingMeasurement := None;
                onExecutionMeasurement := None;
                onSubscriptionMeasurement := None;
                onParsingMeasurement := Some None;
                onValidationMeasurement := None;
                onResolverMeasurement := None |} in
  let behaviour := fun _ : ResolverArgs => Returns VUndefined in
  let plugin := useTiming (default_resolver behaviour) (fun _ => true)
                  (Some raw) in
  onParsingMeasurement raw = Some None
  /\ onParse plugin = None
  /\ forall fields clock ps,
       isIntrospection
         (context (snd (run_request (default_resolver behaviour) plugin
                          (schema_of fields) clock ps))) = false.
Proof.
  split; [reflexivity |].
  pose proof (marker_needs_the_parse_hook (fun _ => true)
                (fun _ => Returns VUndefined)
                {| skipIntrospection := Some (Some true);
                   onContextBuildingMeasurement := None;
                   onExecutionMeasurement := None;
                   onSubscriptionMeasurement := None;
                   onParsingMeasurement := Some None;
                   onValidationMeasurement := None;
                   onResolverMeasurement := None |}
                eq_refl) as (Hparse & _ & Hmarker & _).
  split; [exact Hparse | exact Hmarker].
Defined.

(** ** Introspection *)

Lemma bind_run {A B} (m : M A) (k : A -> M B) (w w' : world) (a : A) :
  m w = (Normal a, w') -> bind m k w = k a w'.
Proof. intros H. unfold bind. rewrite H. reflexivity. Qed.

(** The parse hook of an operation classified as introspection sets the
    marker and neither reads the clock nor calls a sink. *)
Lemma parse_sets_marker
    (defaultFieldResolver : ResolverFn)
    (isIntrospectionOperationString : string -> bool)
    (rawOptions : option TimingPluginOptions)
    (schema : Schema) (src : string) (w : world) :
  truthy_sink (read (sink_slot Parsing (merged rawOptions))) = true ->
  skipped isIntrospectionOperationString (merged rawOptions) (ParsePhase src)
  = true ->
  run_phase defaultFieldResolver
    (useTiming defaultFieldResolver isIntrospectionOperationString rawOptions)
    schema (ParsePhase src) w
  = extendContext {| isIntrospection := true |} w.
Proof.
  intros Hen Hskip.
  unfold run_phase, bind at 1, get_context.
  rewrite useTiming_onParse, Hen.
  unfold bracket, parseHook. cbv beta iota delta [source skipped] in *.
  rewrite Hskip. reflexivity.
Qed.

(** Once the marker is set, a phase other than parsing leaves its own
    category alone: no clock read, no sink call. *)
Lemma marked_phase_is_unmeasured
    (isIntrospectionOperationString : string -> bool)
    (behaviour : ResolverArgs -> outcome)
    (rawOptions : option TimingPluginOptions)
    (fields : list FieldDescription) (p : phase) (w : world) :
  let plugin := useTiming (default_resolver behaviour)
                  isIntrospectionOperationString rawOptions in
  isIntrospection (context w) = true ->
  phase_category p <> Parsing ->
  grows_by (fun e => negb (concerns (phase_category p) e)) w
    (snd (run_phase (default_resolver behaviour) plugin
            (install plugin (schema_of fields)) p w)).
Proof.
  intros plugin Hctx Hp.
  assert (Hquiet : forall (body : M unit) w1,
             grows_by (fun e => negb (concerns (phase_category p) e)) w1
               (snd (body w1)) ->
             fst (body w1) = Normal tt ->
             grows_by (fun e => negb (concerns (phase_category p) e)) w1
               (snd (bind (ret None)
                       (fun after : option AfterPhase =>
                          bind body
                            (fun _ => match after with
                                      | Some callback => callback
                                      | None => ret tt
                                      end)) w1))).
  { intros body w1 Hb Hn. unfold bind, ret.
    destruct (body w1) as [r w2]. simpl in *. subst r. exact Hb. }
  unfold run_phase, bind at 1, get_context.
  destruct p as [| src | document | name native calls | name native calls];
    cbv beta iota delta [phase_category] in *; unfold plugin at 1.
  - rewrite useTiming_onContextBuilding.
    destruct (truthy_sink _); unfold bracket; [| apply grows_by_refl].
    unfold contextBuildingHook. rewrite Hctx.
    apply Hquiet; [apply grows_by_refl | reflexivity].
  - contradiction.
  - rewrite useTiming_onValidate.
    destruct (truthy_sink _); unfold bracket; [| apply grows_by_refl].
    unfold validateHook. cbv beta iota delta [validateContext]. rewrite Hctx.
    apply Hquiet; [apply grows_by_refl | reflexivity].
  - rewrite useTiming_onExecute.
    destruct (truthy_sink _); unfold bracket;
      [| apply run_fields_unconcerned; discriminate].
    unfold executeHook. cbv beta iota delta [contextValue]. rewrite Hctx.
    apply Hquiet;
      [apply run_fields_unconcerned; discriminate | apply run_fields_normal].
  - rewrite useTiming_onSubscribe.
    destruct (truthy_sink _); unfold bracket;
      [| apply run_fields_unconcerned; discriminate].
    unfold subscribeHook. cbv beta iota delta [contextValue]. rewrite Hctx.
    apply Hquiet;
      [apply run_fields_unconcerned; discriminate | apply run_fields_normal].
Qed.

(** C5, at a failing input.  [skipIntrospection] is set, the other options
    are the defaults, and the operation text is classified as an
    introspection query.  The parse hook sets the marker, and parsing,
    validation, context building and execution read no clock and report
    nothing; but the engine's per-resolver hook does not look at the marker:
    the resolver called during execution is timed and reported to the
    resolver sink. *)
Theorem introspection_resolver_is_measured
    (isIntrospectionOperationString : string -> bool)
    (behaviour : ResolverArgs -> outcome)
    (src document name : string) (clock : nat -> Z * Z) :
  isIntrospectionOperationString src = true ->
  let raw := with_skipIntrospection (Some (Some true)) no_options in
  let plugin := useTiming (default_resolver behaviour)
                  isIntrospectionOperationString (Some raw) in
  let fields := [{| field_name := "me"; field_type := "User";
                    field_resolver := Some ("me", fun _ => Returns VNull) |}] in
  let me := {| call_field := "me"; call_root := VUndefined;
               call_args := VUndefined |} in
  let w := snd (run_request (default_resolver behaviour) plugin
                  (schema_of fields) clock
                  [ParsePhase src; ValidatePhase document;
                   ContextBuildingPhase; ExecutePhase name true [me]]) in
  isIntrospection (context w) = true
  /\ trace w = [EvClock Resolver; EvClock Resolver; EvResolverCall "me";
                EvClock Resolver;
                EvMeasurement Resolver "console.log" "me"
                  (timing_of_delta (hrtime_diff (clock 2%nat) (clock 0%nat)))].
Proof.
  intros H raw plugin fields me w.
  assert (Hparse :
            run_phase (default_resolver behaviour) plugin
              (install plugin (schema_of fields)) (ParsePhase src)
              (fresh clock)
            = extendContext {| isIntrospection := true |} (fresh clock)).
  { apply parse_sets_marker; [reflexivity |].
    unfold skipped. rewrite H. reflexivity. }
  unfold w, run_request. cbv [run_phases].
  rewrite (bind_run _ _ _ _ _ Hparse).
  split; reflexivity.
Qed.

Lemma introspection_resolver_is_measured_witness :
  let classify := fun s : string => (s =? "{ __schema { types { name } } me }")%string in
  let behaviour := fun _ : ResolverArgs => Returns VUndefined in
  let clock := fun n : nat => (0, Z.of_nat n * 5000000) in
  let plugin := useTiming (default_resolver behaviour) classify
                  (Some (with_skipIntrospection (Some (Some true)) no_options)) in
  let fields := [{| field_name := "me"; field_type := "User";
                    field_resolver := Some ("me", fun _ => Returns VNull) |}] in
  let me := {| call_field := "me"; call_root := VUndefined;
               call_args := VUndefined |} in
  let w := snd (run_request (default_resolver behaviour) plugin
                  (schema_of fields) clock
                  [ParsePhase "{ __schema { types { name } } me }";
                   ValidatePhase "document";
                   ContextBuildingPhase; ExecutePhase "operation" true [me]]) in
  classify "{ __schema { types { name } } me }" = true
  /\ isIntrospection (context w) = true
  /\ measurements Resolver (trace w) = [{| ns := of_integer 10000000 |}].
Proof.
  cbv zeta. split; [reflexivity |].
  destruct (introspection_resolver_is_measured
              (fun s : string => (s =? "{ __schema { types { name } } me }")%string)
              (fun _ => Returns VUndefined)
              "{ __schema { types { name } } me }" "document" "operation"
              (fun n : nat => (0, Z.of_nat n * 5000000))
              eq_refl) as [Hmarker Htrace].
  split; [exact Hmarker |].
  rewrite Htrace. vm_compute. reflexivity.
Defined.

(** ** One measurement for each resolver call *)

(** C6, at two failing inputs, with the default options (subscription and
    resolver sinks both set, so the schema is rewritten and the per-resolver
    hook is registered as well).  In a subscription whose engine offers no
    per-resolver hook, a resolver that returns 42 at once is called and not
    measured at all.  In an execution whose engine offers the hook, a
    resolver that throws is called once and measured twice: by the hook and
    by the wrapper. *)
Theorem resolver_call_is_not_measured_once
    (isIntrospectionOperationString : string -> bool)
    (behaviour : ResolverArgs -> outcome)
    (name : string) (clock : nat -> Z * Z) :
  let plugin := useTiming (default_resolver behaviour)
                  isIntrospectionOperationString None in
  let fields := [{| field_name := "answer"; field_type := "Int";
                    field_resolver :=
                      Some ("answer", fun _ => Returns (VNumber 42)) |};
                 {| field_name := "failing"; field_type := "Int";
                    field_resolver :=
                      Some ("failing", fun _ => Throws (VString "boom")) |}] in
  let call field := {| call_field := field; call_root := VUndefined;
                       call_args := VUndefined |} in
  let run ps := trace (snd (run_request (default_resolver behaviour) plugin
                              (schema_of fields) clock ps)) in
  (resolver_calls (run [SubscribePhase name false [call "answer"]]) = ["answer"]
   /\ measurements Resolver (run [SubscribePhase name false [call "answer"]])
      = [])
  /\ (resolver_calls (run [ExecutePhase name true [call "failing"]]) = ["failing"]
      /\ measurements Resolver (run [ExecutePhase name true [call "failing"]])
         = [timing_of_delta (hrtime_diff (clock 3%nat) (clock 2%nat));
            timing_of_delta (hrtime_diff (clock 4%nat) (clock 1%nat))]).
Proof.
  simpl. repeat split.
Qed.

(* ===================================================================== *)
(** * Further properties *)
(* ===================================================================== *)

(** ** deltaFrom and the clock *)

(** For readings a JavaScript program can hold (seconds that are whole
    numbers below [2 ^ 53], nanoseconds within a second), the marker not
    after the new reading and the two less than [2 ^ 53] nanoseconds apart:
    whether or not the nanoseconds borrow from the seconds, [ns] is exactly
    the distance between the two clock readings.  One reading is taken, and
    nothing else changes. *)
Theorem deltaFrom_elapsed (c : category) (marker : Z * Z) (w : world) :
  let now := clock w (ticks w) in
  let elapsed := absolute now - absolute marker in
  0 <= fst marker -> fst now < 2 ^ 53 ->
  0 <= snd marker < NANOSECONDS_PER_SECOND ->
  0 <= snd now < NANOSECONDS_PER_SECOND ->
  0 <= elapsed < 2 ^ 53 ->
  exists t w',
    deltaFrom c marker w = (Normal t, w')
    /\ ns t = of_integer elapsed
    /\ (exists n, number_value (ns t) = Some n /\ (n == inject_Z elapsed)%Q)
    /\ ticks w' = S (ticks w)
    /\ trace w' = trace w ++ [EvClock c]
    /\ context w' = context w
    /\ clock w' = clock w.
Proof.
  intros now elapsed _ _ Hmarker Hnow Helapsed.
  rewrite deltaFrom_run. fold now.
  eexists. eexists. split; [reflexivity |].
  cbn [ticks trace context clock].
  assert (E : ns (timing_of_delta (hrtime_diff now marker))
              = of_integer elapsed).
  { unfold elapsed, absolute, NANOSECONDS_PER_SECOND in *.
    unfold hrtime_diff, NANOSECONDS_PER_SECOND.
    destruct (snd now - snd marker <? 0) eqn:B;
      [apply Z.ltb_lt in B | apply Z.ltb_ge in B];
      rewrite timing_of_delta_exact; cbn [fst snd]; try (f_equal; lia); lia. }
  rewrite E.
  split; [reflexivity |].
  split; [apply number_value_of_integer, Helapsed |].
  repeat split.
Qed.

Lemma deltaFrom_elapsed_witness :
  let w := {| clock := fun _ => (8, 100); ticks := 0;
              context := {| isIntrospection := false |}; trace := [] |} in
  exists t w',
    deltaFrom Resolver (7, 999999900) w = (Normal t, w')
    /\ ns t = of_integer 200
    /\ (exists n, number_value (ns t) = Some n /\ (n == inject_Z 200)%Q)
    /\ ticks w' = 1%nat
    /\ trace w' = [EvClock Resolver]
    /\ context w' = {| isIntrospection := false |}
    /\ clock w' = (fun _ => (8, 100)).
Proof.
  apply (deltaFrom_elapsed Resolver (7, 999999900)
           {| clock := fun _ => (8, 100); ticks := 0;
              context := {| isIntrospection := false |}; trace := [] |});
    unfold absolute, NANOSECONDS_PER_SECOND; simpl; lia.
Defined.

(** ** The merge of the options *)

Lemma console_default (c : category) :
  sink_slot c DEFAULT_OPTIONS = Some (Some console_log).
Proof. destruct c; reflexivity. Qed.

(** A category the caller's options do not mention keeps the default sink;
    a sink the caller gives replaces the default; and no options at all are
    the same as the empty object. *)
Theorem merged_sink (raw : TimingPluginOptions) (c : category) :
  (sink_slot c raw = None ->
   read (sink_slot c (merged (Some raw))) = Some console_log)
  /\ (forall f, sink_slot c raw = Some (Some f) ->
                read (sink_slot c (merged (Some raw))) = Some f)
  /\ merged None = merged (Some no_options).
Proof.
  split; [| split; [| reflexivity]].
  - intros H. destruct c; simpl in *; rewrite H; reflexivity.
  - intros f H. destruct c; simpl in *; rewrite H; reflexivity.
Qed.

Lemma merged_sink_witness :
  let raw := {| skipIntrospection := None;
                onContextBuildingMeasurement := None;
                onExecutionMeasurement := Some (Some (returning_sink "mine"));
                onSubscriptionMeasurement := None;
                onParsingMeasurement := None;
                onValidationMeasurement := None;
                onResolverMeasurement := None |} in
  sink_slot Execution raw = Some (Some (returning_sink "mine"))
  /\ read (sink_slot Execution (merged (Some raw)))
     = Some (returning_sink "mine")
  /\ sink_slot Parsing raw = None
  /\ read (sink_slot Parsing (merged (Some raw))) = Some console_log.
Proof.
  cbv zeta. split; [reflexivity |]. split.
  - apply (proj1 (proj2 (merged_sink _ Execution))). reflexivity.
  - split; [reflexivity |].
    apply (proj1 (merged_sink _ Parsing)). reflexivity.
Defined.

(** ** The wrapped resolver when no after-hook is obtained *)

(** When [onResolverCalled] returns nothing, the wrapped resolver is the
    resolver in use, run in the world [onResolverCalled] left: the
    replacement if one was given, else the field's own resolver or the
    default one. *)
Theorem wrapped_without_after_hook
    (defaultFieldResolver : ResolverFn) (field : FieldConfig)
    (onResolverCalled : OnResolverCalledHook)
    (replaced : option ResolverFn) (a : ResolverArgs) (w w1 : world) :
  onResolverCalled {| resolverArgs := a;
                      resolverFn := invoke defaultFieldResolver field |} w
  = (Normal (replaced, AfterVoid), w1) ->
  invoke defaultFieldResolver
    (wrapResolver defaultFieldResolver field onResolverCalled) a w
  = match replaced with
    | Some fn => fn
    | None => invoke defaultFieldResolver field
    end a w1.
Proof.
  intros H. unfold invoke at 1. simpl. unfold wrapped_resolve.
  unfold invoke in H.
  rewrite (bind_run _ _ _ _ _ H). simpl.
  destruct replaced; reflexivity.
Qed.

Lemma wrapped_without_after_hook_witness :
  let field := {| fieldType := "Int";
                  resolve := Some (resolver "answer"
                                     (fun _ => Returns (VNumber 42))) |} in
  let dflt := resolver "defaultFieldResolver" (fun _ => Returns VUndefined) in
  let a := {| root := VUndefined; args := VUndefined;
              resolverContext := {| isIntrospection := false |};
              info := "Query.answer" |} in
  let w := {| clock := fun _ => (0, 0); ticks := 0;
              context := {| isIntrospection := false |}; trace := [] |} in
  fst (invoke dflt (wrapResolver dflt field (fun _ => ret (None, AfterVoid))) a w)
  = Normal (VNumber 42).
Proof.
  cbv zeta.
  rewrite (wrapped_without_after_hook _ _ _ None _ _ _ eq_refl).
  reflexivity.
Defined.

(** When [onResolverCalled] throws, or returns a promise that rejects or
    never settles, the resolver is not called at all: the wrapped resolver
    throws the same value, or returns a promise rejected with the same
    reason, or a promise that never settles. *)
Theorem wrapped_without_after_value
    (defaultFieldResolver : ResolverFn) (field : FieldConfig)
    (replaced : option ResolverFn) (e : value)
    (a : ResolverArgs) (w : world) :
  invoke defaultFieldResolver
    (wrapResolver defaultFieldResolver field (fun _ => throw e)) a w
  = (Abrupt e, w)
  /\ invoke defaultFieldResolver
       (wrapResolver defaultFieldResolver field
          (fun _ => ret (replaced, AfterPromise (Rejected e)))) a w
     = (Normal (VPromise (Rejected e)), w)
  /\ invoke defaultFieldResolver
       (wrapResolver defaultFieldResolver field
          (fun _ => ret (replaced, AfterPromise Pending))) a w
     = (Normal (VPromise Pending), w).
Proof. repeat split. Qed.

(** What [isThenable] answers, by the [then] member of the value. *)
Lemma isThenable_by_member (v : value) :
  isThenable v
  = match then_member v with
    | Some (PGetterThrows e) => Abrupt e
    | _ => Normal (deferred v)
    end.
Proof.
  unfold deferred, then_member.
  destruct (as_object v) as [o |] eqn:Ho.
  - rewrite (isThenable_object v o Ho).
    assert (Hobj : is_object_or_function v = true)
      by (destruct v; simpl in Ho; try discriminate; reflexivity).
    rewrite Hobj. simpl.
    destruct (find_property "then" o) as [[x | x | e] |];
      try reflexivity; destruct x; reflexivity.
  - rewrite (isThenable_primitive v Ho), andb_false_r. reflexivity.
Qed.

(** How a promise settles that is resolved with a returned value which is
    no foreign thenable. *)
Lemma settle_returned (v : value) :
  foreign_thenable (Returns v) = false ->
  settle (Normal v)
  = match v with
    | VPromise p => p
    | _ => match then_member v with
           | Some (PGetterThrows e) => Rejected e
           | _ => Fulfilled v
           end
    end.
Proof.
  intros H.
  assert (Hobj : forall o, as_object v = Some o ->
            (forall p, v <> VPromise p) ->
            match get_property "then" v with
            | Abrupt e => Rejected e
            | Normal member =>
                if (typeof member =? "function")%string
                then Pending else Fulfilled v
            end
            = match find_property "then" o with
              | Some (PGetterThrows e) => Rejected e
              | _ => Fulfilled v
              end).
  { intros o Ho Hp. unfold get_property. rewrite Ho.
    assert (Hd : deferred v = false)
      by (destruct v; try exact H; exfalso; eapply Hp; reflexivity).
    unfold deferred, then_member in Hd. rewrite Ho in Hd.
    assert (Hof : is_object_or_function v = true)
      by (destruct v; simpl in Ho; try discriminate; reflexivity).
    rewrite Hof in Hd. simpl in Hd.
    destruct (find_property "then" o) as [[x | x | e] |];
      try reflexivity; destruct x; try reflexivity; discriminate Hd. }
  destruct v; try reflexivity; unfold settle, then_member;
    cbn [as_object];
    (erewrite Hobj; [reflexivity | reflexivity | intros q; discriminate]).
Qed.

(** When [onResolverCalled] returns a promise fulfilled with no after-hook,
    the wrapped resolver returns a promise that settles as the resolver in
    use completes: rejected with the value thrown; adopting a returned
    native promise; rejected with what the getter of [then] throws on a
    returned object whose getter throws; fulfilled with any other returned
    value that is no thenable.  A resolver that returns a thenable which is
    not a native promise is left out. *)
Theorem wrapped_with_deferred_nothing
    (defaultFieldResolver : ResolverFn) (field : FieldConfig)
    (replaced : option ResolverFn) (a : ResolverArgs) (w : world) :
  let resolve := match replaced with
                 | Some fn => fn
                 | None => invoke defaultFieldResolver field
                 end in
  match fst (resolve a w) with
  | Normal v => foreign_thenable (Returns v) = false
  | Abrupt _ => True
  end ->
  invoke defaultFieldResolver
    (wrapResolver defaultFieldResolver field
       (fun _ => ret (replaced, AfterPromise (Fulfilled None)))) a w
  = (Normal
       (VPromise
          match fst (resolve a w) with
          | Abrupt e => Rejected e
          | Normal (VPromise p) => p
          | Normal v =>
              match then_member v with
              | Some (PGetterThrows e) => Rejected e
              | _ => Fulfilled v
              end
          end),
     snd (resolve a w)).
Proof.
  intros chosen. unfold chosen. clear chosen. intros Hv.
  assert (Hrun :
    invoke defaultFieldResolver
      (wrapResolver defaultFieldResolver field
         (fun _ => ret (replaced, AfterPromise (Fulfilled None)))) a w
    = (Normal (VPromise (settle (fst (match replaced with
                                      | Some fn => fn
                                      | None => invoke defaultFieldResolver field
                                      end a w)))),
       snd (match replaced with
            | Some fn => fn
            | None => invoke defaultFieldResolver field
            end a w))).
  { destruct replaced as [fn |];
      unfold invoke, wrapResolver, wrapped_resolve, then_, bind, try_, ret;
      cbn [resolve fst snd].
    - destruct (fn a w) as [r w1]. reflexivity.
    - destruct (match resolve field with
                | Some fn => fn
                | None => defaultFieldResolver
                end a w) as [r w1]. reflexivity. }
  rewrite Hrun. clear Hrun.
  destruct (fst _) as [v | e]; [| reflexivity].
  rewrite (settle_returned v Hv). reflexivity.
Qed.

Lemma wrapped_with_deferred_nothing_witness :
  let probe := VObject (Obj [("then", PGetterThrows (VString "probe"))] None) in
  let field := {| fieldType := "Int";
                  resolve := Some (resolver "probing"
                                     (fun _ => Returns probe)) |} in
  let dflt := resolver "defaultFieldResolver" (fun _ => Returns VUndefined) in
  let a := {| root := VUndefined; args := VUndefined;
              resolverContext := {| isIntrospection := false |};
              info := "Query.probing" |} in
  let w := {| clock := fun _ => (0, 0); ticks := 0;
              context := {| isIntrospection := false |}; trace := [] |} in
  foreign_thenable (Returns probe) = false
  /\ fst (invoke dflt
            (wrapResolver dflt field
               (fun _ => ret (None, AfterPromise (Fulfilled None)))) a w)
     = Normal (VPromise (Rejected (VString "probe"))).
Proof.
  cbv zeta. split; [reflexivity |].
  rewrite (wrapped_with_deferred_nothing
             (resolver "defaultFieldResolver" (fun _ => Returns VUndefined))
             {| fieldType := "Int";
                resolve := Some (resolver "probing"
                                   (fun _ => Returns
                                      (VObject (Obj [("then", PGetterThrows
                                                        (VString "probe"))]
                                                  None)))) |}
             None
             {| root := VUndefined; args := VUndefined;
                resolverContext := {| isIntrospection := false |};
                info := "Query.probing" |}
             {| clock := fun _ => (0, 0); ticks := 0;
                context := {| isIntrospection := false |}; trace := [] |}
             eq_refl).
  reflexivity.
Defined.

(** ** How often resolveField calls the after-hook *)

Lemma hook_calls_app (l1 l2 : list event) :
  hook_calls (l1 ++ l2) = hook_calls l1 ++ hook_calls l2.
Proof.
  induction l1 as [| e l1 IH]; simpl; [reflexivity |].
  destruct e; simpl; rewrite IH; reflexivity.
Qed.

(** What [resolveField] does with a returned value that is neither a native
    promise nor a foreign thenable: the hook is left alone; the call
    evaluates to [undefined], unless reading [then] throws, which is then
    what the call throws. *)
Lemma resolveField_immediate (name : string) (v : value)
    (hook : AfterResolverHook) (a : ResolverArgs) (w : world) :
  deferred v = false ->
  resolveField (resolver name (fun _ => Returns v) a) hook w
  = (immediate_result v, snd (emit (EvResolverCall name) w)).
Proof.
  intros H.
  unfold resolveField, resolver, bind, try_, emit, lift, ret. cbn [fst snd].
  rewrite isThenable_by_member, H. unfold immediate_result.
  destruct (then_member v) as [[x | x | e] |]; reflexivity.
Qed.

Lemma foreign_thenable_deferred (v : value) :
  foreign_thenable (Returns v) = false ->
  (forall p, v <> VPromise p) -> deferred v = false.
Proof.
  intros H Hp. destruct v; try exact H. exfalso. eapply Hp. reflexivity.
Qed.

(** [resolveField] calls the resolver once.  It calls the after-hook once
    when the resolver throws or returns a native promise that settles, with
    the error or the settled value, and not at all when the resolver returns
    a promise that never settles, a value that is not thenable, or an object
    whose [then] getter throws.  When the resolver threw, the call throws
    what the hook throws, if it throws, and the resolver's error otherwise.
    When the resolver returned, the call evaluates to [undefined], except
    that it throws what reading [then] of the returned value throws.  A
    resolver that returns a thenable which is not a native promise is left
    out. *)
Theorem resolveField_hook_calls
    (name hookName : string) (action : value -> HookAction) (o : outcome)
    (a : ResolverArgs) (w : world) :
  foreign_thenable o = false ->
  let r := resolveField (resolver name (fun _ => o) a)
             (afterHook hookName action) w in
  hook_calls (trace (snd r)) = hook_calls (trace w) ++ hook_arguments o
  /\ resolver_calls (trace (snd r)) = resolver_calls (trace w) ++ [name]
  /\ fst r = match o with
             | Returns v => immediate_result v
             | Throws e =>
                 Abrupt (match raise (action e) with
                         | Some thrown => thrown
                         | None => e
                         end)
             end.
Proof.
  intros H r. unfold r. clear r.
  destruct o as [v | e].
  - assert (Hplain : (forall p, v <> VPromise p) ->
              hook_calls (trace (snd (resolveField
                 (resolver name (fun _ => Returns v) a)
                 (afterHook hookName action) w)))
              = hook_calls (trace w) ++ hook_arguments (Returns v)
              /\ resolver_calls (trace (snd (resolveField
                   (resolver name (fun _ => Returns v) a)
                   (afterHook hookName action) w)))
                 = resolver_calls (trace w) ++ [name]
              /\ fst (resolveField (resolver name (fun _ => Returns v) a)
                        (afterHook hookName action) w) = immediate_result v).
    { intros Hp.
      rewrite (resolveField_immediate name v _ a w
                 (foreign_thenable_deferred v H Hp)).
      cbn [fst snd emit trace].
      rewrite hook_calls_app, resolver_calls_app. simpl.
      rewrite app_nil_r.
      split; [| split; reflexivity].
      destruct v; simpl; rewrite ?app_nil_r; try reflexivity.
      exfalso. eapply Hp. reflexivity. }
    destruct v; try (apply Hplain; intros q; discriminate).
    clear Hplain.
    unfold resolveField, resolver, afterHook, call_then, then_, bind, try_,
      emit, lift, throw, ret.
    destruct p as [| v | e]; simpl.
    + rewrite hook_calls_app, resolver_calls_app. simpl.
      rewrite app_nil_r. repeat split.
    + destruct (raise (action v)); simpl;
        rewrite !hook_calls_app, !resolver_calls_app; simpl;
        rewrite ?app_nil_r; repeat split.
    + destruct (raise (action e)); simpl;
        rewrite !hook_calls_app, !resolver_calls_app; simpl;
        rewrite ?app_nil_r; repeat split.
  - unfold resolveField, resolver, afterHook, bind, try_, emit, throw, ret.
    simpl.
    destruct (raise (action e)); simpl;
      rewrite !hook_calls_app, !resolver_calls_app; simpl;
      rewrite ?app_nil_r; repeat split.
Qed.

Lemma resolveField_hook_calls_witness :
  let probe := VObject (Obj [("then", PGetterThrows (VString "probe"))] None) in
  let a := {| root := VUndefined; args := VUndefined;
              resolverContext := {| isIntrospection := false |};
              info := "Query.failing" |} in
  let w := {| clock := fun _ => (0, 0); ticks := 0;
              context := {| isIntrospection := false |}; trace := [] |} in
  let hook := afterHook "after"
                (fun _ => {| substitute := None; raise := None |}) in
  let rejecting := resolveField
                     (resolver "failing"
                        (fun _ => Returns (VPromise (Rejected (VString "boom"))))
                        a) hook w in
  let probing := resolveField (resolver "probing" (fun _ => Returns probe) a)
                   hook w in
  (foreign_thenable (Returns (VPromise (Rejected (VString "boom")))) = false
   /\ hook_calls (trace (snd rejecting)) = [VString "boom"]
   /\ resolver_calls (trace (snd rejecting)) = ["failing"]
   /\ fst rejecting = Normal VUndefined)
  /\ (foreign_thenable (Returns probe) = false
      /\ hook_calls (trace (snd probing)) = []
      /\ resolver_calls (trace (snd probing)) = ["probing"]
      /\ fst probing = Abrupt (VString "probe")).
Proof.
  cbv zeta. split; (split; [reflexivity |]).
  - apply (resolveField_hook_calls "failing" "after"
             (fun _ => {| substitute := None; raise := None |})
             (Returns (VPromise (Rejected (VString "boom"))))
             {| root := VUndefined; args := VUndefined;
                resolverContext := {| isIntrospection := false |};
                info := "Query.failing" |}
             {| clock := fun _ => (0, 0); ticks := 0;
                context := {| isIntrospection := false |}; trace := [] |}).
    reflexivity.
  - apply (resolveField_hook_calls "probing" "after"
             (fun _ => {| substitute := None; raise := None |})
             (Returns (VObject (Obj [("then", PGetterThrows (VString "probe"))]
                                  None)))
             {| root := VUndefined; args := VUndefined;
                resolverContext := {| isIntrospection := false |};
                info := "Query.failing" |}
             {| clock := fun _ => (0, 0); ticks := 0;
                context := {| isIntrospection := false |}; trace := [] |}).
    reflexivity.
Defined.

(** ** The plugin's own resolver hooks *)

(** The hook registered by the execution branch ([options.f!(...)]) and the
    one registered by the subscription branch ([options.f && options.f(...)])
    are the same function whenever the resolver sink is set, which it is
    whenever either is registered. *)
Theorem resolver_hooks_coincide (options : TimingPluginOptions) (f : Sink)
    (payload : OnResolverCalledPayload) :
  read (onResolverMeasurement options) = Some f ->
  resolverCalledHook_execution options payload
  = resolverCalledHook_subscription options payload.
Proof.
  intros H.
  unfold resolverCalledHook_execution, resolverCalledHook_subscription,
    call_measured, call_guarded, call_asserted.
  rewrite H. reflexivity.
Qed.

Lemma resolver_hooks_coincide_witness :
  let payload := {| resolverArgs :=
                      {| root := VUndefined; args := VUndefined;
                         resolverContext := {| isIntrospection := false |};
                         info := "Query.answer" |};
                    resolverFn := resolver "answer"
                                    (fun _ => Returns (VNumber 42)) |} in
  read (onResolverMeasurement DEFAULT_OPTIONS) = Some console_log
  /\ resolverCalledHook_execution DEFAULT_OPTIONS payload
     = resolverCalledHook_subscription DEFAULT_OPTIONS payload.
Proof.
  cbv zeta. split; [reflexivity |].
  apply (resolver_hooks_coincide DEFAULT_OPTIONS console_log). reflexivity.
Defined.

(** What a call of a sink completes with. *)
Lemma call_sink_run (c : category) (f : Sink) (subject : string)
    (timing : ResultTiming) (w : world) :
  call_sink c f subject timing w
  = (match sink_raises f subject timing with
     | Some e => Abrupt e
     | None => Normal tt
     end,
     snd (emit (EvMeasurement c (sink_name f) subject timing) w)).
Proof.
  unfold call_sink, bind, emit, throw, ret.
  destruct (sink_raises f subject timing); reflexivity.
Qed.

(** The plugin's resolver hook only observes: called, it reads the clock
    once, replaces no resolver and does not throw; the after-hook it returns
    reads the clock once more and hands the sink one measurement of the span
    between the two readings.  The after-hook substitutes no result; it
    throws exactly when the sink throws, and then what the sink throws.
    Nothing of this depends on the request context. *)
Theorem resolver_hook_observes (options : TimingPluginOptions) (f : Sink)
    (payload : OnResolverCalledPayload) (w : world) :
  read (onResolverMeasurement options) = Some f ->
  exists after,
    resolverCalledHook_subscription options payload w
    = (Normal (None, AfterHook after), snd (hrtime Resolver w))
    /\ forall result w',
         let timing := timing_of_delta
                         (hrtime_diff (clock w' (ticks w'))
                            (clock w (ticks w))) in
         after result w'
         = (match sink_raises f (info (resolverArgs payload)) timing with
            | Some e => Abrupt e
            | None => Normal None
            end,
            snd (emit (EvMeasurement Resolver (sink_name f)
                         (info (resolverArgs payload)) timing)
                   (snd (hrtime Resolver w')))).
Proof.
  intros H. unfold resolverCalledHook_subscription, call_guarded.
  rewrite H. eexists. split; [reflexivity |].
  intros result w'. cbv beta.
  unfold bind at 1 2. rewrite deltaFrom_run, call_sink_run.
  destruct (sink_raises f (info (resolverArgs payload)) _); reflexivity.
Qed.

Lemma resolver_hook_observes_witness :
  let failing := throwing_sink "mine" (VString "sink failed") in
  let options := spread DEFAULT_OPTIONS
                   {| skipIntrospection := None;
                      onContextBuildingMeasurement := None;
                      onExecutionMeasurement := None;
                      onSubscriptionMeasurement := None;
                      onParsingMeasurement := None;
                      onValidationMeasurement := None;
                      onResolverMeasurement := Some (Some failing) |} in
  let payload := {| resolverArgs :=
                      {| root := VUndefined; args := VUndefined;
                         resolverContext := {| isIntrospection := true |};
                         info := "Query.answer" |};
                    resolverFn := resolver "answer"
                                    (fun _ => Returns (VNumber 42)) |} in
  let w := {| clock := fun n => (0, Z.of_nat n * 5000000); ticks := 0;
              context := {| isIntrospection := true |}; trace := [] |} in
  read (onResolverMeasurement options) = Some failing
  /\ exists after,
       resolverCalledHook_subscription options payload w
       = (Normal (None, AfterHook after), snd (hrtime Resolver w))
       /\ fst (after VUndefined (snd (hrtime Resolver w)))
          = Abrupt (VString "sink failed")
       /\ measurements Resolver
            (trace (snd (after VUndefined (snd (hrtime Resolver w)))))
          = [{| ns := of_integer 5000000 |}].
Proof.
  cbv zeta. split; [reflexivity |].
  destruct (resolver_hook_observes
              (spread DEFAULT_OPTIONS
                 {| skipIntrospection := None;
                    onContextBuildingMeasurement := None;
                    onExecutionMeasurement := None;
                    onSubscriptionMeasurement := None;
                    onParsingMeasurement := None;
                    onValidationMeasurement := None;
                    onResolverMeasurement :=
                      Some (Some (throwing_sink "mine"
                                    (VString "sink failed"))) |})
              (throwing_sink "mine" (VString "sink failed"))
              {| resolverArgs :=
                   {| root := VUndefined; args := VUndefined;
                      resolverContext := {| isIntrospection := true |};
                      info := "Query.answer" |};
                 resolverFn := resolver "answer"
                                 (fun _ => Returns (VNumber 42)) |}
              {| clock := fun n => (0, Z.of_nat n * 5000000); ticks := 0;
                 context := {| isIntrospection := true |}; trace := [] |}
              eq_refl) as (after & Hrun & Hafter).
  exists after. split; [exact Hrun |]. rewrite Hafter.
  split; [reflexivity | vm_compute; reflexivity].
Defined.

(** ** What the rewritten schema measures *)

Lemma wrapped_timed (originalResolver : ResolverFn)
    (options : TimingPluginOptions) (f : Sink) (a : ResolverArgs) (w : world) :
  read (onResolverMeasurement options) = Some f ->
  wrapped_resolve originalResolver (resolverCalledHook_subscription options) a w
  = resolveField (originalResolver a)
      (fun _ => bind (call_guarded Resolver (Some f) (info a)
                        (clock w (ticks w)))
                  (fun _ => ret None))
      (snd (hrtime Resolver w)).
Proof.
  intros H. unfold wrapped_resolve, resolverCalledHook_subscription.
  rewrite H. reflexivity.
Qed.

(** C4, as the code has it.  A wrapped resolver throws [error] at once.
    With an after-hook that does not substitute a result, the hook is called
    once, with [error], after the resolver; when the hook returns, [error]
    itself is thrown to the caller, and when the hook throws, what it throws
    is thrown instead.  The plugin's own after-hook is such a hook: it calls
    the resolver sink with the measurement, and the caller gets [error], or
    what the sink throws when the sink throws. *)
Theorem thrown_error_is_rethrown
    (defaultFieldResolver : ResolverFn) (options : TimingPluginOptions)
    (f : Sink) (type name hookName : string) (action : value -> HookAction)
    (error : value) (a : ResolverArgs) (w : world) :
  substitute (action error) = None ->
  read (onResolverMeasurement options) = Some f ->
  let field := {| fieldType := type;
                  resolve := Some (resolver name (fun _ => Throws error)) |} in
  let hooked := invoke defaultFieldResolver
                  (wrapResolver defaultFieldResolver field
                     (fun _ => ret (None,
                                    AfterHook (afterHook hookName action))))
                  a w in
  let timed := invoke defaultFieldResolver
                 (wrapResolver defaultFieldResolver field
                    (resolverCalledHook_subscription options)) a w in
  let timing := timing_of_delta
                  (hrtime_diff (clock w (S (ticks w))) (clock w (ticks w))) in
  (trace (snd hooked)
   = trace w ++ [EvResolverCall name; EvAfterHook hookName error]
   /\ fst hooked = Abrupt (match raise (action error) with
                           | Some thrown => thrown
                           | None => error
                           end))
  /\ (trace (snd timed)
      = trace w ++ [EvClock Resolver; EvResolverCall name; EvClock Resolver;
                    EvMeasurement Resolver (sink_name f) (info a) timing]
      /\ fst timed = Abrupt (match sink_raises f (info a) timing with
                             | Some thrown => thrown
                             | None => error
                             end)).
Proof.
  intros _ Hf field hooked timed timing.
  unfold hooked, timed, timing, field. clear hooked timed timing field.
  unfold invoke, wrapResolver. cbn [resolve].
  rewrite (wrapped_timed _ options f a w Hf).
  split.
  - unfold wrapped_resolve, resolveField, resolver, afterHook, bind, try_,
      emit, throw, ret. cbn [fst snd trace].
    destruct (raise (action error)); cbn [fst snd trace];
      rewrite <- app_assoc; split; reflexivity.
  - unfold resolveField, resolver, call_guarded, bind, try_, emit, hrtime,
      throw, ret. cbn [fst snd trace clock ticks context].
    rewrite deltaFrom_run, call_sink_run.
    cbn [fst snd trace clock ticks context emit].
    destruct (sink_raises f (info a) _); cbn [fst snd trace];
      rewrite <- !app_assoc; split; reflexivity.
Qed.

Lemma thrown_error_is_rethrown_witness :
  let dflt := resolver "defaultFieldResolver" (fun _ => Returns VUndefined) in
  let action := fun _ : value => {| substitute := None; raise := None |} in
  let field := {| fieldType := "Int";
                  resolve := Some (resolver "failing"
                                     (fun _ => Throws (VString "boom"))) |} in
  let a := {| root := VUndefined; args := VUndefined;
              resolverContext := {| isIntrospection := false |};
              info := "Query.failing" |} in
  let w := {| clock := fun n => (0, Z.of_nat n * 5000000); ticks := 0;
              context := {| isIntrospection := false |}; trace := [] |} in
  substitute (action (VString "boom")) = None
  /\ read (onResolverMeasurement DEFAULT_OPTIONS) = Some console_log
  /\ fst (invoke dflt
            (wrapResolver dflt field
               (fun _ => ret (None, AfterHook (afterHook "after" action))))
            a w)
     = Abrupt (VString "boom")
  /\ fst (invoke dflt
            (wrapResolver dflt field
               (resolverCalledHook_subscription DEFAULT_OPTIONS)) a w)
     = Abrupt (VString "boom").
Proof.
  cbv zeta. split; [reflexivity |]. split; [reflexivity |].
  destruct (thrown_error_is_rethrown
              (resolver "defaultFieldResolver" (fun _ => Returns VUndefined))
              DEFAULT_OPTIONS console_log "Int" "failing" "after"
              (fun _ : value => {| substitute := None; raise := None |})
              (VString "boom")
              {| root := VUndefined; args := VUndefined;
                 resolverContext := {| isIntrospection := false |};
                 info := "Query.failing" |}
              {| clock := fun n => (0, Z.of_nat n * 5000000); ticks := 0;
                 context := {| isIntrospection := false |}; trace := [] |}
              eq_refl eq_refl) as [[_ Hhooked] [_ Htimed]].
  split; [exact Hhooked | exact Htimed].
Defined.

(** C4, as stated, fails on a schema the plugin has rewritten: the resolver
    sink throws ["sink failed"], the resolver throws ["boom"], the plugin's
    after-hook substitutes nothing, and the caller gets ["sink failed"]
    where the claim promises the original error. *)
Lemma sink_error_replaces_thrown_error :
  let dflt := resolver "defaultFieldResolver" (fun _ => Returns VUndefined) in
  let raw := {| skipIntrospection := None;
                onContextBuildingMeasurement := None;
                onExecutionMeasurement := None;
                onSubscriptionMeasurement := None;
                onParsingMeasurement := None;
                onValidationMeasurement := None;
                onResolverMeasurement :=
                  Some (Some (throwing_sink "mine" (VString "sink failed"))) |} in
  let plugin := useTiming dflt (fun _ => false) (Some raw) in
  let schema := schema_of
                  [{| field_name := "failing"; field_type := "Int";
                      field_resolver :=
                        Some ("failing", fun _ => Throws (VString "boom")) |}] in
  let a := {| root := VUndefined; args := VUndefined;
              resolverContext := {| isIntrospection := false |};
              info := "Query.failing" |} in
  exists hook field,
    onSchemaChange plugin = Some hook
    /\ hook schema = [("failing", field)]
    /\ fst (invoke dflt field a (fresh (fun n => (0, Z.of_nat n * 5000000))))
       = Abrupt (VString "sink failed")
    /\ fst (invoke dflt field a (fresh (fun n => (0, Z.of_nat n * 5000000))))
       <> Abrupt (VString "boom")
    /\ hook_calls
         (trace (snd (invoke dflt field a
                        (fresh (fun n => (0, Z.of_nat n * 5000000))))))
       = [].
Proof.
  cbv zeta. eexists. eexists.
  split; [reflexivity |]. split; [reflexivity |].
  split; [reflexivity |]. split; [discriminate | reflexivity].
Qed.

(** What [resolveField] does with a returned native promise: the call
    evaluates to [undefined]; the hook is called with what the promise
    settles to, if it settles. *)
Lemma resolveField_promise (name : string) (p : settlement value value)
    (hook : AfterResolverHook) (a : ResolverArgs) (w : world) :
  resolveField (resolver name (fun _ => Returns (VPromise p)) a) hook w
  = (Normal VUndefined,
     match p with
     | Pending => snd (emit (EvResolverCall name) w)
     | Fulfilled v | Rejected v => snd (hook v (snd (emit (EvResolverCall name) w)))
     end).
Proof.
  unfold resolveField, resolver, call_then, then_, bind, try_, emit, lift,
    throw, ret. cbn [fst snd].
  change (isThenable (VPromise p)) with (@Normal bool true). cbv beta iota.
  destruct p as [| v | e]; [reflexivity | |];
    match goal with
    | |- context [hook ?x ?w1] => destruct (hook x w1) as [[[s |] | thrown] w2]
    end; reflexivity.
Qed.

(** The world the plugin's after-hook leaves. *)
Lemma timed_hook_world (f : Sink) (subject : string) (start : Z * Z)
    (w : world) :
  snd (bind (call_guarded Resolver (Some f) subject start)
         (fun _ => ret (@None value)) w)
  = snd (call_measured Resolver (Some f) subject start w).
Proof.
  change (call_guarded Resolver (Some f) subject start)
    with (call_measured Resolver (Some f) subject start).
  unfold bind. destruct (call_measured Resolver (Some f) subject start w)
    as [[[] | e] w1]; reflexivity.
Qed.

(** A field wrapped with the plugin's resolver hook: the resolver is called
    once; one measurement reaches the resolver sink when the resolver throws
    or returns a native promise that settles, and none when it returns a
    promise that never settles, a value that is not thenable, or an object
    whose [then] getter throws.  When the resolver throws, the call throws
    the resolver's error, or what the sink throws if the sink throws; when
    it returns, the call evaluates to [undefined], except that it throws
    what reading [then] of the returned value throws.  A resolver that
    returns a thenable which is not a native promise is left out. *)
Theorem wrapped_field_measurements
    (defaultFieldResolver : ResolverFn) (options : TimingPluginOptions)
    (f : Sink) (type name : string) (o : outcome)
    (a : ResolverArgs) (w : world) :
  read (onResolverMeasurement options) = Some f ->
  foreign_thenable o = false ->
  let field := {| fieldType := type;
                  resolve := Some (resolver name (fun _ => o)) |} in
  let r := invoke defaultFieldResolver
             (wrapResolver defaultFieldResolver field
                (resolverCalledHook_subscription options)) a w in
  exists reported,
    measurements Resolver (trace (snd r))
    = measurements Resolver (trace w) ++ reported
    /\ List.length reported = List.length (hook_arguments o)
    /\ resolver_calls (trace (snd r)) = resolver_calls (trace w) ++ [name]
    /\ fst r = match o with
               | Returns v => immediate_result v
               | Throws e =>
                   Abrupt (match reported with
                           | timing :: _ =>
                               match sink_raises f (info a) timing with
                               | Some thrown => thrown
                               | None => e
                               end
                           | [] => e
                           end)
               end.
Proof.
  intros Hf H field r. unfold r, field. clear r field.
  unfold invoke, wrapResolver. cbn [resolve].
  rewrite (wrapped_timed _ options f a w Hf).
  assert (Ec : category_eqb Resolver Resolver = true) by reflexivity.
  destruct o as [v | e].
  - assert (Hplain : (forall q, v <> VPromise q) ->
              forall hook w0,
                resolveField (resolver name (fun _ => Returns v) a) hook w0
                = (immediate_result v, snd (emit (EvResolverCall name) w0))).
    { intros Hv hook w0. apply resolveField_immediate.
      apply foreign_thenable_deferred; assumption. }
    destruct v;
      try (exists []; rewrite Hplain by (intros q; discriminate);
           cbn [fst snd emit hrtime trace List.length hook_arguments];
           rewrite !measurements_app, !resolver_calls_app; simpl;
           rewrite ?app_nil_r; repeat split).
    clear Hplain. rewrite resolveField_promise. cbn [fst snd].
    destruct p as [| v | e]; rewrite ?timed_hook_world, ?call_measured_world;
      cbn [fst snd emit hrtime trace clock ticks context];
      rewrite !measurements_app, !resolver_calls_app;
      cbn [measurements resolver_calls app]; rewrite ?Ec, ?app_nil_r.
    + exists []. rewrite app_nil_r. repeat split.
    + eexists [_]. repeat split.
    + eexists [_]. repeat split.
  - unfold resolveField, resolver, call_guarded, bind, try_, emit, hrtime,
      throw, ret. cbn [fst snd trace clock ticks context].
    rewrite deltaFrom_run, call_sink_run.
    eexists [_]. cbn [fst snd trace emit hook_arguments List.length].
    destruct (sink_raises f (info a) _) eqn:E; cbn [fst snd trace];
      rewrite !measurements_app, !resolver_calls_app;
      cbn [measurements resolver_calls app]; rewrite ?Ec, ?app_nil_r, ?E;
      repeat split.
Qed.

Lemma wrapped_field_measurements_witness :
  let failing := throwing_sink "mine" (VString "sink failed") in
  let options := spread DEFAULT_OPTIONS
                   {| skipIntrospection := None;
                      onContextBuildingMeasurement := None;
                      onExecutionMeasurement := None;
                      onSubscriptionMeasurement := None;
                      onParsingMeasurement := None;
                      onValidationMeasurement := None;
                      onResolverMeasurement := Some (Some failing) |} in
  let o := Returns (VPromise (Fulfilled (VNumber 42))) in
  let a := {| root := VUndefined; args := VUndefined;
              resolverContext := {| isIntrospection := false |};
              info := "Query.answer" |} in
  let w := {| clock := fun n => (0, Z.of_nat n * 5000000); ticks := 0;
              context := {| isIntrospection := false |}; trace := [] |} in
  let dflt := resolver "defaultFieldResolver" (fun _ => Returns VUndefined) in
  let field := {| fieldType := "Int";
                  resolve := Some (resolver "answer" (fun _ => o)) |} in
  let r := invoke dflt
             (wrapResolver dflt field
                (resolverCalledHook_subscription options)) a w in
  read (onResolverMeasurement options) = Some failing
  /\ foreign_thenable o = false
  /\ List.length (measurements Resolver (trace (snd r))) = 1%nat
  /\ resolver_calls (trace (snd r)) = ["answer"]
  /\ fst r = Normal VUndefined.
Proof.
  cbv zeta. split; [reflexivity |]. split; [reflexivity |].
  destruct (wrapped_field_measurements
              (resolver "defaultFieldResolver" (fun _ => Returns VUndefined))
              (spread DEFAULT_OPTIONS
                 {| skipIntrospection := None;
                    onContextBuildingMeasurement := None;
                    onExecutionMeasurement := None;
                    onSubscriptionMeasurement := None;
                    onParsingMeasurement := None;
                    onValidationMeasurement := None;
                    onResolverMeasurement :=
                      Some (Some (throwing_sink "mine"
                                    (VString "sink failed"))) |})
              (throwing_sink "mine" (VString "sink failed"))
              "Int" "answer"
              (Returns (VPromise (Fulfilled (VNumber 42))))
              {| root := VUndefined; args := VUndefined;
                 resolverContext := {| isIntrospection := false |};
                 info := "Query.answer" |}
              {| clock := fun n => (0, Z.of_nat n * 5000000); ticks := 0;
                 context := {| isIntrospection := false |}; trace := [] |}
              eq_refl eq_refl) as (reported & Hm & Hlen & Hcalls & Hr).
  split; [rewrite Hm; exact Hlen |]. split; [exact Hcalls | exact Hr].
Defined.

(** ** Which hooks are registered *)

(** The plugin has a hook for each phase category exactly when the category
    has a sink; it has resolver hooks exactly when the resolver sink is set
    together with the execution or the subscription sink; and it rewrites
    the schema exactly when the subscription and resolver sinks are both
    set. *)
Theorem registered_hooks
    (defaultFieldResolver : ResolverFn)
    (isIntrospectionOperationString : string -> bool)
    (rawOptions : option TimingPluginOptions) (c : category) :
  let options := merged rawOptions in
  let plugin := useTiming defaultFieldResolver isIntrospectionOperationString
                  rawOptions in
  registers c plugin
  = match c with
    | Resolver =>
        enabled Resolver options
        && (enabled Execution options || enabled Subscription options)
    | _ => enabled c options
    end
  /\ is_some (onSchemaChange plugin)
     = enabled Subscription options && enabled Resolver options.
Proof.
  intros options plugin. unfold plugin, options, enabled, registers.
  rewrite useTiming_onSchemaChange.
  split; [| destruct (_ && _); reflexivity].
  destruct c;
    rewrite ?useTiming_onContextBuilding, ?useTiming_onParse,
      ?useTiming_onValidate, ?useTiming_onExecute, ?useTiming_onSubscribe,
      ?useTiming_onResolverCalled;
    cbv beta iota delta [sink_slot];
    repeat match goal with
           | |- context [truthy_sink ?s] => destruct (truthy_sink s)
           end; reflexivity.
Qed.

Section RespectsRegistered.

Variable R : world -> world -> Prop.
Hypothesis R_refl : forall w, R w w.
Hypothesis R_trans : forall w1 w2 w3, R w1 w2 -> R w2 w3 -> R w1 w3.

Variable okev : event -> Prop.
Hypothesis R_emit : forall e w, okev e -> R w (snd (emit e w)).
Hypothesis R_hrtime : forall c w, okev (EvClock c) -> R w (snd (hrtime c w)).

Variable defaultFieldResolver : ResolverFn.
Variable isIntrospectionOperationString : string -> bool.
Variable rawOptions : option TimingPluginOptions.

Hypothesis registered_ok :
  forall c,
    registers c (useTiming defaultFieldResolver isIntrospectionOperationString
                   rawOptions) = true ->
    ok_category okev c.

Ltac hook_of E lemma c :=
  rewrite lemma in E;
  let En := fresh "En" in
  destruct (truthy_sink (read (sink_slot c (merged rawOptions)))) eqn:En;
  [ injection E as <- | discriminate E ].

Ltac category_ok c lemma En :=
  apply (registered_ok c); unfold registers; rewrite lemma, En; reflexivity.

(** As [good_useTiming], asking only for the categories that have a hook. *)
Lemma good_useTiming_registered :
  good_plugin R defaultFieldResolver
    (useTiming defaultFieldResolver isIntrospectionOperationString rawOptions).
Proof.
  constructor.
  - intros h E current. hook_of E useTiming_onContextBuilding ContextBuilding.
    destruct (truthy_sink_read _ En) as [f Hf].
    eapply good_contextBuildingHook; eauto.
    category_ok ContextBuilding useTiming_onContextBuilding En.
  - intros h E payload Hext. hook_of E useTiming_onParse Parsing.
    destruct (truthy_sink_read _ En) as [f Hf].
    eapply good_parseHook; eauto.
    category_ok Parsing useTiming_onParse En.
  - intros h E payload. hook_of E useTiming_onValidate Validation.
    destruct (truthy_sink_read _ En) as [f Hf].
    eapply good_validateHook; eauto.
    category_ok Validation useTiming_onValidate En.
  - intros h E a. hook_of E useTiming_onExecute Execution.
    destruct (truthy_sink_read _ En) as [f Hf].
    eapply good_executeHook; eauto.
    category_ok Execution useTiming_onExecute En.
  - intros h E a. hook_of E useTiming_onSubscribe Subscription.
    eapply good_subscribeHook; eauto.
    category_ok Subscription useTiming_onSubscribe En.
  - intros h E schema Hd Hs.
    assert (Hreg : ok_category okev Resolver).
    { apply (registered_ok Resolver). unfold registers. rewrite E.
      apply orb_true_r. }
    rewrite useTiming_onSchemaChange in E.
    destruct (_ && _); [| discriminate E].
    injection E as <-. eapply good_schemaChangeHook; eauto.
  - intros h E.
    assert (Hreg : ok_category okev Resolver).
    { apply (registered_ok Resolver). unfold registers. rewrite E.
      reflexivity. }
    rewrite useTiming_onResolverCalled in E.
    destruct (truthy_sink (read (sink_slot Resolver (merged rawOptions))))
      eqn:En; [| rewrite !andb_false_r in E; discriminate E].
    destruct (truthy_sink_read _ En) as [f Hf].
    destruct (truthy_sink (read (sink_slot Subscription (merged rawOptions))));
      [| destruct (truthy_sink
                     (read (sink_slot Execution (merged rawOptions))))];
      simpl in E; try discriminate E; injection E as <-.
    + eapply good_resolverCalledHook_subscription; eauto.
    + eapply good_resolverCalledHook_execution; eauto.
Qed.

End RespectsRegistered.

(** A category without a hook is never touched: in every run, from any
    world and through any phases, the trace gains no clock read and no sink
    call of a category the plugin has registered no hook for.  So a resolver
    sink without an execution or a subscription sink measures nothing. *)
Theorem unregistered_category_is_untouched
    (isIntrospectionOperationString : string -> bool)
    (behaviour : ResolverArgs -> outcome)
    (rawOptions : option TimingPluginOptions) (c : category)
    (fields : list FieldDescription) (ps : list phase) (w : world) :
  let plugin := useTiming (default_resolver behaviour)
                  isIntrospectionOperationString rawOptions in
  registers c plugin = false ->
  grows_by (fun e => negb (concerns c e)) w
    (snd (run_phases (default_resolver behaviour) plugin
            (install plugin (schema_of fields)) ps w)).
Proof.
  intros plugin Hc.
  set (P := fun e => negb (concerns c e)).
  pose proof (grows_by_refl P) as Hrefl.
  pose proof (grows_by_trans P) as Htrans.
  assert (Hemit : forall e w0, P e = true -> grows_by P w0 (snd (emit e w0)))
    by (intros e w0; apply grows_by_emit).
  assert (Hclock : forall k w0, P (EvClock k) = true ->
                                grows_by P w0 (snd (hrtime k w0)))
    by (intros k w0; apply grows_by_hrtime).
  assert (Hd : good_resolver (grows_by P) (default_resolver behaviour)).
  { apply (good_named_resolver _ Hrefl Htrans (fun e => P e = true) Hemit).
    intros name. reflexivity. }
  assert (Hp : good_plugin (grows_by P) (default_resolver behaviour) plugin).
  { apply (good_useTiming_registered _ Hrefl Htrans (fun e => P e = true)
             Hemit Hclock).
    intros c' Hc'.
    assert (Hne : category_eqb c c' = false).
    { destruct (category_eqb c c') eqn:E; [| reflexivity].
      apply category_eqb_eq in E. subst c'. unfold plugin in Hc.
      rewrite Hc in Hc'. discriminate Hc'. }
    split; [| intros sink subject timing]; unfold P; simpl;
      rewrite Hne; reflexivity. }
  apply (respects_run_phases _ Hrefl Htrans _ Hd plugin Hp).
  - intros _ x. apply grows_by_extendContext.
  - apply (good_install _ _ Hd plugin Hp).
    apply (good_schema_of _ Hrefl Htrans (fun e => P e = true) Hemit).
    intros name. reflexivity.
Qed.

Lemma unregistered_category_is_untouched_witness :
  let raw := {| skipIntrospection := None;
                onContextBuildingMeasurement := None;
                onExecutionMeasurement := Some None;
                onSubscriptionMeasurement := Some None;
                onParsingMeasurement := None;
                onValidationMeasurement := None;
                onResolverMeasurement := Some (Some (returning_sink "mine")) |} in
  let behaviour := fun _ : ResolverArgs => Returns VUndefined in
  let plugin := useTiming (default_resolver behaviour) (fun _ => false)
                  (Some raw) in
  registers Resolver plugin = false
  /\ forall fields ps w,
       grows_by (fun e => negb (concerns Resolver e)) w
         (snd (run_phases (default_resolver behaviour) plugin
                 (install plugin (schema_of fields)) ps w)).
Proof.
  cbv zeta. split; [reflexivity |]. intros fields ps w.
  apply (unregistered_category_is_untouched (fun _ => false)
           (fun _ => Returns VUndefined)
           (Some {| skipIntrospection := None;
                    onContextBuildingMeasurement := None;
                    onExecutionMeasurement := Some None;
                    onSubscriptionMeasurement := Some None;
                    onParsingMeasurement := None;
                    onValidationMeasurement := None;
                    onResolverMeasurement :=
                      Some (Some (returning_sink "mine")) |})
           Resolver fields ps w).
  reflexivity.
Defined.

(** Whatever the options are, no run calls a sink that is undefined: the
    calls through [options.f!] are all made where [options.f] is set. *)
Theorem no_undefined_sink_is_called
    (isIntrospectionOperationString : string -> bool)
    (behaviour : ResolverArgs -> outcome)
    (rawOptions : option TimingPluginOptions)
    (fields : list FieldDescription) (ps : list phase) (w : world) :
  let plugin := useTiming (default_resolver behaviour)
                  isIntrospectionOperationString rawOptions in
  grows_by (fun e => negb (is_undefined_call e)) w
    (snd (run_phases (default_resolver behaviour) plugin
            (install plugin (schema_of fields)) ps w)).
Proof.
  intros plugin. apply run_phases_grows_by.
  - intros c _. split; [| intros sink subject timing]; reflexivity.
  - intros name. reflexivity.
Qed.

(** ** The marker during a request *)

Lemma marker_kept_refl (w : world) : marker_kept w w.
Proof. intros H. exact H. Qed.

Lemma marker_kept_trans (w1 w2 w3 : world) :
  marker_kept w1 w2 -> marker_kept w2 w3 -> marker_kept w1 w3.
Proof. intros H1 H2 H. apply H2, H1, H. Qed.

Lemma marker_kept_plugin
    (isIntrospectionOperationString : string -> bool)
    (behaviour : ResolverArgs -> outcome)
    (rawOptions : option TimingPluginOptions) :
  good_resolver marker_kept (default_resolver behaviour)
  /\ good_plugin marker_kept (default_resolver behaviour)
       (useTiming (default_resolver behaviour) isIntrospectionOperationString
          rawOptions)
  /\ (forall x, respects marker_kept any (extendContext x))
  /\ forall fields, good_schema marker_kept (schema_of fields).
Proof.
  assert (Hemit : forall e w0, True -> marker_kept w0 (snd (emit e w0)))
    by (intros e w0 _ H; exact H).
  assert (Hclock : forall c w0, True -> marker_kept w0 (snd (hrtime c w0)))
    by (intros c w0 _ H; exact H).
  split; [| split; [| split]].
  - apply (good_named_resolver _ marker_kept_refl marker_kept_trans
             (fun _ => True) Hemit).
    intros _. exact I.
  - apply (good_useTiming _ marker_kept_refl marker_kept_trans
             (fun _ => True) Hemit Hclock).
    intros c _. split; [exact I | intros; exact I].
  - intros x w0. split; [| exact I]. intros H. simpl. rewrite H.
    apply orb_true_r.
  - intros fields.
    apply (good_schema_of _ marker_kept_refl marker_kept_trans
             (fun _ => True) Hemit).
    intros _. exact I.
Qed.

Lemma run_phase_keeps_marker
    (isIntrospectionOperationString : string -> bool)
    (behaviour : ResolverArgs -> outcome)
    (rawOptions : option TimingPluginOptions)
    (fields : list FieldDescription) (p : phase) (w : world) :
  let plugin := useTiming (default_resolver behaviour)
                  isIntrospectionOperationString rawOptions in
  isIntrospection (context w) = true ->
  isIntrospection
    (context (snd (run_phase (default_resolver behaviour) plugin
                     (install plugin (schema_of fields)) p w))) = true.
Proof.
  intros plugin.
  destruct (marker_kept_plugin isIntrospectionOperationString behaviour
              rawOptions) as (Hd & Hp & Hext & Hs).
  apply (respects_run_phase _ marker_kept_refl marker_kept_trans _ Hd
           plugin Hp (fun _ => Hext)).
  apply (good_install _ _ Hd plugin Hp). apply Hs.
Qed.

(** No phase clears the marker: once it is set on the context of a request
    it stays set through all the phases that follow. *)
Theorem marker_is_never_cleared
    (isIntrospectionOperationString : string -> bool)
    (behaviour : ResolverArgs -> outcome)
    (rawOptions : option TimingPluginOptions)
    (fields : list FieldDescription) (ps : list phase) (w : world) :
  let plugin := useTiming (default_resolver behaviour)
                  isIntrospectionOperationString rawOptions in
  isIntrospection (context w) = true ->
  isIntrospection
    (context (snd (run_phases (default_resolver behaviour) plugin
                     (install plugin (schema_of fields)) ps w))) = true.
Proof.
  intros plugin.
  destruct (marker_kept_plugin isIntrospectionOperationString behaviour
              rawOptions) as (Hd & Hp & Hext & Hs).
  apply (respects_run_phases _ marker_kept_refl marker_kept_trans _ Hd
           plugin Hp (fun _ => Hext)).
  apply (good_install _ _ Hd plugin Hp). apply Hs.
Qed.

Lemma marker_is_never_cleared_witness :
  let behaviour := fun _ : ResolverArgs => Returns VUndefined in
  let plugin := useTiming (default_resolver behaviour) (fun _ => false) None in
  let w := {| clock := fun _ => (0, 0); ticks := 0;
              context := {| isIntrospection := true |}; trace := [] |} in
  isIntrospection (context w) = true
  /\ forall fields ps,
       isIntrospection
         (context (snd (run_phases (default_resolver behaviour) plugin
                          (install plugin (schema_of fields)) ps w))) = true.
Proof.
  cbv zeta. split; [reflexivity |]. intros fields ps.
  apply (marker_is_never_cleared (fun _ => false)
           (fun _ => Returns VUndefined) None fields ps
           {| clock := fun _ => (0, 0); ticks := 0;
              context := {| isIntrospection := true |}; trace := [] |}).
  reflexivity.
Defined.

Section RespectsParse.

Variable R : world -> world -> Prop.
Hypothesis R_refl : forall w, R w w.
Hypothesis R_trans : forall w1 w2 w3, R w1 w2 -> R w2 w3 -> R w1 w3.

Variable defaultFieldResolver : ResolverFn.
Hypothesis good_default : good_resolver R defaultFieldResolver.

Variable plugin : Plugin.
Hypothesis good : good_plugin R defaultFieldResolver plugin.
Hypothesis parse_ok :
  forall h, onParse plugin = Some h ->
  forall src, respects R (good_after R)
                (h {| source := src; extend := extendContext |}).

(** As [respects_run_phase], for a parse hook that is known to keep the
    invariant with the engine's [extendContext]. *)
Lemma respects_run_phase_parse (schema : Schema) (p : phase) :
  good_schema R schema ->
  respects R any (run_phase defaultFieldResolver plugin schema p).
Proof.
  intros Hs. unfold run_phase.
  apply (respects_seq R R_trans); [apply (respects_get_context R R_refl) |].
  intros current.
  assert (Hfields : forall native fields,
             respects R any
               (run_fields defaultFieldResolver plugin schema native fields)).
  { intros native fields.
    apply (respects_run_fields R R_refl R_trans _ good_default plugin
             (good_onResolverCalledHook _ _ _ good)).
    exact Hs. }
  destruct p as [| src | document | name native fields
                 | name native fields];
    apply (respects_bracket R R_refl R_trans);
    try apply (ret_any R R_refl); try apply Hfields; intros h E.
  - apply (good_onContextBuilding _ _ _ good _ E).
  - apply (parse_ok h E).
  - apply (good_onValidate _ _ _ good _ E).
  - apply (good_onExecute _ _ _ good _ E).
  - apply (good_onSubscribe _ _ _ good _ E).
Qed.

Lemma respects_run_phases_parse (schema : Schema) (ps : list phase) :
  good_schema R schema ->
  respects R any (run_phases defaultFieldResolver plugin schema ps).
Proof.
  intros Hs. induction ps as [| p rest IH]; simpl.
  - apply (ret_any R R_refl).
  - apply (respects_seq R R_trans);
      [apply respects_run_phase_parse, Hs | intros _; exact IH].
Qed.

End RespectsParse.

(** With [skipIntrospection] unset or false, no phase writes to the request
    context, whatever the operation text is classified as: the marker is
    never set. *)
Theorem context_untouched_without_skip
    (isIntrospectionOperationString : string -> bool)
    (behaviour : ResolverArgs -> outcome)
    (rawOptions : option TimingPluginOptions)
    (fields : list FieldDescription) (ps : list phase) (w : world) :
  let plugin := useTiming (default_resolver behaviour)
                  isIntrospectionOperationString rawOptions in
  truthy_flag (read (skipIntrospection (merged rawOptions))) = false ->
  context (snd (run_phases (default_resolver behaviour) plugin
                  (install plugin (schema_of fields)) ps w))
  = context w.
Proof.
  intros plugin Hskip.
  assert (Hrefl : forall w0, same_context w0 w0) by reflexivity.
  pose proof same_context_trans as Htrans.
  assert (Hemit : forall e w0, True -> same_context w0 (snd (emit e w0)))
    by reflexivity.
  assert (Hclock : forall c w0, True -> same_context w0 (snd (hrtime c w0)))
    by reflexivity.
  assert (Hd : good_resolver same_context (default_resolver behaviour)).
  { apply (good_named_resolver _ Hrefl Htrans (fun _ => True) Hemit).
    intros _. exact I. }
  assert (Hp : good_plugin same_context (default_resolver behaviour) plugin).
  { apply (good_useTiming _ Hrefl Htrans (fun _ => True) Hemit Hclock).
    intros c _. split; [exact I | intros; exact I]. }
  apply (respects_run_phases_parse _ Hrefl Htrans _ Hd plugin Hp).
  - intros h E src. unfold plugin in E. rewrite useTiming_onParse in E.
    destruct (truthy_sink (read (sink_slot Parsing (merged rawOptions))))
      eqn:En; [| discriminate E].
    injection E as <-.
    destruct (truthy_sink_read _ En) as [f Hf].
    unfold parseHook. rewrite Hskip. cbv beta iota delta [andb source].
    cbv beta iota delta [sink_slot] in Hf. rewrite Hf.
    apply (respects_start _ Hrefl Htrans (fun _ => True) Hclock); [exact I |].
    intros start.
    apply (respects_call_measured _ Hrefl Htrans (fun _ => True) Hemit Hclock).
    split; [exact I | intros; exact I].
  - apply (good_install _ _ Hd plugin Hp).
    apply (good_schema_of _ Hrefl Htrans (fun _ => True) Hemit).
    intros _. exact I.
Qed.

Lemma context_untouched_without_skip_witness :
  let behaviour := fun _ : ResolverArgs => Returns VUndefined in
  let plugin := useTiming (default_resolver behaviour) (fun _ => true) None in
  truthy_flag (read (skipIntrospection (merged None))) = false
  /\ forall fields ps w,
       context (snd (run_phases (default_resolver behaviour) plugin
                       (install plugin (schema_of fields)) ps w))
       = context w.
Proof.
  cbv zeta. split; [reflexivity |]. intros fields ps w.
  apply (context_untouched_without_skip (fun _ => true)
           (fun _ => Returns VUndefined) None fields ps w).
  reflexivity.
Defined.

(** ** What a phase touches *)

Lemma phase_leaves_other_categories
    (isIntrospectionOperationString : string -> bool)
    (behaviour : ResolverArgs -> outcome)
    (rawOptions : option TimingPluginOptions)
    (fields : list FieldDescription) (p : phase) (c : category) (w : world) :
  let plugin := useTiming (default_resolver behaviour)
                  isIntrospectionOperationString rawOptions in
  c <> phase_category p ->
  c <> Resolver ->
  grows_by (fun e => negb (concerns c e)) w
    (snd (run_phase (default_resolver behaviour) plugin
            (install plugin (schema_of fields)) p w)).
Proof.
  intros plugin Hp Hr.
  set (P := fun e => negb (concerns c e)).
  pose proof (grows_by_refl P) as Hrefl.
  pose proof (grows_by_trans P) as Htrans.
  assert (Hemit : forall e w0, P e = true -> grows_by P w0 (snd (emit e w0)))
    by (intros e w0; apply grows_by_emit).
  assert (Hclock : forall k w0, P (EvClock k) = true ->
                                grows_by P w0 (snd (hrtime k w0)))
    by (intros k w0; apply grows_by_hrtime).
  assert (Hown : ok_category (fun e => P e = true) (phase_category p)).
  { assert (Hne : category_eqb c (phase_category p) = false).
    { destruct (category_eqb c (phase_category p)) eqn:E; [| reflexivity].
      apply category_eqb_eq in E. contradiction. }
    split; [| intros sink subject timing]; unfold P; simpl;
      rewrite Hne; reflexivity. }
  assert (Hfields : forall native calls,
             respects (grows_by P) any
               (run_fields (default_resolver behaviour) plugin
                  (install plugin (schema_of fields)) native calls)).
  { intros native calls w0.
    split; [apply run_fields_unconcerned; exact Hr |].
    destruct (fst _); exact I. }
  assert (Hret : respects (grows_by P) any (ret tt)).
  { apply (respects_ret _ Hrefl). exact I. }
  cut (respects (grows_by P) any
         (run_phase (default_resolver behaviour) plugin
            (install plugin (schema_of fields)) p)).
  { intros H. apply H. }
  unfold run_phase.
  apply (respects_seq _ Htrans); [apply (respects_get_context _ Hrefl) |].
  intros current.
  destruct p as [| src | document | name native calls | name native calls];
    cbv beta iota delta [phase_category] in Hown;
    apply (respects_bracket _ Hrefl Htrans);
    try exact Hret; try apply Hfields; intros h E; unfold plugin in E.
  - rewrite useTiming_onContextBuilding in E.
    destruct (truthy_sink _) eqn:En; [| discriminate E]. injection E as <-.
    destruct (truthy_sink_read _ En) as [f Hf].
    apply (good_contextBuildingHook _ Hrefl Htrans _ Hemit Hclock _ f);
      assumption.
  - rewrite useTiming_onParse in E.
    destruct (truthy_sink _) eqn:En; [| discriminate E]. injection E as <-.
    destruct (truthy_sink_read _ En) as [f Hf].
    apply (good_parseHook _ Hrefl Htrans _ Hemit Hclock _ _ f);
      try assumption.
    intros x. apply grows_by_extendContext.
  - rewrite useTiming_onValidate in E.
    destruct (truthy_sink _) eqn:En; [| discriminate E]. injection E as <-.
    destruct (truthy_sink_read _ En) as [f Hf].
    apply (good_validateHook _ Hrefl Htrans _ Hemit Hclock _ f); assumption.
  - rewrite useTiming_onExecute in E.
    destruct (truthy_sink _) eqn:En; [| discriminate E]. injection E as <-.
    destruct (truthy_sink_read _ En) as [f Hf].
    apply (good_executeHook _ Hrefl Htrans _ Hemit Hclock _ f); assumption.
  - rewrite useTiming_onSubscribe in E.
    destruct (truthy_sink _) eqn:En; [| discriminate E]. injection E as <-.
    apply (good_subscribeHook _ Hrefl Htrans _ Hemit Hclock); assumption.
Qed.

(** A phase reads the clock and calls sinks only for its own category and
    for the resolver category: every other category is left alone, whether
    or not the marker is set. *)
Theorem phase_touches_own_category
    (isIntrospectionOperationString : string -> bool)
    (behaviour : ResolverArgs -> outcome)
    (rawOptions : option TimingPluginOptions)
    (fields : list FieldDescription) (p : phase) (c : category) (w : world) :
  let plugin := useTiming (default_resolver behaviour)
                  isIntrospectionOperationString rawOptions in
  c <> phase_category p ->
  c <> Resolver ->
  grows_by (fun e => negb (concerns c e)) w
    (snd (run_phase (default_resolver behaviour) plugin
            (install plugin (schema_of fields)) p w)).
Proof.
  intros plugin Hp Hr. apply phase_leaves_other_categories; assumption.
Qed.

Lemma phase_touches_own_category_witness :
  let behaviour := fun _ : ResolverArgs => Returns VUndefined in
  let plugin := useTiming (default_resolver behaviour) (fun _ => false) None in
  Validation <> phase_category (ParsePhase "{ me }")
  /\ Validation <> Resolver
  /\ forall fields w,
       grows_by (fun e => negb (concerns Validation e)) w
         (snd (run_phase (default_resolver behaviour) plugin
                 (install plugin (schema_of fields)) (ParsePhase "{ me }") w)).
Proof.
  cbv zeta. split; [discriminate |]. split; [discriminate |].
  intros fields w.
  apply (phase_touches_own_category (fun _ => false)
           (fun _ => Returns VUndefined) None fields (ParsePhase "{ me }")
           Validation w); discriminate.
Defined.

(** ** Phases of a request taken for introspection *)

Lemma marked_phases_unmeasured
    (isIntrospectionOperationString : string -> bool)
    (behaviour : ResolverArgs -> outcome)
    (rawOptions : option TimingPluginOptions)
    (fields : list FieldDescription) (c : category)
    (ps : list phase) (w : world) :
  let plugin := useTiming (default_resolver behaviour)
                  isIntrospectionOperationString rawOptions in
  c <> Parsing -> c <> Resolver ->
  isIntrospection (context w) = true ->
  grows_by (fun e => negb (concerns c e)) w
    (snd (run_phases (default_resolver behaviour) plugin
            (install plugin (schema_of fields)) ps w)).
Proof.
  intros plugin Hparse Hres. revert w.
  induction ps as [| p rest IH]; intros w Hctx; simpl.
  - apply grows_by_refl.
  - assert (Hstep : grows_by (fun e => negb (concerns c e)) w
                      (snd (run_phase (default_resolver behaviour) plugin
                              (install plugin (schema_of fields)) p w))).
    { destruct (category_eqb c (phase_category p)) eqn:E.
      - apply category_eqb_eq in E. subst c.
        apply marked_phase_is_unmeasured; assumption.
      - apply phase_leaves_other_categories; [| exact Hres].
        intros ->. destruct (phase_category p); discriminate E. }
    pose proof (run_phase_keeps_marker isIntrospectionOperationString
                  behaviour rawOptions fields p w Hctx) as Hkept.
    fold plugin in Hkept. unfold bind.
    destruct (run_phase (default_resolver behaviour) plugin
                (install plugin (schema_of fields)) p w) as [[[] | e] w1];
      simpl in *.
    + eapply grows_by_trans; [exact Hstep | apply IH; exact Hkept].
    + exact Hstep.
Qed.

(** When the parse hook takes an operation for an introspection query, the
    parse phase and all the phases that follow it in the request read no
    clock and call no sink for context building, validation, execution and
    subscription; the parse phase itself reads no clock for parsing either. *)
Theorem introspection_phases_are_unmeasured
    (isIntrospectionOperationString : string -> bool)
    (behaviour : ResolverArgs -> outcome)
    (rawOptions : option TimingPluginOptions)
    (fields : list FieldDescription) (c : category)
    (src : string) (ps : list phase) (w : world) :
  let plugin := useTiming (default_resolver behaviour)
                  isIntrospectionOperationString rawOptions in
  enabled Parsing (merged rawOptions) = true ->
  skipped isIntrospectionOperationString (merged rawOptions) (ParsePhase src)
  = true ->
  c <> Parsing -> c <> Resolver ->
  run_phase (default_resolver behaviour) plugin
    (install plugin (schema_of fields)) (ParsePhase src) w
  = extendContext {| isIntrospection := true |} w
  /\ grows_by (fun e => negb (concerns c e)) w
       (snd (run_phases (default_resolver behaviour) plugin
               (install plugin (schema_of fields)) (ParsePhase src :: ps) w)).
Proof.
  intros plugin Hen Hskip Hparse Hres.
  assert (Hrun : run_phase (default_resolver behaviour) plugin
                   (install plugin (schema_of fields)) (ParsePhase src) w
                 = extendContext {| isIntrospection := true |} w)
    by (apply parse_sets_marker; assumption).
  split; [exact Hrun |].
  cbv [run_phases]. fold run_phases.
  rewrite (bind_run _ _ _ _ _ Hrun).
  eapply grows_by_trans;
    [| apply marked_phases_unmeasured; [exact Hparse | exact Hres | reflexivity]].
  exists []. simpl. rewrite app_nil_r. split; reflexivity.
Qed.

Lemma introspection_phases_are_unmeasured_witness :
  let classify := fun s : string => (s =? "{ __schema { types { name } } }")%string in
  let behaviour := fun _ : ResolverArgs => Returns VUndefined in
  let raw := Some (with_skipIntrospection (Some (Some true)) no_options) in
  let plugin := useTiming (default_resolver behaviour) classify raw in
  enabled Parsing (merged raw) = true
  /\ skipped classify (merged raw)
       (ParsePhase "{ __schema { types { name } } }") = true
  /\ forall fields ps w,
       grows_by (fun e => negb (concerns Execution e)) w
         (snd (run_phases (default_resolver behaviour) plugin
                 (install plugin (schema_of fields))
                 (ParsePhase "{ __schema { types { name } } }" :: ps) w)).
Proof.
  cbv zeta. split; [reflexivity |]. split; [reflexivity |].
  intros fields ps w.
  apply (introspection_phases_are_unmeasured
           (fun s : string => (s =? "{ __schema { types { name } } }")%string)
           (fun _ => Returns VUndefined)
           (Some (with_skipIntrospection (Some (Some true)) no_options))
           fields Execution "{ __schema { types { name } } }" ps w);
    try reflexivity; discriminate.
Defined.

(** ** Phases of a request that is measured *)

(** With the sink of its category set and the marker not set, a phase hands
    exactly one measurement to that sink, whatever fields are resolved
    during it; a parse phase does so unless the operation is skipped as an
    introspection query. *)
Theorem enabled_phase_is_measured_once
    (isIntrospectionOperationString : string -> bool)
    (behaviour : ResolverArgs -> outcome)
    (rawOptions : option TimingPluginOptions)
    (fields : list FieldDescription) (p : phase) (w : world) :
  let plugin := useTiming (default_resolver behaviour)
                  isIntrospectionOperationString rawOptions in
  enabled (phase_category p) (merged rawOptions) = true ->
  isIntrospection (context w) = false ->
  skipped isIntrospectionOperationString (merged rawOptions) p = false ->
  exists t,
    measurements (phase_category p)
      (trace (snd (run_phase (default_resolver behaviour) plugin
                     (install plugin (schema_of fields)) p w)))
    = measurements (phase_category p) (trace w) ++ [t].
Proof.
  intros plugin Hen Hctx Hskip.
  apply phase_measured_once; assumption.
Qed.

Lemma enabled_phase_is_measured_once_witness :
  let behaviour := fun _ : ResolverArgs => Returns VUndefined in
  let plugin := useTiming (default_resolver behaviour) (fun _ => false) None in
  let w := {| clock := fun n => (0, Z.of_nat n * 5000000); ticks := 0;
              context := {| isIntrospection := false |}; trace := [] |} in
  let p := ExecutePhase "operation" true [] in
  enabled (phase_category p) (merged None) = true
  /\ isIntrospection (context w) = false
  /\ skipped (fun _ => false) (merged None) p = false
  /\ exists t,
       measurements Execution
         (trace (snd (run_phase (default_resolver behaviour) plugin
                        (install plugin (schema_of [])) p w)))
       = measurements Execution (trace w) ++ [t].
Proof.
  cbv zeta. split; [reflexivity |]. split; [reflexivity |].
  split; [reflexivity |].
  apply (enabled_phase_is_measured_once (fun _ => false)
           (fun _ => Returns VUndefined) None []
           (ExecutePhase "operation" true [])
           {| clock := fun n => (0, Z.of_nat n * 5000000); ticks := 0;
              context := {| isIntrospection := false |}; trace := [] |});
    reflexivity.
Defined.

(** ** A throwing getter *)

(** When the ["then"] member of an object or function is an accessor whose
    getter throws, [isThenable] throws the very value the getter throws,
    wherever on the prototype chain the accessor sits. *)
Theorem isThenable_rethrows_getter (v : value) (e : value) :
  then_member v = Some (PGetterThrows e) ->
  isThenable v = Abrupt e.
Proof.
  unfold then_member.
  destruct (as_object v) as [o |] eqn:Ho; [| discriminate].
  intros H. rewrite (isThenable_object v o Ho), H. reflexivity.
Qed.

Lemma isThenable_rethrows_getter_witness :
  let parent := Obj [("then", PGetterThrows (VString "probe"))] None in
  let v := VFunction (Obj [("name", PData (VString "f"))] (Some parent)) in
  then_member v = Some (PGetterThrows (VString "probe"))
  /\ isThenable v = Abrupt (VString "probe").
Proof.
  cbv zeta. split; [reflexivity |].
  apply (isThenable_rethrows_getter
           (VFunction (Obj [("name", PData (VString "f"))]
                         (Some (Obj [("then", PGetterThrows (VString "probe"))]
                                  None))))
           (VString "probe")).
  reflexivity.
Defined.
